(** * A shallow embedding of the C review tools

    The development follows three modules of the repository:
    - [src/tools/c_code_parser.py]      (module [Parser]),
    - [src/tools/c_static_analyzer.py]  (module [Analyzer]),
    - [src/tools/review_rule_engine.py] (module [RuleEngine]),
    and what they use of Python: text (module [Py]), the patterns of [re]
    (module [Re]) and [fnmatch] (module [Fnmatch]).

    Python text ([str]) is a sequence of Unicode code points; it is modelled
    as a list of code points, so that [len], slicing and match offsets mean
    what they mean in the source.  The two tables of the Unicode database
    that the code consults, [str.isalnum] above ASCII and [str.lower], are
    parameters of the definitions that use them.

    A Python [float] is a binary64 number of IEEE 754; the two places that
    compute one, the compliance score and the average complexity, divide and
    multiply non-negative numbers, and the result is modelled as the
    rational number that the float is, rounded as the hardware rounds it
    (module [Float]). *)

From Stdlib Require Import Ascii String.
From Stdlib Require Import List Bool Arith NArith ZArith QArith Qround Qpower.
From Stdlib Require Import Lia Lqa.
Import ListNotations.

(* [length] is the length of a list throughout. *)
Abbreviation length := Datatypes.length (only parsing).

Local Open Scope nat_scope.
Local Open Scope list_scope.

(** ** Python text *)

Module Py.

Definition char := N.
Definition str := list char.

Definition char_eqb (a b : char) : bool := N.eqb a b.

(** Decoding of the UTF-8 bytes of a literal of this file into code points. *)
Fixpoint utf8_decode (bs : list N) : str :=
  match bs with
  | [] => []
  | b :: rest =>
      if (b <? 128)%N then b :: utf8_decode rest
      else if (b <? 224)%N then
        match rest with
        | b1 :: r1 => ((b - 192) * 64 + (b1 - 128))%N :: utf8_decode r1
        | _ => []
        end
      else if (b <? 240)%N then
        match rest with
        | b1 :: b2 :: r2 =>
            ((b - 224) * 4096 + (b1 - 128) * 64 + (b2 - 128))%N :: utf8_decode r2
        | _ => []
        end
      else
        match rest with
        | b1 :: b2 :: b3 :: r3 =>
            ((b - 240) * 262144 + (b1 - 128) * 4096 + (b2 - 128) * 64 + (b3 - 128))%N
              :: utf8_decode r3
        | _ => []
        end
  end.

(** [u "text"] is the Python literal ['text']. *)
Definition u (s : string) : str :=
  utf8_decode (map N_of_ascii (list_ascii_of_string s)).

(** [ch "x"] is the character ['x'] (ASCII). *)
Definition ch (a : ascii) : char := N_of_ascii a.
Arguments ch a%_char.

Definition nl : char := 10%N.
Definition asterisk : char := 42%N.
Definition dquote : char := 34%N.

(** [s.startswith(p)] *)
Fixpoint startswith (p s : str) : bool :=
  match p, s with
  | [], _ => true
  | _ :: _, [] => false
  | a :: p', b :: s' => char_eqb a b && startswith p' s'
  end.

(** [needle in hay] *)
Fixpoint str_in (needle hay : str) : bool :=
  startswith needle hay ||
  match hay with
  | [] => false
  | _ :: t => str_in needle t
  end.

(** [s.count(sub)]: the number of non-overlapping occurrences, found from
    left to right.  [skip] is the number of characters still covered by the
    occurrence found last. *)
Fixpoint count_scan (sub s : str) (skip : nat) : nat :=
  match s with
  | [] => 0
  | _ :: t =>
      match skip with
      | S k => count_scan sub t k
      | O => if startswith sub s
             then S (count_scan sub t (length sub - 1))
             else count_scan sub t 0
      end
  end.

Definition str_count (s sub : str) : nat :=
  match sub with
  | [] => S (length s)
  | _ => count_scan sub s 0
  end.

(** [s.split(sep)] for a one-character separator. *)
Fixpoint split_on (sep : char) (s : str) : list str :=
  match s with
  | [] => [[]]
  | c :: t =>
      if char_eqb c sep then [] :: split_on sep t
      else match split_on sep t with
           | [] => [[c]]
           | h :: r => (c :: h) :: r
           end
  end.

(** [str.isspace] on one code point (the table of CPython's
    [_PyUnicode_IsWhitespace]); [\s] of [re] uses the same table. *)
Definition isspace (c : char) : bool :=
  ((9 <=? c) && (c <=? 13) || (28 <=? c) && (c <=? 32) ||
   (c =? 133) || (c =? 160) || (c =? 5760) ||
   (8192 <=? c) && (c <=? 8202) || (c =? 8232) || (c =? 8233) ||
   (c =? 8239) || (c =? 8287) || (c =? 12288))%N.

Fixpoint lstrip (s : str) : str :=
  match s with
  | [] => []
  | c :: t => if isspace c then lstrip t else s
  end.

Definition rstrip (s : str) : str := rev (lstrip (rev s)).

(** [s.strip()] *)
Definition strip (s : str) : str := rstrip (lstrip s).

(** [s.split()]: the maximal runs of non-whitespace characters.  [cur] is
    the run being read, in reverse. *)
Fixpoint split_ws_scan (s : str) (cur : str) : list str :=
  match s with
  | [] => match cur with [] => [] | _ => [rev cur] end
  | c :: t =>
      if isspace c
      then match cur with
           | [] => split_ws_scan t []
           | _ => rev cur :: split_ws_scan t []
           end
      else split_ws_scan t (c :: cur)
  end.

Definition split_ws (s : str) : list str := split_ws_scan s [].

(** [s[a:b]] for [0 <= a], [0 <= b]. *)
Definition slice (s : str) (a b : nat) : str := firstn (b - a) (skipn a s).

(** [str(n)] for a natural number: its decimal digits. *)
Fixpoint digits_fuel (fuel n : nat) (acc : str) : str :=
  match fuel with
  | O => acc
  | S f =>
      let d := (48 + N.of_nat (n mod 10))%N in
      if n <? 10 then d :: acc else digits_fuel f (n / 10) (d :: acc)
  end.

Definition str_of_nat (n : nat) : str := digits_fuel (S n) n [].

(** A loop [for x in xs: if ...: return v] that returns at the first [x]
    with a result. *)
Fixpoint for_first {A B : Type} (body : A -> option B) (xs : list A) : option B :=
  match xs with
  | [] => None
  | x :: rest =>
      match body x with
      | Some v => Some v
      | None => for_first body rest
      end
  end.

(** [enumerate(xs)] *)
Fixpoint enumerate_from {A : Type} (i : nat) (xs : list A) : list (nat * A) :=
  match xs with
  | [] => []
  | x :: t => (i, x) :: enumerate_from (S i) t
  end.

Definition enumerate {A : Type} (xs : list A) : list (nat * A) :=
  enumerate_from 0 xs.

End Py.

(** ** Python floats: binary64 arithmetic on non-negative numbers

    A finite float is a rational number [m * 2^c] with [|m| < 2^53] and
    [c >= -1074].  The result of an operation is the exact result rounded
    to the nearest such number, to the one with an even [m] when two are
    equally near.  The quotient of two integers ([int / int]) is rounded
    once, from the exact quotient, however large the integers are.  Results
    of [2^1024] and more, for which Python raises [OverflowError] or gives
    [inf], do not arise from the quotients and products of the code on a
    text that is a Python [str] (fewer than [2^63] characters). *)

Module Float.

Definition pow2 (z : Z) : Q := Qpower 2 z.

(** The exponent of the smallest positive float. *)
Definition emin : Z := (-1074)%Z.

(** [floor (log2 q)] for [q > 0]. *)
Definition ilog2 (q : Q) : Z :=
  let k := (Z.log2 (Qnum q) - Z.log2 (Z.pos (Qden q)))%Z in
  if Qle_bool (pow2 k) q then k else (k - 1)%Z.

(** The nearest integer, the even one of two that are equally near. *)
Definition round_half_even (s : Q) : Z :=
  let f := Qfloor s in
  match (s - inject_Z f ?= 1 # 2)%Q with
  | Lt => f
  | Gt => (f + 1)%Z
  | Eq => if Z.even f then f else (f + 1)%Z
  end.

(** The exponent [c] of the floats around [q]: 53 binary digits from the
    leading one of [q], and never below [emin]. *)
Definition quantum_exponent (q : Q) : Z := Z.max (ilog2 q - 52) emin.

(** The multiple of [2^c] nearest to [q]. *)
Definition round_at (c : Z) (q : Q) : Q :=
  (inject_Z (round_half_even (q / pow2 c)) * pow2 c)%Q.

(** The float nearest to [q >= 0]. *)
Definition binary64 (q : Q) : Q :=
  if Qle_bool q 0 then 0%Q else round_at (quantum_exponent q) q.

(** [a / b] for integers [a >= 0], [b > 0]. *)
Definition int_truediv (a b : Z) : Q := binary64 (inject_Z a / inject_Z b).

(** [x * y] for floats [x >= 0], [y >= 0]. *)
Definition float_mul (x y : Q) : Q := binary64 (x * y).

End Float.

(** ** The fragment of Python's [re] that the parser uses

    A backtracking matcher in continuation-passing style: alternatives are
    tried in order, repetition is greedy, and a failure of the continuation
    makes the matcher fall back to the next choice, as [re] does. *)

Module Re.
Import Py.

Inductive regex : Type :=
| Eps
| Class (p : char -> bool)
| Cat (r1 r2 : regex)
| Or (r1 r2 : regex)
| Star (r : regex)
| Group (n : nat) (r : regex)
| EndOfLine.

Definition Plus (r : regex) : regex := Cat r (Star r).
Definition Opt (r : regex) : regex := Or r Eps.
Definition Chr (c : char) : regex := Class (char_eqb c).

Fixpoint Lit (s : str) : regex :=
  match s with
  | [] => Eps
  | c :: t => Cat (Chr c) (Lit t)
  end.

Declare Scope re_scope.
Delimit Scope re_scope with re.
Infix "@@" := Cat (at level 60, right associativity) : re_scope.
Infix "</>" := Or (at level 61, right associativity) : re_scope.

(** Group number [n] spans the offsets [(a, b)]. *)
Definition captures := list (nat * (nat * nat)).

Record re_match := mk_match {
  m_start : nat;
  m_end : nat;
  m_groups : captures
}.

Section Matcher.

(** The length of the whole text; the matcher works on suffixes of it. *)
Variable len : nat.

Definition offset (s : str) : nat := len - length s.

(** [Star]: one more round of the body is tried first; a round that
    consumes nothing ends the repetition. *)
Fixpoint rmatch (r : regex) (s : str) (caps : captures)
    (k : str -> captures -> option (str * captures)) {struct r}
    : option (str * captures) :=
  match r with
  | Eps => k s caps
  | Class p =>
      match s with
      | c :: t => if p c then k t caps else None
      | [] => None
      end
  | Cat r1 r2 => rmatch r1 s caps (fun s1 caps1 => rmatch r2 s1 caps1 k)
  | Or r1 r2 =>
      match rmatch r1 s caps k with
      | Some x => Some x
      | None => rmatch r2 s caps k
      end
  | Star r1 =>
      (fix rounds (fuel : nat) (s : str) (caps : captures) {struct fuel} :=
         match fuel with
         | O => k s caps
         | S fuel' =>
             match rmatch r1 s caps
                     (fun s1 caps1 =>
                        if length s1 <? length s
                        then rounds fuel' s1 caps1
                        else None) with
             | Some x => Some x
             | None => k s caps
             end
         end) (length s) s caps
  | Group n r1 =>
      rmatch r1 s caps
        (fun s1 caps1 => k s1 ((n, (offset s, offset s1)) :: caps1))
  | EndOfLine =>
      match s with
      | [] => k s caps
      | c :: _ => if char_eqb c nl then k s caps else None
      end
  end.

(** A match that starts exactly where [s] starts. *)
Definition match_here (r : regex) (s : str) : option re_match :=
  match rmatch r s [] (fun s1 caps1 => Some (s1, caps1)) with
  | Some (s1, caps1) => Some (mk_match (offset s) (offset s1) caps1)
  | None => None
  end.

(** The leftmost match in [s]. *)
Fixpoint search_here (r : regex) (s : str) : option re_match :=
  match match_here r s with
  | Some m => Some m
  | None =>
      match s with
      | [] => None
      | _ :: t => search_here r t
      end
  end.

End Matcher.

(** [pattern.search(content, pos)] *)
Definition search (r : regex) (content : str) (pos : nat) : option re_match :=
  search_here (length content) r (skipn pos content).

(** [re.finditer(pattern, content)]: the matches from left to right, each
    search starting where the last match ended (one further when that match
    was empty). *)
Fixpoint finditer_from (fuel : nat) (r : regex) (content : str) (pos : nat)
    : list re_match :=
  match fuel with
  | O => []
  | S fuel' =>
      if length content <? pos then []
      else
        match search r content pos with
        | None => []
        | Some m =>
            m :: finditer_from fuel' r content
                   (if m_end m =? m_start m then S (m_end m) else m_end m)
        end
  end.

Definition finditer (r : regex) (content : str) : list re_match :=
  finditer_from (S (length content)) r content 0.

Fixpoint lookup_group (n : nat) (caps : captures) : option (nat * nat) :=
  match caps with
  | [] => None
  | (i, span) :: rest => if i =? n then Some span else lookup_group n rest
  end.

(** [match.group(0)] *)
Definition group0 (content : str) (m : re_match) : str :=
  slice content (m_start m) (m_end m).

(** [match.group(n)] for [n >= 1]; the groups of the patterns below take
    part in every match, the empty text stands for an absent group. *)
Definition group (content : str) (m : re_match) (n : nat) : str :=
  match lookup_group n (m_groups m) with
  | Some (a, b) => slice content a b
  | None => []
  end.

End Re.

(** ** [c_code_parser.py] *)

Module Parser.
Import Py Re.
Local Open Scope re_scope.

Inductive Rating := low | medium | high | very_high.

(** The dictionary returned by [_calculate_function_complexity]. *)
Record ComplexityMetrics := mk_complexity {
  cyclomatic_complexity : nat;
  cm_line_count : nat;
  nesting_level : Z;
  complexity_rating : Rating
}.

(** One entry of the list returned by [_extract_functions]. *)
Record FunctionRecord := mk_function {
  name : str;
  return_type : str;
  start_line : nat;
  end_line : nat;
  line_count : nat;
  parameters : list str;
  complexity : ComplexityMetrics;
  has_return : bool;
  malloc_count : nat;
  free_count : nat;
  potential_issues : list str
}.

(** One entry of the list returned by [_extract_macros]. *)
Record MacroRecord := mk_macro {
  macro_name : str;
  macro_value : str;
  line_number : nat;
  is_function_like : bool;
  macro_complexity : Rating
}.

(** The dictionary returned by [_calculate_file_complexity]; the key
    ["complex_functions"] is present in one of its two [return]s only. *)
Record FileComplexity := mk_file_complexity {
  total_functions : nat;
  average_complexity : Q;
  max_complexity : nat;
  complex_functions : option nat
}.

(** *** [_find_function_end] *)

(** The [while] loop, on the text from [pos] on; [None] when the loop runs
    off the end of the text. *)
Fixpoint find_end_scan (s : str) (pos : nat) (brace_count : Z)
    (found_start : bool) : option nat :=
  match s with
  | [] => None
  | c :: rest =>
      if char_eqb c (ch "{") then
        find_end_scan rest (S pos) (brace_count + 1)%Z true
      else if char_eqb c (ch "}") then
        let brace_count := (brace_count - 1)%Z in
        if found_start && (brace_count =? 0)%Z then Some (pos + 1)
        else find_end_scan rest (S pos) brace_count found_start
      else find_end_scan rest (S pos) brace_count found_start
  end.

Definition _find_function_end (content : str) (start_pos : nat) : nat :=
  match find_end_scan (skipn start_pos content) start_pos 0%Z false with
  | Some e => e
  | None => length content
  end.

(** *** [_calculate_nesting_level], [_rate_complexity] *)

Fixpoint nesting_scan (code : str) (max_level current_level : Z) : Z :=
  match code with
  | [] => max_level
  | c :: rest =>
      if char_eqb c (ch "{") then
        let current_level := (current_level + 1)%Z in
        nesting_scan rest (Z.max max_level current_level) current_level
      else if char_eqb c (ch "}") then
        nesting_scan rest max_level (current_level - 1)%Z
      else nesting_scan rest max_level current_level
  end.

Definition _calculate_nesting_level (code : str) : Z := nesting_scan code 0%Z 0%Z.

Definition _rate_complexity (cyclomatic line_count : nat) (nesting : Z) : Rating :=
  if (20 <? cyclomatic) || (100 <? line_count) || (5 <? nesting)%Z then very_high
  else if (10 <? cyclomatic) || (50 <? line_count) || (3 <? nesting)%Z then high
  else if (5 <? cyclomatic) || (25 <? line_count) || (2 <? nesting)%Z then medium
  else low.

(** *** [_calculate_function_complexity] *)

(** The strings whose counts are added to [decision_points], in the order
    of the statements of the source. *)
Definition decision_tokens : list str :=
  [u "if"; u "while"; u "for"; u "switch"; u "case"; u "&&"; u "||"].

Definition _calculate_function_complexity (func_body : str) : ComplexityMetrics :=
  let decision_points := 0 in
  let decision_points := decision_points + str_count func_body (u "if") in
  let decision_points := decision_points + str_count func_body (u "while") in
  let decision_points := decision_points + str_count func_body (u "for") in
  let decision_points := decision_points + str_count func_body (u "switch") in
  let decision_points := decision_points + str_count func_body (u "case") in
  let decision_points := decision_points + str_count func_body (u "&&") in
  let decision_points := decision_points + str_count func_body (u "||") in
  let cyclomatic := decision_points + 1 in
  let line_count := str_count func_body [nl] in
  let nested_level := _calculate_nesting_level func_body in
  mk_complexity cyclomatic line_count nested_level
    (_rate_complexity cyclomatic line_count nested_level).

(** *** [_analyze_function_issues] *)

Definition _analyze_function_issues (func_body : str) : list str :=
  (if 50 <? str_count func_body [nl]
   then [u "関数が長すぎます（50行超）"] else []) ++
  (if 10 <? cyclomatic_complexity (_calculate_function_complexity func_body)
   then [u "複雑度が高すぎます（サイクロマティック複雑度 > 10）"] else []) ++
  (if negb (str_in (u "return") func_body) && negb (str_in (u "void") func_body)
   then [u "戻り値が設定されていない可能性"] else []).

Section Patterns.

(** [str.isalnum] on the code points above 127 (a table of the Unicode
    database, which the development does not fix). *)
Variable unicode_isalnum : char -> bool.

(** [\w]: an alphanumeric character or the underscore. *)
Definition is_word (c : char) : bool :=
  if (c <? 128)%N then
    ((48 <=? c) && (c <=? 57) || (65 <=? c) && (c <=? 90) ||
     (97 <=? c) && (c <=? 122) || (c =? 95))%N
  else unicode_isalnum c.

Definition ws : regex := Class isspace.
Definition wd : regex := Class is_word.
Definition not_rparen : regex := Class (fun c => negb (char_eqb c (ch ")"))).
(** [.] without [re.DOTALL] *)
Definition dot : regex := Class (fun c => negb (char_eqb c nl)).

(** [func_pattern] of [_extract_functions].  Group 1, the return type:
    any number of [static], [inline], [extern], each followed by white
    space, then a word, then any number of stars with optional white
    space around each.  Then white space, group 2 (the name, a word),
    optional white space, a parenthesis, any characters but a closing
    parenthesis, the closing parenthesis, optional white space and an
    opening brace. *)
Definition func_pattern : regex :=
  Group 1 (Star ((Lit (u "static") @@ Plus ws) </>
                 (Lit (u "inline") @@ Plus ws) </>
                 (Lit (u "extern") @@ Plus ws)) @@
           Plus wd @@
           Star (Star ws @@ Chr asterisk @@ Star ws)) @@
  Plus ws @@ Group 2 (Plus wd) @@ Star ws @@
  Chr (ch "(") @@ Star not_rparen @@ Chr (ch ")") @@ Star ws @@ Chr (ch "{").

(** The pattern of [_extract_parameters]: a parenthesis, group 1 (any
    characters but a closing parenthesis), the closing parenthesis. *)
Definition param_pattern : regex :=
  Chr (ch "(") @@ Group 1 (Star not_rparen) @@ Chr (ch ")").

(** [macro_pattern] of [_extract_macros], under [re.MULTILINE]: the
    text [#define], white space, group 1 (the name, a word), optionally a
    parenthesised parameter list right after the name, white space,
    group 2 (the rest of the line), the end of the line. *)
Definition macro_pattern : regex :=
  Lit (u "#define") @@ Plus ws @@ Group 1 (Plus wd) @@
  Opt (Chr (ch "(") @@ Star not_rparen @@ Chr (ch ")")) @@
  Plus ws @@ Group 2 (Star dot) @@ EndOfLine.

(** *** [_extract_parameters] *)
Definition _extract_parameters (func_declaration : str) : list str :=
  match search param_pattern func_declaration 0 with
  | None => []
  | Some param_match =>
      let params_str := strip (group func_declaration param_match 1) in
      match params_str with
      | [] => []
      | _ =>
          if list_eq_dec N.eq_dec params_str (u "void") then []
          else map strip (split_on (ch ",") params_str)
      end
  end.

(** *** [_extract_functions] *)

(** The local [func_end] and [func_body] of the loop body. *)
Definition func_end (content : str) (m : re_match) : nat :=
  _find_function_end content (m_start m).

Definition func_body (content : str) (m : re_match) : str :=
  slice content (m_start m) (func_end content m).

(** The dictionary appended for one match. *)
Definition function_record (content : str) (m : re_match) : FunctionRecord :=
  let func_start := m_start m in
  let return_type := strip (group content m 1) in
  let func_name := group content m 2 in
  let func_end := _find_function_end content func_start in
  let func_body := slice content func_start func_end in
  {| name := func_name;
     return_type := return_type;
     start_line := str_count (firstn func_start content) [nl] + 1;
     end_line := str_count (firstn func_end content) [nl] + 1;
     line_count := str_count func_body [nl];
     parameters := _extract_parameters (group0 content m);
     complexity := _calculate_function_complexity func_body;
     has_return := str_in (u "return") func_body;
     malloc_count := str_count func_body (u "malloc");
     free_count := str_count func_body (u "free");
     potential_issues := _analyze_function_issues func_body |}.

Definition _extract_functions (content : str) : list FunctionRecord :=
  map (function_record content) (finditer func_pattern content).

(** *** [_extract_macros] *)
Definition macro_record (content : str) (m : re_match) : MacroRecord :=
  let macro_name := group content m 1 in
  let macro_value := strip (group content m 2) in
  {| macro_name := macro_name;
     macro_value := macro_value;
     line_number := str_count (firstn (m_start m) content) [nl] + 1;
     is_function_like := str_in [ch "("] (group0 content m);
     macro_complexity := if 50 <? length macro_value then high else low |}.

Definition _extract_macros (content : str) : list MacroRecord :=
  map (macro_record content) (finditer macro_pattern content).

(** *** [_calculate_file_complexity] *)

(** [max(xs)] of a non-empty list of naturals. *)
Definition list_max_nat (xs : list nat) : nat := fold_right Nat.max 0 xs.

Definition _calculate_file_complexity (content : str) : FileComplexity :=
  let functions := _extract_functions content in
  match functions with
  | [] =>
      {| average_complexity := 0; max_complexity := 0; total_functions := 0;
         complex_functions := None |}
  | _ =>
      let complexities :=
        map (fun func => cyclomatic_complexity (complexity func)) functions in
      {| total_functions := length functions;
         average_complexity :=
           Float.int_truediv (Z.of_nat (list_sum complexities))
                             (Z.of_nat (length complexities));
         max_complexity := list_max_nat complexities;
         complex_functions :=
           Some (length (filter (fun c => 10 <? c) complexities)) |}
  end.

End Patterns.

(** *** The brace depth of a text *)

Definition brace_step (depth : Z) (c : char) : Z :=
  if char_eqb c (ch "{") then (depth + 1)%Z
  else if char_eqb c (ch "}") then (depth - 1)%Z
  else depth.

(** The depth after [s], from the depth [depth]. *)
Definition depth_from (depth : Z) (s : str) : Z := fold_left brace_step s depth.

Definition brace_depth (s : str) : Z := depth_from 0%Z s.

Definition braces_balanced (s : str) : Prop := brace_depth s = 0%Z.

(** The running depth is never below zero. *)
Definition depth_never_negative (s : str) : Prop :=
  forall n, (0 <= brace_depth (firstn n s))%Z.

(** The scan of [_find_function_end] from [start_pos] reaches its
    [return pos + 1]. *)
Definition closing_brace_found (content : str) (start_pos : nat) : bool :=
  match find_end_scan (skipn start_pos content) start_pos 0%Z false with
  | Some _ => true
  | None => false
  end.

(** No closing brace stands before the first opening brace of [s]. *)
Fixpoint opens_first (s : str) : bool :=
  match s with
  | [] => true
  | c :: rest =>
      if char_eqb c (ch "{") then true
      else if char_eqb c (ch "}") then false
      else opens_first rest
  end.

(** A parenthesis stands right after the name of the macro of match [m]. *)
Definition paren_follows_name (content : str) (m : re_match) : bool :=
  match lookup_group 1 (m_groups m) with
  | Some (_, name_end) =>
      match nth_error content name_end with
      | Some c => char_eqb c (ch "(")
      | None => false
      end
  | None => false
  end.

(** *** [_detect_c_issues] *)

(** One entry of the list returned by [_detect_c_issues]; the key
    ["function"] is in the entries on dangerous functions only. *)
Record DetectedIssue := mk_detected {
  di_type : str;
  di_severity : str;
  di_function : option str;
  di_description : str;
  di_suggestion : str
}.

(** The items of the dictionary [dangerous_funcs] of [_detect_c_issues], in
    the order of insertion. *)
Definition detect_dangerous_funcs : list (str * str) :=
  [(u "strcpy", u "strncpy等の安全な関数を使用してください");
   (u "strcat", u "strncat等の安全な関数を使用してください");
   (u "sprintf", u "snprintf等の安全な関数を使用してください");
   (u "gets", u "fgets等の安全な関数を使用してください");
   (u "scanf", u "より安全な入力方法を検討してください")].

Definition dangerous_issue (func suggestion : str) : DetectedIssue :=
  {| di_type := u "security";
     di_severity := u "high";
     di_function := Some func;
     di_description := u "危険な関数 " ++ func ++ u " の使用を検出";
     di_suggestion := suggestion |}.

Definition leak_issue (malloc_count free_count : nat) : DetectedIssue :=
  {| di_type := u "memory_leak";
     di_severity := u "medium";
     di_function := None;
     di_description := u "malloc/calloc(" ++ str_of_nat malloc_count ++ u ")とfree(" ++
                       str_of_nat free_count ++ u ")の数が不一致";
     di_suggestion := u "全てのmalloc/callocに対応するfreeを確認してください" |}.

Definition null_check_hint : DetectedIssue :=
  {| di_type := u "null_pointer";
     di_severity := u "medium";
     di_function := None;
     di_description := u "malloc後のNULLチェックが不足している可能性";
     di_suggestion := u "malloc返り値のNULLチェックを追加してください" |}.

Definition _detect_c_issues (content : str) : list DetectedIssue :=
  let issues :=
    flat_map (fun '(func, suggestion) =>
                if str_in func content then [dangerous_issue func suggestion]
                else [])
             detect_dangerous_funcs in
  let malloc_count := str_count content (u "malloc") + str_count content (u "calloc") in
  let free_count := str_count content (u "free") in
  let issues :=
    if free_count <? malloc_count
    then issues ++ [leak_issue malloc_count free_count]
    else issues in
  if str_in (u "malloc") content &&
     (str_count content (u "if") <? str_count content (u "malloc"))
  then issues ++ [null_check_hint]
  else issues.

(** The ratings in their order. *)
Definition rating_rank (r : Rating) : nat :=
  match r with
  | low => 0
  | medium => 1
  | high => 2
  | very_high => 3
  end.

(** *** Occurrences of a text in a text *)

(** The number of positions of [s] at which [sub] occurs. *)
Fixpoint positions (sub s : str) : nat :=
  match s with
  | [] => 0
  | _ :: t => (if startswith sub s then 1 else 0) + positions sub t
  end.

(** [ps] are positions at which [sub] occurs in [s], from [lo] on and in
    increasing order, and no occurrence reaches into the next. *)
Fixpoint disjoint_from (sub s : str) (lo : nat) (ps : list nat) : bool :=
  match ps with
  | [] => true
  | p :: rest =>
      (lo <=? p) && startswith sub (skipn p s) &&
      disjoint_from sub s (p + length sub) rest
  end.

(** [n] is the largest number of occurrences of [sub] in [s] of which no
    two overlap. *)
Definition most_disjoint (sub s : str) (n : nat) : Prop :=
  (exists ps, disjoint_from sub s 0 ps = true /\ length ps = n) /\
  (forall ps, disjoint_from sub s 0 ps = true -> length ps <= n).

(** No two occurrences of [sub] in [s] overlap. *)
Definition no_overlap (sub s : str) : Prop :=
  forall p k,
    startswith sub (skipn p s) = true -> 1 <= k < length sub ->
    startswith sub (skipn (p + k) s) = false.

(** No end of [sub] is a start of it, so that no two occurrences of [sub]
    can overlap. *)
Definition borderless (sub : str) : bool :=
  forallb (fun k => negb (startswith (skipn k sub) sub)) (seq 1 (length sub - 1)).

(** The words among the decision tokens. *)
Definition decision_words : list str :=
  [u "if"; u "while"; u "for"; u "switch"; u "case"].

(** *** Sample texts *)

(** A function whose closing brace is missing. *)
Definition unterminated_function : str := u "int f() {".

(** A function with a nested block. *)
Definition closed_function : str :=
  u "int f(int a) { if (a) { return 1; } return 0; }".

(** An object-like macro with a parenthesised value. *)
Definition object_like_macro : str := u "#define FOO (1+2)".

(** Three ampersands: two occurrences of the operator, which overlap. *)
Definition overlapping_and : str := u "a&&&b".

End Parser.

(** ** [c_static_analyzer.py]: the memory pass *)

Module Analyzer.
Import Py.

(** One finding of the custom analysis; [line] and [code_snippet] are
    absent from the finding on the two counts. *)
Record Issue := mk_issue {
  tool : str;
  category : str;
  severity : str;
  line : option nat;
  message : str;
  suggestion : str;
  code_snippet : option str
}.

Definition has_alloc_call (line : str) : bool :=
  str_in (u "malloc(") line || str_in (u "calloc(") line.

(** The first loop of [_check_memory_patterns]: the numbers of the lines
    with an allocation call and of the lines with a call of [free]. *)
Fixpoint collect_lines (lines : list (nat * str)) (malloc_lines free_lines : list nat)
    : list nat * list nat :=
  match lines with
  | [] => (malloc_lines, free_lines)
  | (i, line) :: rest =>
      let malloc_lines :=
        if has_alloc_call line then malloc_lines ++ [i + 1] else malloc_lines in
      let free_lines :=
        if str_in (u "free(") line then free_lines ++ [i + 1] else free_lines in
      collect_lines rest malloc_lines free_lines
  end.

(** [lines[j]] for [j] in [range(i + 1, min(i + 5, len(lines)))] *)
Definition null_check_window (lines : list str) (i : nat) : list str :=
  firstn (Nat.min (i + 5) (length lines) - (i + 1)) (skipn (i + 1) lines).

Definition null_check_found (lines : list str) (i : nat) : bool :=
  existsb (fun l => str_in (u "NULL") l || str_in (u "null") l)
          (null_check_window lines i).

Definition count_mismatch_message (mallocs frees : nat) : str :=
  u "malloc/calloc(" ++ str_of_nat mallocs ++ u ")とfree(" ++
  str_of_nat frees ++ u ")の数が不一致".

Definition count_mismatch_issue (mallocs frees : nat) : Issue :=
  {| tool := u "custom";
     category := u "memory";
     severity := u "medium";
     line := None;
     message := count_mismatch_message mallocs frees;
     suggestion := u "メモリリークの可能性があります。全てのmallocに対応するfreeを確認してください";
     code_snippet := None |}.

Definition null_check_issue (i : nat) (line : str) : Issue :=
  {| tool := u "custom";
     category := u "memory";
     severity := u "medium";
     line := Some (i + 1);
     message := u "malloc/calloc後のNULLチェックがありません";
     suggestion := u "メモリ割り当て失敗時の処理を追加してください";
     code_snippet := Some (strip line) |}.

(** The second loop: one finding for every line that assigns the result of
    an allocation call and has no null check in the lines after it. *)
Definition null_check_issues (lines : list str) : list Issue :=
  flat_map
    (fun '(i, line) =>
       if has_alloc_call line && str_in [ch "="] line
       then if null_check_found lines i then [] else [null_check_issue i line]
       else [])
    (enumerate lines).

Definition _check_memory_patterns (content file_path : str) : list Issue :=
  let lines := split_on nl content in
  let '(malloc_lines, free_lines) := collect_lines (enumerate lines) [] [] in
  let issues :=
    if length free_lines <? length malloc_lines
    then [count_mismatch_issue (length malloc_lines) (length free_lines)]
    else [] in
  issues ++ null_check_issues lines.

(** *** [_check_security_patterns] *)

(** The items of the dictionary [dangerous_functions]: the function, its
    severity, message and suggestion. *)
Definition security_catalogue : list (str * (str * str * str)) :=
  [(u "strcpy", (u "high",
                 u "strcpy()の使用はバッファオーバーフローの原因となります",
                 u "strncpy()またはstrlcpy()を使用してください"));
   (u "strcat", (u "high",
                 u "strcat()の使用はバッファオーバーフローの原因となります",
                 u "strncat()またはstrlcat()を使用してください"));
   (u "sprintf", (u "high",
                  u "sprintf()の使用はバッファオーバーフローの原因となります",
                  u "snprintf()を使用してください"));
   (u "gets", (u "critical",
               u "gets()は非常に危険な関数です",
               u "fgets()を使用してください"))].

Definition security_issue (i : nat) (line : str) (info : str * str * str) : Issue :=
  let '(sev, msg, sug) := info in
  {| tool := u "custom";
     category := u "security";
     severity := sev;
     line := Some (i + 1);
     message := msg;
     suggestion := sug;
     code_snippet := Some (strip line) |}.

(** The inner loop, over the catalogue, at one line. *)
Definition security_line_issues (i : nat) (line : str) : list Issue :=
  flat_map (fun '(func, info) =>
              if str_in (func ++ [ch "("]) line then [security_issue i line info]
              else [])
           security_catalogue.

Definition _check_security_patterns (content file_path : str) : list Issue :=
  flat_map (fun '(i, line) => security_line_issues i line)
           (enumerate (split_on nl content)).

(** *** [_check_performance_patterns] *)

Definition loop_keywords : list str := [u "for("; u "while("; u "do{"].

(** The [if]/[elif] that updates [in_loop] and [loop_depth] at one line. *)
Definition update_loop_state (line_clean : str) (state : bool * Z) : bool * Z :=
  let '(in_loop, loop_depth) := state in
  if existsb (fun keyword => str_in keyword line_clean) loop_keywords then
    (true, (loop_depth + 1)%Z)
  else if str_in [ch "}"] line_clean && in_loop then
    let loop_depth := (loop_depth - 1)%Z in
    if (loop_depth =? 0)%Z then (false, loop_depth) else (in_loop, loop_depth)
  else (in_loop, loop_depth).

Definition performance_issue (i : nat) (line : str) : Issue :=
  {| tool := u "custom";
     category := u "performance";
     severity := u "medium";
     line := Some (i + 1);
     message := u "ループ内でメモリ割り当てを実行しています";
     suggestion := u "可能であればループ外でメモリを事前割り当てしてください";
     code_snippet := Some (strip line) |}.

Fixpoint performance_pass (lines : list (nat * str)) (state : bool * Z) : list Issue :=
  match lines with
  | [] => []
  | (i, line) :: rest =>
      let line_clean := strip line in
      let state := update_loop_state line_clean state in
      (if fst state && has_alloc_call line then [performance_issue i line] else []) ++
      performance_pass rest state
  end.

Definition _check_performance_patterns (content file_path : str) : list Issue :=
  performance_pass (enumerate (split_on nl content)) (false, 0%Z).

(** *** [_generate_summary] *)

(** The dictionaries of the list ["cppcheck_results"]: an issue read from
    the XML output, an issue read from the text output (its severity is
    ["unknown"]), or the one entry [{"error": ...}] of a failed run. *)
Inductive CppcheckEntry :=
| cppcheck_issue (id sev msg verbose : str) (locations : list (str * Z * Z))
| cppcheck_text_issue (msg : str)
| cppcheck_error (error : str).

(** The dictionaries of the list ["custom_analysis"]: a finding of a pass,
    or the entry with the severity ["error"] of a failed analysis, which has
    no key ["error"] and no category. *)
Inductive CustomEntry :=
| custom_issue (i : Issue)
| custom_failure (msg : str).

(** ["error" not in issue] *)
Definition cppcheck_counts (e : CppcheckEntry) : bool :=
  match e with
  | cppcheck_error _ => false
  | _ => true
  end.

(** [issue.get("severity", "unknown")] *)
Definition cppcheck_severity (e : CppcheckEntry) : str :=
  match e with
  | cppcheck_issue _ sev _ _ _ => sev
  | cppcheck_text_issue _ => u "unknown"
  | cppcheck_error _ => u "unknown"
  end.

Definition custom_severity (e : CustomEntry) : str :=
  match e with
  | custom_issue i => severity i
  | custom_failure _ => u "error"
  end.

(** [issue.get("category", "other")] *)
Definition custom_category (e : CustomEntry) : str :=
  match e with
  | custom_issue i => category i
  | custom_failure _ => u "other"
  end.

(** A dictionary from texts to counts, as the list of its items. *)
Definition Counts := list (str * nat).

Fixpoint counts_get (d : Counts) (key : str) : option nat :=
  match d with
  | [] => None
  | (k, v) :: rest =>
      if list_eq_dec N.eq_dec k key then Some v else counts_get rest key
  end.

(** [d[key] += 1] for a key of [d]. *)
Fixpoint counts_incr (d : Counts) (key : str) : Counts :=
  match d with
  | [] => []
  | (k, v) :: rest =>
      if list_eq_dec N.eq_dec k key then (k, v + 1) :: rest
      else (k, v) :: counts_incr rest key
  end.

(** [if severity in d: d[severity] += 1] *)
Definition count_severity (d : Counts) (sev : str) : Counts :=
  match counts_get d sev with
  | Some _ => counts_incr d sev
  | None => d
  end.

(** [if category not in d: d[category] = 0] and then [d[category] += 1] *)
Definition count_category (d : Counts) (cat : str) : Counts :=
  match counts_get d cat with
  | Some _ => counts_incr d cat
  | None => counts_incr (d ++ [(cat, 0)]) cat
  end.

Record AnalysisSummary := mk_analysis_summary {
  total_issues : nat;
  by_severity : Counts;
  by_category : Counts;
  tools_used : list str
}.

Definition summary_start : AnalysisSummary :=
  {| total_issues := 0;
     by_severity := [(u "critical", 0); (u "high", 0); (u "medium", 0); (u "low", 0)];
     by_category := [];
     tools_used := [] |}.

(** The body of the loop over the results of cppcheck. *)
Definition summary_cppcheck_step (acc : AnalysisSummary) (issue : CppcheckEntry)
    : AnalysisSummary :=
  if cppcheck_counts issue then
    {| total_issues := total_issues acc + 1;
       by_severity := count_severity (by_severity acc) (cppcheck_severity issue);
       by_category := by_category acc;
       tools_used := tools_used acc |}
  else acc.

(** The body of the loop over the findings of the custom analysis. *)
Definition summary_custom_step (acc : AnalysisSummary) (issue : CustomEntry)
    : AnalysisSummary :=
  {| total_issues := total_issues acc + 1;
     by_severity := count_severity (by_severity acc) (custom_severity issue);
     by_category := count_category (by_category acc) (custom_category issue);
     tools_used := tools_used acc |}.

Definition add_tool (acc : AnalysisSummary) (name : str) : AnalysisSummary :=
  {| total_issues := total_issues acc;
     by_severity := by_severity acc;
     by_category := by_category acc;
     tools_used := tools_used acc ++ [name] |}.

(** The two arguments are the lists [results["cppcheck_results"]] and
    [results["custom_analysis"]]; an empty list is skipped by the test
    [if results.get(...)]. *)
Definition _generate_summary (cppcheck_results : list CppcheckEntry)
    (custom_analysis : list CustomEntry) : AnalysisSummary :=
  let acc := summary_start in
  let acc :=
    match cppcheck_results with
    | [] => acc
    | _ => fold_left summary_cppcheck_step cppcheck_results (add_tool acc (u "cppcheck"))
    end in
  match custom_analysis with
  | [] => acc
  | _ => fold_left summary_custom_step custom_analysis (add_tool acc (u "custom"))
  end.

(** The sum of the counts of a dictionary. *)
Definition counts_total (d : Counts) : nat := list_sum (map snd d).

(** The numbers of allocation calls and of calls of [free] in a text. *)
Definition allocation_calls (content : str) : nat :=
  str_count content (u "malloc(") + str_count content (u "calloc(").

Definition free_calls (content : str) : nat := str_count content (u "free(").

(** Two allocation calls on the first line, one call of [free] on the
    second. *)
Definition two_calls_one_line : str :=
  u "p = malloc(4); q = malloc(4);" ++ [nl] ++ u "free(p);".

(** The findings on the two counts are those without a line. *)
Definition count_findings (issues : list Issue) : list Issue :=
  filter (fun i => match line i with None => true | Some _ => false end) issues.

End Analyzer.

(** ** [fnmatch.fnmatch] of the standard library, on a POSIX system

    [fnmatch.translate] turns a pattern into a regular expression that has
    to match the whole name.  The model cuts the pattern into the same
    parts, reads a bracket expression as [translate] rewrites it (the
    chunks between the hyphens of its ranges, without the empty ranges) and
    matches the parts against the whole name. *)

Module Fnmatch.
Import Py.

(** The parts of a pattern: [*], [?], a bracket expression with the text
    between its brackets, a character. *)
Inductive glob_item :=
| GStar
| GAny
| GSet (stuff : str)
| GChar (c : char).

(** The text up to the first closing bracket, and the text after it. *)
Fixpoint until_close (s : str) : option (str * str) :=
  match s with
  | [] => None
  | c :: t =>
      if char_eqb c (ch "]") then Some ([], t)
      else match until_close t with
           | Some (mid, rest) => Some (c :: mid, rest)
           | None => None
           end
  end.

(** For the text after an opening bracket: the text [stuff] up to the
    closing bracket and the text after it.  An exclamation mark first and a
    closing bracket right after the opening one (or after the mark) belong
    to [stuff]. *)
Definition bracket (s : str) : option (str * str) :=
  let '(mark, s1) :=
    match s with
    | c :: t => if char_eqb c (ch "!") then ([c], t) else ([], s)
    | [] => ([], s)
    end in
  let '(lead, s2) :=
    match s1 with
    | c :: t => if char_eqb c (ch "]") then ([c], t) else ([], s1)
    | [] => ([], s1)
    end in
  match until_close s2 with
  | Some (mid, rest) => Some (mark ++ lead ++ mid, rest)
  | None => None
  end.

(** [stuff.find('-', k)], the text [s] starting at position [pos]. *)
Fixpoint find_hyphen (s : str) (k pos : nat) : option nat :=
  match s with
  | [] => None
  | c :: t =>
      if (k <=? pos) && char_eqb c (ch "-") then Some pos
      else find_hyphen t k (S pos)
  end.

(** The loop that cuts [stuff] at the hyphens of its ranges; after a
    hyphen the next one is looked for three positions further.  A hyphen
    at the very end is added to the last chunk. *)
Fixpoint range_chunks (fuel : nat) (stuff : str) (start k : nat) : list str :=
  match fuel with
  | O => []
  | S fuel' =>
      match find_hyphen stuff k 0 with
      | Some h =>
          if S h =? length stuff
          then [slice stuff start h ++ [ch "-"]]
          else slice stuff start h :: range_chunks fuel' stuff (S h) (h + 3)
      | None => [skipn start stuff]
      end
  end.

Fixpoint last_char (s : str) : option char :=
  match s with
  | [] => None
  | [c] => Some c
  | _ :: t => last_char t
  end.

(** One step of the removal of the empty ranges, from the right: a chunk
    whose last character is above the first character of the next chunk
    loses it and takes the rest of the next chunk. *)
Definition merge_chunk (chunk : str) (done : list str) : list str :=
  match done with
  | [] => [chunk]
  | next :: done' =>
      match last_char chunk, next with
      | Some lo, hi :: next' =>
          if (hi <? lo)%N then (removelast chunk ++ next') :: done'
          else chunk :: done
      | _, _ => chunk :: done
      end
  end.

Definition set_chunks (stuff : str) : list str :=
  let k := match stuff with
           | c :: _ => if char_eqb c (ch "!") then 2 else 1
           | [] => 1
           end in
  fold_right merge_chunk [] (range_chunks (S (length stuff)) stuff 0 k).

(** A character against the chunks joined by hyphens: every character of
    a chunk stands for itself, the hyphen between two chunks makes a range
    of the last character of one and the first character of the next, and
    a hyphen that comes first stands for itself. *)
Fixpoint chunks_have (chunks : list str) (c : char) : bool :=
  match chunks with
  | [] => false
  | chunk :: rest =>
      existsb (char_eqb c) chunk ||
      match rest with
      | [] => false
      | next :: _ =>
          match last_char chunk, next with
          | Some lo, hi :: _ => ((lo <=? c) && (c <=? hi))%N
          | None, _ => char_eqb c (ch "-")
          | _, [] => false
          end || chunks_have rest c
      end
  end.

(** A character against a bracket expression: no character for the empty
    text, every character for the lone exclamation mark, the characters
    outside the set when the text starts with an exclamation mark. *)
Definition set_matches (stuff : str) (c : char) : bool :=
  match set_chunks stuff with
  | [[]] => false
  | (x :: chunk) :: rest =>
      if char_eqb x (ch "!") then
        match chunk, rest with
        | [], [] => true
        | _, _ => negb (chunks_have (chunk :: rest) c)
        end
      else chunks_have ((x :: chunk) :: rest) c
  | chunks => chunks_have chunks c
  end.

Fixpoint parse_glob (fuel : nat) (pat : str) : list glob_item :=
  match fuel with
  | O => []
  | S fuel' =>
      match pat with
      | [] => []
      | c :: rest =>
          if char_eqb c asterisk then GStar :: parse_glob fuel' rest
          else if char_eqb c (ch "?") then GAny :: parse_glob fuel' rest
          else if char_eqb c (ch "[") then
            match bracket rest with
            | Some (stuff, after) => GSet stuff :: parse_glob fuel' after
            | None => GChar c :: parse_glob fuel' rest
            end
          else GChar c :: parse_glob fuel' rest
      end
  end.

(** The whole of [name] against the parts of a pattern. *)
Fixpoint glob_match (items : list glob_item) (name : str) : bool :=
  match items with
  | [] => match name with [] => true | _ => false end
  | GStar :: rest =>
      (fix any_run (name : str) : bool :=
         glob_match rest name ||
         match name with
         | [] => false
         | _ :: t => any_run t
         end) name
  | GAny :: rest =>
      match name with
      | _ :: t => glob_match rest t
      | [] => false
      end
  | GSet stuff :: rest =>
      match name with
      | c :: t => set_matches stuff c && glob_match rest t
      | [] => false
      end
  | GChar x :: rest =>
      match name with
      | c :: t => char_eqb x c && glob_match rest t
      | [] => false
      end
  end.

(** [fnmatch.fnmatchcase] *)
Definition fnmatchcase (name pat : str) : bool :=
  glob_match (parse_glob (length pat) pat) name.

(** [os.path.normcase] of [posixpath] returns its argument. *)
Definition normcase (s : str) : str := s.

Definition fnmatch (name pat : str) : bool :=
  fnmatchcase (normcase name) (normcase pat).


End Fnmatch.

(** ** [review_rule_engine.py] *)

Module RuleEngine.
Import Py Fnmatch.

(** One rule of the review standards.  The source reads ["description"] and
    ["priority"] by subscript, ["category"] and ["applicable_files"] with
    [get] and a default. *)
Record Rule := mk_rule {
  description : str;
  priority : str;
  rule_category : option str;
  applicable_files : option (list str)
}.

(** The review standards, a dictionary from a category to its rules, as the
    list of its items in the order of iteration. *)
Definition Standards := list (str * list Rule).

(** The dictionary that a check returns, with the key ["category"] that
    [_evaluate_file] adds. *)
Record Violation := mk_violation {
  rule_description : str;
  violation_type : str;
  severity : str;
  message : str;
  suggestion : str;
  line_number : option nat;
  detected_pattern : str;
  category : option str
}.

Record AppliedRule := mk_applied {
  ar_category : str;
  ar_description : str;
  ar_priority : str
}.

Record Summary := mk_summary {
  total_rules : nat;
  violations_found : nat;
  compliance_score : Q
}.

Record EvaluationResult := mk_result {
  file_path : str;
  applied_rules : list AppliedRule;
  violations : list Violation;
  summary : Summary
}.

(** *** Applicable rules *)

Definition _file_matches_patterns (file_path : str) (patterns : list str) : bool :=
  match for_first (fun pattern => if fnmatch file_path pattern then Some true else None)
                  patterns with
  | Some b => b
  | None => false
  end.

(** [rule.get("applicable_files", ["*"])] *)
Definition rule_patterns (rule : Rule) : list str :=
  match applicable_files rule with
  | Some patterns => patterns
  | None => [[asterisk]]
  end.

Definition rule_applies (file_path : str) (rule : Rule) : bool :=
  _file_matches_patterns file_path (rule_patterns rule).

(** The keys of a dictionary are distinct, so that the assignment
    [applicable_rules[category] = ...] of the source adds an item. *)
Fixpoint _get_applicable_rules (standards : Standards) (file_path : str) : Standards :=
  match standards with
  | [] => []
  | (category, rules) :: rest =>
      let applicable_category_rules := filter (rule_applies file_path) rules in
      match applicable_category_rules with
      | [] => _get_applicable_rules rest file_path
      | _ => (category, applicable_category_rules)
               :: _get_applicable_rules rest file_path
      end
  end.

(** [d.get(key, [])] *)
Fixpoint dict_get (d : Standards) (key : str) : list Rule :=
  match d with
  | [] => []
  | (k, v) :: rest =>
      if list_eq_dec N.eq_dec k key then v else dict_get rest key
  end.

(** *** The checks of the seven families *)

Definition dangerous_functions : list str :=
  [u "strcpy"; u "strcat"; u "sprintf"; u "gets"].

Definition _check_buffer_overflow (code description : str) : option Violation :=
  for_first
    (fun func =>
       if str_in (func ++ [ch "("]) code then
         Some {| rule_description := description;
                 violation_type := u "buffer_overflow";
                 severity := u "high";
                 message := u "危険な関数 " ++ func ++ u " の使用を検出しました";
                 suggestion := func ++ u " の代わりに安全な関数を使用してください";
                 line_number := None;
                 detected_pattern := func;
                 category := None |}
       else None)
    dangerous_functions.

Definition _check_memory_leak (code description : str) : option Violation :=
  let malloc_count := str_count code (u "malloc") + str_count code (u "calloc") in
  let free_count := str_count code (u "free") in
  if free_count <? malloc_count then
    Some {| rule_description := description;
            violation_type := u "memory_leak";
            severity := u "medium";
            message := u "malloc/calloc(" ++ str_of_nat malloc_count ++ u ")とfree(" ++
                       str_of_nat free_count ++ u ")の数が不一致";
            suggestion := u "全てのmalloc/callocに対応するfreeを確認してください";
            line_number := None;
            detected_pattern := u "malloc:" ++ str_of_nat malloc_count ++ u ", free:" ++
                                str_of_nat free_count;
            category := None |}
  else None.

(** The condition under which the loop of [_check_null_pointer] returns at
    line [i]: the line assigns the result of an allocation call and none of
    the following lines [i + 1 .. min(i + 5, len(lines)) - 1] names [NULL]
    or [null]. *)
Definition unchecked_allocation (lines : list str) (i : nat) (line : str) : bool :=
  (str_in (u "malloc(") line || str_in (u "calloc(") line) && str_in [ch "="] line &&
  negb (existsb (fun l => str_in (u "NULL") l || str_in (u "null") l)
          (firstn (Nat.min (i + 5) (length lines) - (i + 1)) (skipn (i + 1) lines))).

Definition _check_null_pointer (code description : str) : option Violation :=
  let lines := split_on nl code in
  for_first
    (fun '(i, line) =>
       if unchecked_allocation lines i line then
         Some {| rule_description := description;
                 violation_type := u "null_pointer";
                 severity := u "medium";
                 message := u "malloc/calloc後のNULLチェックがありません";
                 suggestion := u "メモリ割り当て失敗時の処理を追加してください";
                 line_number := Some (i + 1);
                 detected_pattern := strip line;
                 category := None |}
       else None)
    (enumerate lines).

(** The items of the dictionary [dangerous_funcs], in the order of insertion. *)
Definition dangerous_funcs : list (str * str) :=
  [(u "strcpy", u "strncpy"); (u "strcat", u "strncat");
   (u "sprintf", u "snprintf"); (u "gets", u "fgets")].

Definition _check_dangerous_functions (code description : str) : option Violation :=
  for_first
    (fun '(dangerous, safe) =>
       if str_in (dangerous ++ [ch "("]) code then
         Some {| rule_description := description;
                 violation_type := u "dangerous_function";
                 severity := u "high";
                 message := u "危険な関数 " ++ dangerous ++ u " の使用を検出";
                 suggestion := safe ++ u " を使用してください";
                 line_number := None;
                 detected_pattern := dangerous;
                 category := None |}
       else None)
    dangerous_funcs.

Definition _check_error_handling (code description : str) : option Violation :=
  if negb (str_in (u "return") code) && negb (str_in (u "void") code) then
    Some {| rule_description := description;
            violation_type := u "error_handling";
            severity := u "medium";
            message := u "適切なエラーハンドリングが不足している可能性";
            suggestion := u "戻り値やエラーコードでエラー状態を通知してください";
            line_number := None;
            detected_pattern := u "missing_return_value";
            category := None |}
  else None.

(** The [if]/[elif] that updates the flag [in_loop] at one line. *)
Definition update_in_loop (in_loop : bool) (line : str) : bool :=
  if existsb (fun keyword => str_in keyword line) [u "for("; u "while("; u "do{"]
  then true
  else if str_in [ch "}"] line then false
  else in_loop.

(** The loop of [_check_performance], with its flag [in_loop]. *)
Fixpoint performance_scan (lines : list (nat * str)) (in_loop : bool)
    (description : str) : option Violation :=
  match lines with
  | [] => None
  | (i, line) :: rest =>
      let in_loop := update_in_loop in_loop line in
      if in_loop && (str_in (u "malloc(") line || str_in (u "calloc(") line) then
        Some {| rule_description := description;
                violation_type := u "performance";
                severity := u "medium";
                message := u "ループ内でメモリ割り当てを実行";
                suggestion := u "可能であればループ外でメモリを事前割り当てしてください";
                line_number := Some (i + 1);
                detected_pattern := strip line;
                category := None |}
      else performance_scan rest in_loop description
  end.

Definition _check_performance (code description : str) : option Violation :=
  performance_scan (enumerate (split_on nl code)) false description.

Definition _check_comments (code description : str) : option Violation :=
  let comment_count := str_count code (u "//") + str_count code (u "/*") in
  let line_count := length (split_on nl code) in
  if (20 <? line_count) && (comment_count =? 0) then
    Some {| rule_description := description;
            violation_type := u "documentation";
            severity := u "low";
            message := u "コメントが不足しています";
            suggestion := u "重要な処理にはコメントを追加してください";
            line_number := None;
            detected_pattern := u "lines:" ++ str_of_nat line_count ++
                                u ", comments:" ++ str_of_nat comment_count;
            category := None |}
  else None.

(** The condition under which the loop of [_check_performance] returns at
    line [i]: the flag [in_loop] is set after the lines up to [i] and the
    line has an allocation call. *)
Definition allocation_in_loop (lines : list str) (i : nat) (line : str) : bool :=
  fold_left update_in_loop (firstn (S i) lines) false &&
  (str_in (u "malloc(") line || str_in (u "calloc(") line).

Section Lower.

(** [str.lower], a function of the Unicode database. *)
Variable lower : str -> str.

(** *** The generic check *)

Definition _check_generic_rule (rule : Rule) (code description : str)
    : option Violation :=
  let keywords := split_ws description in
  for_first
    (fun keyword =>
       if (3 <? length keyword) && str_in (lower keyword) (lower code) then
         Some {| rule_description := description;
                 violation_type := u "generic";
                 severity := priority rule;
                 message := u "ルール '" ++ description ++
                            u "' に関連する可能性のあるパターンを検出";
                 suggestion := u "詳細な確認を行ってください";
                 line_number := None;
                 detected_pattern := keyword;
                 category := None |}
       else None)
    keywords.

(** *** [_evaluate_rule] *)

Definition _evaluate_rule (rule : Rule) (code_content file_path : str)
    : option Violation :=
  let description := description rule in
  if str_in (u "バッファオーバーフロー") description ||
     str_in (u "buffer overflow") (lower description)
  then _check_buffer_overflow code_content description
  else if str_in (u "メモリリーク") description ||
          str_in (u "memory leak") (lower description)
  then _check_memory_leak code_content description
  else if str_in (u "null") (lower description) ||
          str_in (u "ヌル") description
  then _check_null_pointer code_content description
  else if str_in (u "危険な関数") description ||
          str_in (u "dangerous function") (lower description)
  then _check_dangerous_functions code_content description
  else if str_in (u "エラーハンドリング") description ||
          str_in (u "error handling") (lower description)
  then _check_error_handling code_content description
  else if str_in (u "パフォーマンス") description ||
          str_in (u "performance") (lower description)
  then _check_performance code_content description
  else if str_in (u "コメント") description ||
          str_in (u "comment") (lower description)
  then _check_comments code_content description
  else _check_generic_rule rule code_content description.

(** *** [_evaluate_file] *)

(** What the two loops of [_evaluate_file] update: the counters
    [total_rules] and [violations] and the two lists of the result. *)
Record EvalState := mk_state {
  st_total_rules : nat;
  st_violations : nat;
  st_applied_rules : list AppliedRule;
  st_violation_list : list Violation
}.

Definition set_category (category : str) (v : Violation) : Violation :=
  {| rule_description := rule_description v;
     violation_type := violation_type v;
     severity := severity v;
     message := message v;
     suggestion := suggestion v;
     line_number := line_number v;
     detected_pattern := detected_pattern v;
     category := Some category |}.

(** The body of the inner loop. *)
Definition eval_rule_step (code_content file_path category : str)
    (st : EvalState) (rule : Rule) : EvalState :=
  let total_rules := st_total_rules st + 1 in
  let applied :=
    st_applied_rules st ++
    [{| ar_category := category;
        ar_description := description rule;
        ar_priority := priority rule |}] in
  match _evaluate_rule rule code_content file_path with
  | Some violation =>
      {| st_total_rules := total_rules;
         st_violations := st_violations st + 1;
         st_applied_rules := applied;
         st_violation_list :=
           st_violation_list st ++ [set_category category violation] |}
  | None =>
      {| st_total_rules := total_rules;
         st_violations := st_violations st;
         st_applied_rules := applied;
         st_violation_list := st_violation_list st |}
  end.

(** The body of the outer loop. *)
Definition eval_category_step (code_content file_path : str)
    (st : EvalState) (item : str * list Rule) : EvalState :=
  let '(category, rules) := item in
  fold_left (eval_rule_step code_content file_path category) rules st.

(** The rules that the loops go through: the applicable rules, or those
    of one category when [rules_category] is given and not empty. *)
Definition rules_to_evaluate (standards : Standards) (file_path : str)
    (rules_category : option str) : Standards :=
  let applicable_rules := _get_applicable_rules standards file_path in
  match rules_category with
  | None | Some [] => applicable_rules
  | Some c => [(c, dict_get applicable_rules c)]
  end.

Definition _evaluate_file (standards : Standards)
    (file_path code_content : str) (rules_category : option str)
    : EvaluationResult :=
  let applicable_rules := rules_to_evaluate standards file_path rules_category in
  let st :=
    fold_left (eval_category_step code_content file_path) applicable_rules
              (mk_state 0 0 [] []) in
  let total_rules := st_total_rules st in
  let violations := st_violations st in
  {| file_path := file_path;
     applied_rules := st_applied_rules st;
     violations := st_violation_list st;
     summary :=
       {| total_rules := total_rules;
          violations_found := violations;
          compliance_score :=
            if 0 <? total_rules
            then Float.float_mul
                   (Float.int_truediv (Z.of_nat total_rules - Z.of_nat violations)
                                      (Z.of_nat total_rules))
                   100
            else 100%Q |} |}.

(** *** The classification, in the words of the specification *)

Inductive Family :=
| fam_buffer_overflow
| fam_memory_leak
| fam_null_pointer
| fam_dangerous_function
| fam_error_handling
| fam_performance
| fam_documentation.

(** The fixed order of priority. *)
Definition family_order : list Family :=
  [fam_buffer_overflow; fam_memory_leak; fam_null_pointer;
   fam_dangerous_function; fam_error_handling; fam_performance;
   fam_documentation].

(** The keyword written in Japanese and the one written in English. *)
Definition family_keywords (f : Family) : list str :=
  match f with
  | fam_buffer_overflow => [u "バッファオーバーフロー"; u "buffer overflow"]
  | fam_memory_leak => [u "メモリリーク"; u "memory leak"]
  | fam_null_pointer => [u "ヌル"; u "null"]
  | fam_dangerous_function => [u "危険な関数"; u "dangerous function"]
  | fam_error_handling => [u "エラーハンドリング"; u "error handling"]
  | fam_performance => [u "パフォーマンス"; u "performance"]
  | fam_documentation => [u "コメント"; u "comment"]
  end.

Definition japanese_keywords : list str :=
  [u "バッファオーバーフロー"; u "メモリリーク"; u "ヌル"; u "危険な関数";
   u "エラーハンドリング"; u "パフォーマンス"; u "コメント"].

Definition all_keywords : list str := flat_map family_keywords family_order.

(** Membership of a keyword in a description, whatever the case. *)
Definition occurs_ignoring_case (keyword description : str) : bool :=
  str_in (lower keyword) (lower description).

Definition family_matches (description : str) (f : Family) : bool :=
  existsb (fun keyword => occurs_ignoring_case keyword description)
          (family_keywords f).

(** The first family, in the order of priority, with a keyword in the
    description. *)
Definition select_family (description : str) : option Family :=
  find (family_matches description) family_order.

Definition family_check (f : Family) : str -> str -> option Violation :=
  match f with
  | fam_buffer_overflow => _check_buffer_overflow
  | fam_memory_leak => _check_memory_leak
  | fam_null_pointer => _check_null_pointer
  | fam_dangerous_function => _check_dangerous_functions
  | fam_error_handling => _check_error_handling
  | fam_performance => _check_performance
  | fam_documentation => _check_comments
  end.

(** *** The rules of a file and their violations *)

(** The rules counted for a file: the applicable rules of all categories,
    or of one category when one is asked for. *)
Definition counted_rules (standards : Standards) (file_path : str)
    (rules_category : option str) : list Rule :=
  match rules_category with
  | None | Some [] =>
      filter (rule_applies file_path) (concat (map snd standards))
  | Some c => dict_get (_get_applicable_rules standards file_path) c
  end.

Definition rule_violated (code_content file_path : str) (rule : Rule) : bool :=
  match _evaluate_rule rule code_content file_path with
  | Some _ => true
  | None => false
  end.

Definition applied_entry (category : str) (rule : Rule) : AppliedRule :=
  {| ar_category := category;
     ar_description := description rule;
     ar_priority := priority rule |}.

(** What one rule adds to the list of violations. *)
Definition rule_violations (code_content file_path category : str)
    (rule : Rule) : list Violation :=
  match _evaluate_rule rule code_content file_path with
  | Some violation => [set_category category violation]
  | None => []
  end.

(** The entries and the violations that the items of a dictionary of rules
    give rise to. *)
Definition item_entries (item : str * list Rule) : list AppliedRule :=
  map (applied_entry (fst item)) (snd item).

Definition item_violations (code_content file_path : str)
    (item : str * list Rule) : list Violation :=
  flat_map (rule_violations code_content file_path (fst item)) (snd item).

(** The score as the specification defines it, from the two counts. *)
Definition score_of_counts (applicable_rule_count violated_rule_count : nat) : Q :=
  if applicable_rule_count =? 0 then 100%Q
  else (inject_Z (Z.of_nat applicable_rule_count - Z.of_nat violated_rule_count) /
        inject_Z (Z.of_nat applicable_rule_count) * 100)%Q.

End Lower.

(** The restriction of [str.lower] to the letters of ASCII; every other
    code point is left as it is. *)
Definition ascii_lower_char (c : char) : char :=
  if ((65 <=? c) && (c <=? 90))%N then (c + 32)%N else c.

Definition ascii_lower (s : str) : str := map ascii_lower_char s.

(** *** Sample rules *)

Definition c_source_rule : Rule :=
  mk_rule (u "input validation") (u "high") None (Some [u "*.c"]).

Definition mixed_case_rule : Rule :=
  mk_rule (u "Avoid Memory Leaks, check NULL") (u "high") None None.

(** Three rules for every file, and a text that violates the first two: a
    call of [gets] and an allocation that is never freed. *)
Definition three_rules : Standards :=
  [(u "security",
    [mk_rule (u "avoid buffer overflow") (u "high") None None;
     mk_rule (u "no memory leak") (u "high") None None;
     mk_rule (u "write comments") (u "low") None None])].

Definition leaking_call : str := u "p = malloc(4); gets(s);".

(** The letters of ASCII. *)
Definition ascii_letter (c : char) : bool :=
  ((65 <=? c) && (c <=? 90) || (97 <=? c) && (c <=? 122))%N.

(** The type and the severity of the violation of each check, and of the
    generic check the severity of the rule. *)
Definition violation_table (rule : Rule) : list (str * str) :=
  [(u "buffer_overflow", u "high"); (u "memory_leak", u "medium");
   (u "null_pointer", u "medium"); (u "dangerous_function", u "high");
   (u "error_handling", u "medium"); (u "performance", u "medium");
   (u "documentation", u "low"); (u "generic", priority rule)].

End RuleEngine.


(** ** [config_manager.py]: the rules of a file *)

Module Config.
Import Py Fnmatch RuleEngine.

(** The loop over the patterns of a rule, left at the first match. *)
Definition matches_some_pattern (file_path : str) (patterns : list str) : bool :=
  match for_first (fun pattern => if fnmatch file_path pattern then Some tt else None)
                  patterns with
  | Some _ => true
  | None => false
  end.

(** The body of [get_rules_for_file], on the standards that
    [get_review_standards] returns: what a call computes that is not
    answered from the cache of [lru_cache]. *)
Definition get_rules_for_file (standards : Standards) (file_path : str) : list Rule :=
  flat_map (fun '(category, rules) =>
              flat_map (fun rule =>
                          if matches_some_pattern file_path (rule_patterns rule)
                          then [rule] else [])
                       rules)
           standards.

End Config.

(** ** What a pattern of [re] matches *)

Module ReSpec.
Import Py Re.

(** [Matches r w rest]: the pattern [r] matches the text [w] when [rest]
    is the text after it. *)
Inductive Matches : regex -> str -> str -> Prop :=
| M_Eps : forall rest, Matches Eps [] rest
| M_Class : forall p c rest, p c = true -> Matches (Class p) [c] rest
| M_Cat : forall r1 r2 w1 w2 rest,
    Matches r1 w1 (w2 ++ rest) -> Matches r2 w2 rest ->
    Matches (Cat r1 r2) (w1 ++ w2) rest
| M_Or_l : forall r1 r2 w rest, Matches r1 w rest -> Matches (Or r1 r2) w rest
| M_Or_r : forall r1 r2 w rest, Matches r2 w rest -> Matches (Or r1 r2) w rest
| M_Star_nil : forall r rest, Matches (Star r) [] rest
| M_Star_more : forall r w1 w2 rest,
    Matches r w1 (w2 ++ rest) -> Matches (Star r) w2 rest ->
    Matches (Star r) (w1 ++ w2) rest
| M_Group : forall n r w rest, Matches r w rest -> Matches (Group n r) w rest
| M_Eol_end : Matches EndOfLine [] []
| M_Eol_newline : forall rest, Matches EndOfLine [] (nl :: rest).

(** A pattern without groups. *)
Fixpoint groupless (r : regex) : bool :=
  match r with
  | Eps | Class _ | EndOfLine => true
  | Cat r1 r2 | Or r1 r2 => groupless r1 && groupless r2
  | Star r1 => groupless r1
  | Group _ _ => false
  end.

End ReSpec.

(** * Properties *)

(** ** Python text and loops *)

Module PyFacts.
Import Py.

Lemma for_first_some : forall (A B : Type) (body : A -> option B) xs v,
  for_first body xs = Some v ->
  exists before x after,
    xs = before ++ x :: after /\ body x = Some v /\
    Forall (fun y => body y = None) before.
Proof.
  intros A B body xs v. induction xs as [|x xs IH]; simpl; intros H.
  - discriminate.
  - destruct (body x) as [w|] eqn:E.
    + injection H as ->. exists [], x, xs. repeat split; auto.
    + destruct (IH H) as (before & y & after & -> & Hy & Hall).
      exists (x :: before), y, after. repeat split; auto.
Qed.

Lemma for_first_enumerate : forall (A B : Type) (body : nat * A -> option B) xs k v,
  for_first body (enumerate_from k xs) = Some v ->
  exists i x,
    nth_error xs i = Some x /\ body (k + i, x) = Some v /\
    forall j y, j < i -> nth_error xs j = Some y -> body (k + j, y) = None.
Proof.
  intros A B body xs. induction xs as [|x xs IH]; simpl; intros k v H.
  - discriminate.
  - destruct (body (k, x)) as [w|] eqn:E.
    + injection H as ->. exists 0, x. rewrite Nat.add_0_r.
      repeat split; auto. intros j y Hj. lia.
    + destruct (IH _ _ H) as (i & y & Hnth & Hy & Hbefore).
      exists (S i), y. rewrite Nat.add_succ_r. repeat split; auto.
      intros [|j] z Hj Hz; simpl in Hz.
      * injection Hz as <-. rewrite Nat.add_0_r. exact E.
      * rewrite Nat.add_succ_r. apply Hbefore; auto. lia.
Qed.

(** The count of a one-character text is the number of its occurrences. *)
Lemma str_count_char : forall c s,
  str_count s [c] = length (filter (char_eqb c) s).
Proof.
  intros c s. unfold str_count. induction s as [|x s IH]; simpl; auto.
  rewrite andb_true_r. destruct (char_eqb c x); simpl; rewrite IH; reflexivity.
Qed.

Lemma filter_firstn_le : forall (A : Type) (f : A -> bool) (l : list A) a b,
  a <= b -> length (filter f (firstn a l)) <= length (filter f (firstn b l)).
Proof.
  intros A f l a b Hab.
  replace (firstn a l) with (firstn a (firstn b l))
    by (rewrite firstn_firstn; f_equal; lia).
  rewrite <- (firstn_skipn a (firstn b l)) at 2.
  rewrite filter_app, length_app. lia.
Qed.

Lemma startswith_app : forall sub after, startswith sub (sub ++ after) = true.
Proof.
  induction sub as [|a sub IH]; intros after; simpl; auto.
  unfold char_eqb. rewrite N.eqb_refl. simpl. apply IH.
Qed.

Lemma str_in_unfold : forall needle hay,
  str_in needle hay =
  startswith needle hay ||
  match hay with
  | [] => false
  | _ :: t => str_in needle t
  end.
Proof. intros needle hay. destruct hay; reflexivity. Qed.

Lemma str_in_app : forall before sub after,
  str_in sub (before ++ sub ++ after) = true.
Proof.
  induction before as [|b before IH]; intros sub after.
  - cbn [app]. rewrite str_in_unfold, startswith_app. reflexivity.
  - cbn [app]. rewrite str_in_unfold, IH. apply orb_true_r.
Qed.

(** A text that occurs is counted. *)
Lemma str_in_counted : forall sub s,
  sub <> [] -> str_in sub s = true -> 1 <= str_count s sub.
Proof.
  intros sub s Hsub. unfold str_count.
  destruct sub as [|a sub]; [congruence|]. clear Hsub.
  induction s as [|x s IH]; intros H.
  - simpl in H. discriminate.
  - cbn [str_in] in H. cbn [count_scan].
    destruct (startswith (a :: sub) (x :: s)); [lia|].
    simpl in H. auto.
Qed.

(** The values of Python on some texts. *)
Example str_count_examples :
  str_count (u "a&&&&b") (u "&&") = 2 /\
  str_count (u "&&&") (u "&&") = 1 /\
  str_count (u "if (x) { ifdef(); }") (u "if") = 2 /\
  str_count (u "abc") [] = 4.
Proof. vm_compute. auto. Qed.

Example split_examples :
  split_on nl (u "a" ++ [nl] ++ u "b" ++ [nl]) = [u "a"; u "b"; []] /\
  split_on nl [] = [[]] /\
  split_ws (u "  check  NULL pointers ") = [u "check"; u "NULL"; u "pointers"] /\
  strip (u "  int  x ") = u "int  x".
Proof. vm_compute. auto. Qed.

Example str_of_nat_examples :
  str_of_nat 0 = u "0" /\ str_of_nat 7 = u "7" /\ str_of_nat 120 = u "120".
Proof. vm_compute. auto. Qed.

Example code_points :
  u "NULLチェック" = [78; 85; 76; 76; 12481; 12455; 12483; 12463]%N.
Proof. vm_compute. reflexivity. Qed.

End PyFacts.

(** ** Texts: occurrences, counts and lines *)

Module StringFacts.
Import Py.

Lemma startswith_iff : forall p s,
  startswith p s = true <-> exists t, s = p ++ t.
Proof.
  induction p as [|a p IH]; intros s.
  - split; [intros _; exists s; reflexivity | reflexivity].
  - destruct s as [|b s]; simpl.
    + split; [discriminate | intros (t & H); discriminate H].
    + rewrite andb_true_iff, IH. unfold char_eqb. rewrite N.eqb_eq. split.
      * intros (-> & t & ->). exists t. reflexivity.
      * intros (t & H). injection H as -> ->. split; [reflexivity | eauto].
Qed.

Lemma str_in_iff : forall sub s,
  str_in sub s = true <-> exists before after, s = before ++ sub ++ after.
Proof.
  intros sub s. induction s as [|c s IH].
  - rewrite PyFacts.str_in_unfold, orb_false_r, startswith_iff. split.
    + intros (t & H). exists [], t. exact H.
    + intros (before & after & H). destruct before; [|discriminate H].
      exists after. exact H.
  - rewrite PyFacts.str_in_unfold, orb_true_iff, startswith_iff, IH. split.
    + intros [(t & H) | (before & after & H)].
      * exists [], t. exact H.
      * exists (c :: before), after. rewrite H. reflexivity.
    + intros (before & after & H). destruct before as [|b before].
      * left. exists after. exact H.
      * right. injection H as _ H. exists before, after. exact H.
Qed.

Lemma str_in_prefix : forall a b s,
  str_in (a ++ b) s = true -> str_in a s = true.
Proof.
  intros a b s H. apply str_in_iff in H. destruct H as (before & after & ->).
  apply str_in_iff. exists before, (b ++ after). rewrite <- app_assoc. reflexivity.
Qed.

Lemma str_in_rev : forall sub s, str_in (rev sub) (rev s) = str_in sub s.
Proof.
  assert (H : forall sub s, str_in sub s = true -> str_in (rev sub) (rev s) = true).
  { intros sub s H. apply str_in_iff in H. destruct H as (before & after & ->).
    apply str_in_iff. exists (rev after), (rev before).
    rewrite !rev_app_distr, <- app_assoc. reflexivity. }
  intros sub s.
  destruct (str_in sub s) eqn:E1.
  - apply H. exact E1.
  - destruct (str_in (rev sub) (rev s)) eqn:E2; [|reflexivity].
    apply H in E2. rewrite !rev_involutive in E2. congruence.
Qed.

(** White space at the ends of a text takes no part in an occurrence of a
    text without white space. *)
Lemma str_in_lstrip : forall c sub s,
  isspace c = false ->
  str_in (c :: sub) (lstrip s) = str_in (c :: sub) s.
Proof.
  intros c sub s Hc. induction s as [|d s IH]; [reflexivity|].
  cbn [lstrip]. destruct (isspace d) eqn:Ed; [|reflexivity].
  rewrite IH. rewrite (PyFacts.str_in_unfold (c :: sub) (d :: s)).
  cbn [startswith]. unfold char_eqb.
  destruct (N.eqb_spec c d) as [->|]; [congruence | reflexivity].
Qed.

Lemma str_in_strip : forall sub s,
  sub <> [] -> forallb (fun c => negb (isspace c)) sub = true ->
  str_in sub (strip s) = str_in sub s.
Proof.
  intros sub s Hne Hsub. unfold strip, rstrip.
  rewrite <- (rev_involutive sub) at 1. rewrite str_in_rev.
  assert (Hrev : forallb (fun c => negb (isspace c)) (rev sub) = true).
  { rewrite forallb_forall in *. intros x Hx. apply Hsub, in_rev, Hx. }
  destruct (rev sub) as [|c r] eqn:Er.
  { apply (f_equal (@rev char)) in Er. rewrite rev_involutive in Er.
    contradiction. }
  simpl in Hrev. apply andb_true_iff in Hrev. destruct Hrev as [Hc _].
  apply negb_true_iff in Hc.
  rewrite str_in_lstrip by exact Hc. rewrite <- Er, str_in_rev.
  destruct sub as [|a sub]; [contradiction|].
  simpl in Hsub. apply andb_true_iff in Hsub. destruct Hsub as [Ha _].
  apply negb_true_iff in Ha. apply str_in_lstrip. exact Ha.
Qed.

(** The count of one character adds up over the parts of a text. *)
Lemma str_count_char_app : forall c a b,
  str_count (a ++ b) [c] = str_count a [c] + str_count b [c].
Proof.
  intros c a b. rewrite !PyFacts.str_count_char, filter_app, length_app.
  reflexivity.
Qed.

Lemma startswith_length : forall p s,
  startswith p s = true -> length p <= length s.
Proof.
  intros p s H. apply startswith_iff in H. destruct H as (t & ->).
  rewrite length_app. lia.
Qed.

Lemma startswith_app_r : forall p s t,
  startswith p s = true -> startswith p (s ++ t) = true.
Proof.
  intros p s t H. apply startswith_iff in H. destruct H as (r & ->).
  apply startswith_iff. exists (r ++ t). rewrite app_assoc. reflexivity.
Qed.

Lemma count_scan_short : forall sub s skip,
  length s < length sub -> count_scan sub s skip = 0.
Proof.
  intros sub s. induction s as [|c s IH]; intros skip H; [reflexivity|].
  cbn [count_scan]. destruct skip as [|k].
  - destruct (startswith sub (c :: s)) eqn:E.
    + apply startswith_length in E. lia.
    + apply IH. simpl in H. lia.
  - apply IH. simpl in H. lia.
Qed.

(** Text added at the end takes no occurrence away. *)
Lemma count_scan_app : forall sub s t skip,
  count_scan sub s skip <= count_scan sub (s ++ t) skip.
Proof.
  intros sub s t. induction s as [|c s IH]; intros skip; [simpl; lia|].
  change ((c :: s) ++ t) with (c :: s ++ t). cbn [count_scan].
  destruct skip as [|k]; [|apply IH].
  destruct (startswith sub (c :: s)) eqn:E.
  - change (c :: s ++ t) with ((c :: s) ++ t).
    rewrite (startswith_app_r _ _ t E). apply le_n_S, IH.
  - destruct (startswith sub (c :: s ++ t)) eqn:E2; [|apply IH].
    rewrite count_scan_short; [lia|].
    destruct (Nat.lt_ge_cases (length s) (length sub)) as [Hlt|Hge]; [exact Hlt|].
    exfalso. apply startswith_iff in E2. destruct E2 as (r & E2).
    assert (Hs : startswith sub (c :: s) = true).
    { apply startswith_iff.
      exists (skipn (length sub) (c :: s)).
      rewrite <- (firstn_skipn (length sub) (c :: s)) at 1. f_equal.
      apply (f_equal (firstn (length sub))) in E2.
      rewrite firstn_app, Nat.sub_diag, firstn_all, app_nil_r in E2.
      change (c :: s ++ t) with ((c :: s) ++ t) in E2.
      rewrite firstn_app in E2.
      replace (length sub - length (c :: s)) with 0 in E2 by (simpl; lia).
      rewrite app_nil_r in E2. exact E2. }
    congruence.
Qed.

Lemma str_count_app : forall s t sub,
  sub <> [] -> str_count s sub <= str_count (s ++ t) sub.
Proof.
  intros s t sub H. unfold str_count. destruct sub; [contradiction|].
  apply count_scan_app.
Qed.

(** The first line of a text and the lines after it. *)
Lemma split_on_first : forall sep s,
  exists h r, split_on sep s = h :: r /\
              forallb (fun c => negb (char_eqb c sep)) h = true /\
              ((r = [] /\ s = h) \/
               (exists t, s = h ++ sep :: t /\ r = split_on sep t)).
Proof.
  intros sep s. induction s as [|c s IH].
  - exists [], []. simpl. auto.
  - cbn [split_on]. destruct (char_eqb c sep) eqn:E.
    + exists [], (split_on sep s). split; [reflexivity|]. split; [reflexivity|].
      right. exists s. unfold char_eqb in E. apply N.eqb_eq in E. subst c.
      split; reflexivity.
    + destruct IH as (h & r & -> & Hh & Hs). exists (c :: h), r.
      split; [reflexivity|]. split; [simpl; rewrite E; exact Hh|].
      destruct Hs as [(-> & ->) | (t & -> & ->)]; [left; auto|].
      right. exists t. split; reflexivity.
Qed.

Lemma split_on_nonempty : forall sep s, split_on sep s <> [].
Proof.
  intros sep s. destruct (split_on_first sep s) as (h & r & -> & _). discriminate.
Qed.

(** [strip] a second time changes nothing. *)
Lemma lstrip_spaces : forall s, forallb isspace s = true -> lstrip s = [].
Proof.
  induction s as [|c s IH]; intros H; [reflexivity|].
  simpl in H. apply andb_true_iff in H. destruct H as [Hc H].
  cbn [lstrip]. rewrite Hc. apply IH. exact H.
Qed.

Lemma lstrip_snoc : forall a c,
  lstrip (a ++ [c]) =
  if forallb isspace a then (if isspace c then [] else [c])
  else lstrip a ++ [c].
Proof.
  induction a as [|d a IH]; intros c; [reflexivity|].
  cbn [app lstrip forallb]. destruct (isspace d); [apply IH | reflexivity].
Qed.

Lemma forallb_rev_eq : forall (p : char -> bool) s,
  forallb p (rev s) = forallb p s.
Proof.
  intros p s. induction s as [|c s IH]; [reflexivity|].
  cbn [rev forallb]. rewrite forallb_app, IH. cbn [forallb].
  rewrite andb_true_r. apply andb_comm.
Qed.

Lemma rstrip_cons : forall c t,
  rstrip (c :: t) = if forallb isspace (c :: t) then [] else c :: rstrip t.
Proof.
  intros c t. unfold rstrip. cbn [rev forallb].
  rewrite lstrip_snoc, forallb_rev_eq.
  destruct (forallb isspace t) eqn:Et.
  - rewrite andb_true_r. destruct (isspace c); [reflexivity|].
    rewrite lstrip_spaces by (rewrite forallb_rev_eq; exact Et). reflexivity.
  - rewrite andb_false_r, rev_app_distr. reflexivity.
Qed.

Lemma lstrip_rstrip : forall s, lstrip (rstrip s) = rstrip (lstrip s).
Proof.
  induction s as [|c s IH]; [reflexivity|].
  rewrite rstrip_cons. cbn [lstrip forallb].
  destruct (isspace c) eqn:Ec; cbn [andb].
  - destruct (forallb isspace s) eqn:Es.
    + rewrite (lstrip_spaces s Es). reflexivity.
    + cbn [lstrip]. rewrite Ec. exact IH.
  - cbn [lstrip]. rewrite Ec, rstrip_cons. cbn [forallb]. rewrite Ec. reflexivity.
Qed.

Lemma lstrip_idempotent : forall s, lstrip (lstrip s) = lstrip s.
Proof.
  induction s as [|c s IH]; [reflexivity|].
  cbn [lstrip]. destruct (isspace c) eqn:Ec; [exact IH|].
  cbn [lstrip]. rewrite Ec. reflexivity.
Qed.

Lemma strip_idempotent : forall s, strip (strip s) = strip s.
Proof.
  intros s. unfold strip. rewrite lstrip_rstrip, lstrip_idempotent.
  unfold rstrip. rewrite rev_involutive, lstrip_idempotent. reflexivity.
Qed.

(** The pieces of a split have no separator, and keep what holds of every
    character of the text. *)
Lemma split_on_pieces : forall (p : char -> bool) sep s,
  forallb p s = true ->
  Forall (fun piece => forallb p piece = true /\
                       forallb (fun c => negb (char_eqb c sep)) piece = true)
         (split_on sep s).
Proof.
  intros p sep s. induction s as [|c s IH]; intros H.
  - repeat constructor.
  - simpl in H. apply andb_true_iff in H. destruct H as [Hc H].
    specialize (IH H). cbn [split_on].
    destruct (char_eqb c sep) eqn:Ec.
    + constructor; [split; reflexivity | exact IH].
    + destruct (split_on sep s) as [|h r]; [repeat constructor; simpl; auto;
        rewrite ?Hc, ?Ec; reflexivity|].
      inversion IH as [|? ? (Hh1 & Hh2) Hr]; subst.
      constructor; [|exact Hr]. cbn [forallb]. rewrite Hc, Ec, Hh1, Hh2. auto.
Qed.

Lemma startswith_before_sep : forall sep sub x y,
  forallb (fun c => negb (char_eqb c sep)) sub = true ->
  startswith sub (x ++ sep :: y) = startswith sub x.
Proof.
  intros sep sub. induction sub as [|a sub IH]; intros x y H; [reflexivity|].
  simpl in H. apply andb_true_iff in H. destruct H as [Ha H].
  apply negb_true_iff in Ha.
  destruct x as [|b x]; cbn [app startswith].
  - rewrite Ha. reflexivity.
  - rewrite IH by exact H. reflexivity.
Qed.

(** A text without a newline occurs in a text exactly when it occurs in
    one of its lines. *)
Lemma str_in_lines : forall sub code,
  sub <> [] ->
  forallb (fun c => negb (char_eqb c nl)) sub = true ->
  str_in sub code = existsb (str_in sub) (split_on nl code).
Proof.
  intros sub code Hne Hsub.
  assert (Hempty : str_in sub [] = false).
  { destruct sub; [contradiction | reflexivity]. }
  induction code as [|c t IH].
  - cbn [split_on existsb]. rewrite orb_false_r. reflexivity.
  - rewrite PyFacts.str_in_unfold. cbn [split_on].
    destruct (char_eqb c nl) eqn:Ec.
    + cbn [existsb]. rewrite Hempty, <- IH. cbn [orb]. f_equal.
      destruct sub as [|a sub]; [contradiction|].
      simpl in Hsub. apply andb_true_iff in Hsub. destruct Hsub as [Ha _].
      apply negb_true_iff in Ha. unfold char_eqb in *.
      apply N.eqb_eq in Ec. subst c. cbn [startswith]. unfold char_eqb.
      rewrite Ha. reflexivity.
    + destruct (split_on_first nl t) as (h & r & Hsplit & _ & Hcases).
      rewrite Hsplit in IH |- *. cbn [existsb] in IH |- *.
      rewrite IH, (PyFacts.str_in_unfold sub (c :: h)), <- orb_assoc.
      f_equal.
      destruct Hcases as [(_ & ->) | (t' & -> & _)]; [reflexivity|].
      change (c :: h ++ nl :: t') with ((c :: h) ++ nl :: t').
      apply startswith_before_sep. exact Hsub.
Qed.

Lemma length_enumerate_from : forall (A : Type) (xs : list A) k,
  length (enumerate_from k xs) = length xs.
Proof.
  induction xs as [|x xs IH]; intros k; [reflexivity|].
  cbn [enumerate_from length]. rewrite IH. reflexivity.
Qed.

End StringFacts.

(** ** Floats: rounding is monotone and near *)

Module FloatFacts.
Import Float.
Local Open Scope Q_scope.

Lemma pow2_pos : forall z, 0 < pow2 z.
Proof.
  intros z. apply Qpower_0_lt. reflexivity.
Qed.

Lemma pow2_le : forall a b, (a <= b)%Z -> pow2 a <= pow2 b.
Proof.
  intros a b H. apply Qpower_le_compat_l; [exact H | discriminate].
Qed.

Lemma pow2_lt_inv : forall a b, pow2 a < pow2 b -> (a < b)%Z.
Proof.
  intros a b H. apply (Qpower_lt_compat_l_inv 2); [exact H | reflexivity].
Qed.

Lemma pow2_plus : forall a b, pow2 (a + b) == pow2 a * pow2 b.
Proof.
  intros a b. apply Qpower_plus. discriminate.
Qed.

Lemma pow2_nonneg_Z : forall z, (0 <= z)%Z -> pow2 z == inject_Z (2 ^ z).
Proof.
  intros z H. unfold pow2. rewrite Zpower_Qpower by exact H. reflexivity.
Qed.

(** [q = n / d] *)
Lemma Q_as_quotient : forall q, q == inject_Z (Qnum q) / inject_Z (Z.pos (Qden q)).
Proof.
  intros [n d]. unfold Qeq, Qdiv, Qmult, Qinv, inject_Z. simpl. lia.
Qed.

Lemma ilog2_bounds : forall q,
  0 < q -> pow2 (ilog2 q) <= q /\ q < pow2 (ilog2 q + 1).
Proof.
  intros q Hq.
  assert (Hn : (0 < Qnum q)%Z).
  { destruct q as [n d]. unfold Qlt in Hq. simpl in *. lia. }
  set (n := Qnum q) in *. set (d := Z.pos (Qden q)).
  assert (Hd : (0 < d)%Z) by (unfold d; lia).
  destruct (Z.log2_spec n Hn) as (Hn1 & Hn2).
  destruct (Z.log2_spec d Hd) as (Hd1 & Hd2).
  set (a := Z.log2 n) in *. set (b := Z.log2 d) in *.
  assert (Ha : (0 <= a)%Z) by apply Z.log2_nonneg.
  assert (Hb : (0 <= b)%Z) by apply Z.log2_nonneg.
  assert (Hqd : q * inject_Z d == inject_Z n).
  { rewrite (Q_as_quotient q) at 1. fold n d. field.
    intros H. apply (inject_Z_injective d 0) in H. lia. }
  assert (Hdq : 0 < inject_Z d)
    by (change 0 with (inject_Z 0); rewrite <- Zlt_Qlt; exact Hd).
  (* 2^(k-1) * d < n  and  n < 2^(k+1) * d, where k = a - b *)
  assert (Hlow : pow2 (a - b - 1) <= q).
  { apply (Qmult_le_r _ _ (inject_Z d) Hdq). rewrite Hqd.
    apply Qle_trans with (pow2 (a - b - 1) * pow2 (b + 1)).
    - apply Qmult_le_l; [apply pow2_pos|].
      rewrite pow2_nonneg_Z by lia. rewrite <- Zle_Qle. lia.
    - rewrite <- pow2_plus. replace (a - b - 1 + (b + 1))%Z with a by lia.
      rewrite pow2_nonneg_Z by lia. rewrite <- Zle_Qle. exact Hn1. }
  assert (Hhigh : q < pow2 (a - b + 1)).
  { apply (Qmult_lt_r _ _ (inject_Z d) Hdq). rewrite Hqd.
    apply Qlt_le_trans with (pow2 (a - b + 1) * pow2 b).
    - rewrite <- pow2_plus. replace (a - b + 1 + b)%Z with (Z.succ a) by lia.
      rewrite pow2_nonneg_Z by lia. rewrite <- Zlt_Qlt. exact Hn2.
    - apply Qmult_le_l; [apply pow2_pos|].
      rewrite pow2_nonneg_Z by lia. rewrite <- Zle_Qle. exact Hd1. }
  unfold ilog2. fold n d a b.
  destruct (Qle_bool (pow2 (a - b)) q) eqn:E.
  - apply Qle_bool_iff in E. split; [exact E | exact Hhigh].
  - split; [exact Hlow|].
    replace (a - b - 1 + 1)%Z with (a - b)%Z by lia.
    apply Qnot_le_lt. intros H. apply Qle_bool_iff in H. congruence.
Qed.

Lemma ilog2_mono : forall p q, 0 < p -> p <= q -> (ilog2 p <= ilog2 q)%Z.
Proof.
  intros p q Hp Hpq.
  destruct (ilog2_bounds p Hp) as (H1 & _).
  destruct (ilog2_bounds q) as (_ & H2); [eapply Qlt_le_trans; eauto|].
  assert (H : pow2 (ilog2 p) < pow2 (ilog2 q + 1)).
  { eapply Qle_lt_trans; [exact H1|]. eapply Qle_lt_trans; eauto. }
  apply pow2_lt_inv in H. lia.
Qed.

Lemma ilog2_below : forall q e, 0 < q -> q < pow2 e -> (ilog2 q < e)%Z.
Proof.
  intros q e Hq H. destruct (ilog2_bounds q Hq) as (H1 & _).
  apply pow2_lt_inv. eapply Qle_lt_trans; eauto.
Qed.

Lemma ilog2_above : forall q e, pow2 e <= q -> (e <= ilog2 q)%Z.
Proof.
  intros q e H.
  assert (Hq : 0 < q) by (eapply Qlt_le_trans; [apply pow2_pos | exact H]).
  destruct (ilog2_bounds q Hq) as (_ & H2).
  assert (H3 : pow2 e < pow2 (ilog2 q + 1)) by (eapply Qle_lt_trans; eauto).
  apply pow2_lt_inv in H3. lia.
Qed.

(** *** Rounding to an integer *)

Lemma round_half_even_comp : forall s t, s == t -> round_half_even s = round_half_even t.
Proof.
  intros s t H. unfold round_half_even.
  rewrite (Qfloor_comp _ _ H).
  assert (Hc : (s - inject_Z (Qfloor t) ?= 1 # 2) = (t - inject_Z (Qfloor t) ?= 1 # 2)).
  { apply Qcompare_comp; [rewrite H; reflexivity | reflexivity]. }
  rewrite Hc. reflexivity.
Qed.

Lemma round_half_even_near : forall s,
  inject_Z (round_half_even s) - (1 # 2) <= s /\
  s <= inject_Z (round_half_even s) + (1 # 2).
Proof.
  intros s. unfold round_half_even.
  pose proof (Qfloor_le s) as Hlo. pose proof (Qlt_floor s) as Hhi.
  rewrite inject_Z_plus in Hhi. change (inject_Z 1) with 1 in Hhi.
  destruct (Qcompare_spec (s - inject_Z (Qfloor s)) (1 # 2)) as [H | H | H].
  - destruct (Z.even (Qfloor s)); [|rewrite inject_Z_plus; change (inject_Z 1) with 1];
      split; lra.
  - split; lra.
  - rewrite inject_Z_plus. change (inject_Z 1) with 1. split; lra.
Qed.

Lemma round_half_even_floor : forall s,
  (Qfloor s <= round_half_even s <= Qfloor s + 1)%Z.
Proof.
  intros s. unfold round_half_even.
  destruct (s - inject_Z (Qfloor s) ?= 1 # 2); [destruct (Z.even (Qfloor s))| |]; lia.
Qed.

Lemma round_half_even_mono : forall s t,
  s <= t -> (round_half_even s <= round_half_even t)%Z.
Proof.
  intros s t H.
  pose proof (Qfloor_resp_le _ _ H) as Hf.
  pose proof (round_half_even_floor s) as Hs.
  pose proof (round_half_even_floor t) as Ht.
  destruct (Z.eq_dec (Qfloor s) (Qfloor t)) as [E | E]; [|lia].
  unfold round_half_even in *. rewrite E in *.
  destruct (Qcompare_spec (s - inject_Z (Qfloor t)) (1 # 2)) as [H1 | H1 | H1];
    destruct (Qcompare_spec (t - inject_Z (Qfloor t)) (1 # 2)) as [H2 | H2 | H2];
    try lia; try (exfalso; lra);
    destruct (Z.even (Qfloor t)); lia.
Qed.

Lemma round_half_even_Z : forall z, round_half_even (inject_Z z) = z.
Proof.
  intros z. unfold round_half_even. rewrite Qfloor_Z.
  destruct (Qcompare_spec (inject_Z z - inject_Z z) (1 # 2)) as [H | H | H];
    [exfalso; lra | reflexivity | exfalso; lra].
Qed.

(** *** Rounding at a quantum *)

Lemma round_at_mono : forall c p q, p <= q -> round_at c p <= round_at c q.
Proof.
  intros c p q H. unfold round_at.
  apply Qmult_le_compat_r; [|apply Qlt_le_weak, pow2_pos].
  rewrite <- Zle_Qle. apply round_half_even_mono.
  apply Qmult_le_compat_r; [exact H|].
  apply Qlt_le_weak, Qinv_lt_0_compat, pow2_pos.
Qed.

Lemma round_at_multiple : forall c z, round_at c (inject_Z z * pow2 c) == inject_Z z * pow2 c.
Proof.
  intros c z. unfold round_at.
  assert (H : inject_Z z * pow2 c / pow2 c == inject_Z z).
  { field. intros E. pose proof (pow2_pos c). lra. }
  rewrite (round_half_even_comp _ _ H), round_half_even_Z. reflexivity.
Qed.

Lemma round_at_comp : forall c p q, p == q -> round_at c p == round_at c q.
Proof.
  intros c p q H. unfold round_at.
  assert (H' : p / pow2 c == q / pow2 c) by (rewrite H; reflexivity).
  rewrite (round_half_even_comp _ _ H'). reflexivity.
Qed.

Lemma round_at_pow2 : forall c e, (c <= e)%Z -> round_at c (pow2 e) == pow2 e.
Proof.
  intros c e H.
  assert (E : pow2 e == inject_Z (2 ^ (e - c)) * pow2 c).
  { rewrite <- pow2_nonneg_Z by lia. rewrite <- pow2_plus.
    replace (e - c + c)%Z with e by lia. reflexivity. }
  rewrite (round_at_comp _ _ _ E), round_at_multiple. symmetry. exact E.
Qed.

Lemma round_at_near : forall c q,
  round_at c q - pow2 c * (1 # 2) <= q /\ q <= round_at c q + pow2 c * (1 # 2).
Proof.
  intros c q. unfold round_at.
  destruct (round_half_even_near (q / pow2 c)) as (H1 & H2).
  pose proof (pow2_pos c) as Hc.
  assert (Hq : q / pow2 c * pow2 c == q) by (field; lra).
  set (m := inject_Z (round_half_even (q / pow2 c))) in *.
  set (s := q / pow2 c) in *.
  split.
  - rewrite <- Hq.
    assert (E : m * pow2 c - pow2 c * (1 # 2) == (m - (1 # 2)) * pow2 c) by ring.
    rewrite E. apply Qmult_le_compat_r; lra.
  - rewrite <- Hq at 1.
    assert (E : m * pow2 c + pow2 c * (1 # 2) == (m + (1 # 2)) * pow2 c) by ring.
    rewrite E. apply Qmult_le_compat_r; lra.
Qed.

(** *** [binary64] *)

Lemma binary64_nonneg : forall q, 0 <= binary64 q.
Proof.
  intros q. unfold binary64.
  destruct (Qle_bool q 0) eqn:E; [lra|].
  assert (Hq : 0 < q).
  { apply Qnot_le_lt. intros H. apply Qle_bool_iff in H. congruence. }
  unfold round_at. apply Qmult_le_0_compat; [|apply Qlt_le_weak, pow2_pos].
  change 0 with (inject_Z 0). rewrite <- Zle_Qle.
  rewrite <- (round_half_even_Z 0). apply round_half_even_mono.
  change (inject_Z 0) with 0.
  apply Qlt_le_weak, Qlt_shift_div_l; [apply pow2_pos | lra].
Qed.

Lemma binary64_mono : forall p q, p <= q -> binary64 p <= binary64 q.
Proof.
  intros p q H. unfold binary64.
  destruct (Qle_bool p 0) eqn:Ep.
  { fold (binary64 q). apply binary64_nonneg. }
  assert (Hp : 0 < p).
  { apply Qnot_le_lt. intros Hn. apply Qle_bool_iff in Hn. congruence. }
  assert (Hq : 0 < q) by lra.
  destruct (Qle_bool q 0) eqn:Eq; [apply Qle_bool_iff in Eq; lra|].
  pose proof (ilog2_mono p q Hp H) as Hlog.
  unfold quantum_exponent.
  set (ep := ilog2 p) in *. set (eq := ilog2 q) in *.
  destruct (Z.eq_dec (Z.max (ep - 52) emin) (Z.max (eq - 52) emin)) as [E | E].
  - rewrite E. apply round_at_mono. exact H.
  - assert (Hc : (Z.max (ep - 52) emin < eq - 52)%Z) by lia.
    assert (Hmax : Z.max (eq - 52) emin = (eq - 52)%Z) by lia.
    rewrite Hmax.
    destruct (ilog2_bounds p Hp) as (_ & Hp2). fold ep in Hp2.
    destruct (ilog2_bounds q Hq) as (Hq1 & _). fold eq in Hq1.
    assert (Hpe : p <= pow2 eq).
    { apply Qlt_le_weak. eapply Qlt_le_trans; [exact Hp2|]. apply pow2_le. lia. }
    apply Qle_trans with (pow2 eq).
    + rewrite <- (round_at_pow2 (Z.max (ep - 52) emin) eq) by lia.
      apply round_at_mono. exact Hpe.
    + rewrite <- (round_at_pow2 (eq - 52) eq) at 1 by lia.
      apply round_at_mono. exact Hq1.
Qed.

Lemma binary64_comp : forall p q, p == q -> binary64 p == binary64 q.
Proof.
  intros p q H. apply Qle_antisym; apply binary64_mono; rewrite H; apply Qle_refl.
Qed.

(** The error of rounding below a power of two. *)
Lemma binary64_near : forall q e,
  0 <= q -> q < pow2 e -> (emin <= e - 53)%Z ->
  binary64 q - pow2 (e - 54) <= q /\ q <= binary64 q + pow2 (e - 54).
Proof.
  intros q e Hq0 Hq He. unfold binary64.
  destruct (Qle_bool q 0) eqn:E.
  { apply Qle_bool_iff in E. pose proof (pow2_pos (e - 54)). split; lra. }
  assert (Hpos : 0 < q).
  { apply Qnot_le_lt. intros Hn. apply Qle_bool_iff in Hn. congruence. }
  pose proof (ilog2_below q e Hpos Hq) as Hlog.
  destruct (round_at_near (quantum_exponent q) q) as (H1 & H2).
  assert (Hc : pow2 (quantum_exponent q) * (1 # 2) <= pow2 (e - 54)).
  { replace (e - 54)%Z with ((e - 53) + (-1))%Z by lia.
    rewrite pow2_plus. change (pow2 (-1)) with (1 # 2).
    apply Qmult_le_compat_r; [|discriminate].
    apply pow2_le. unfold quantum_exponent. lia. }
  split; lra.
Qed.


Lemma binary64_integer : forall z,
  (0 <= z <= 2 ^ 53)%Z -> binary64 (inject_Z z) == inject_Z z.
Proof.
  intros z Hz.
  destruct (Z.eq_dec z (2 ^ 53)) as [-> | Hne]; [vm_compute; reflexivity|].
  unfold binary64.
  destruct (Qle_bool (inject_Z z) 0) eqn:E.
  { apply Qle_bool_iff in E. change 0 with (inject_Z 0) in E.
    rewrite <- Zle_Qle in E. replace z with 0%Z by lia. reflexivity. }
  assert (Hpos : 0 < inject_Z z).
  { apply Qnot_le_lt. intros Hn. apply Qle_bool_iff in Hn. congruence. }
  assert (Hlog : (ilog2 (inject_Z z) < 53)%Z).
  { apply ilog2_below; [exact Hpos|]. rewrite pow2_nonneg_Z by lia.
    rewrite <- Zlt_Qlt. lia. }
  assert (Hlog0 : (0 <= ilog2 (inject_Z z))%Z).
    { apply ilog2_above. change (pow2 0) with (inject_Z 1). rewrite <- Zle_Qle.
      change 0 with (inject_Z 0) in Hpos. rewrite <- Zlt_Qlt in Hpos. lia. }
    unfold quantum_exponent, emin.
    set (c := Z.max (ilog2 (inject_Z z) - 52) (-1074)).
    assert (Hc : (c <= 0)%Z) by (unfold c; lia).
    assert (E2 : inject_Z z == inject_Z (z * 2 ^ (- c)) * pow2 c).
    { rewrite inject_Z_mult, <- pow2_nonneg_Z by lia.
      rewrite <- Qmult_assoc, <- pow2_plus.
      replace (- c + c)%Z with 0%Z by lia. change (pow2 0) with 1. ring. }
    rewrite (round_at_comp _ _ _ E2), round_at_multiple. symmetry. exact E2.
Qed.

Section Percentage.

(** The score of [a] rules of which [v] are violated. *)
Variables a v : Z.
Hypothesis v_range : (0 <= v <= a)%Z.
Hypothesis a_positive : (0 < a)%Z.

Let ratio : Q := inject_Z (a - v) / inject_Z a.

Lemma ratio_range : 0 <= ratio /\ ratio <= 1.
Proof.
  unfold ratio.
  assert (Ha : 0 < inject_Z a)
    by (change 0 with (inject_Z 0); rewrite <- Zlt_Qlt; exact a_positive).
  split.
  - apply Qle_shift_div_l; [exact Ha|]. rewrite Qmult_0_l.
    change 0 with (inject_Z 0). rewrite <- Zle_Qle. lia.
  - apply Qle_shift_div_r; [exact Ha|]. rewrite Qmult_1_l.
    rewrite <- Zle_Qle. lia.
Qed.

Lemma quotient_range :
  0 <= int_truediv (a - v) a /\ int_truediv (a - v) a <= 1.
Proof.
  unfold int_truediv. fold ratio. destruct ratio_range as (H0 & H1).
  split; [apply binary64_nonneg|].
  rewrite <- (binary64_integer 1) by lia. apply binary64_mono. exact H1.
Qed.

Lemma percentage_bounds :
  0 <= float_mul (int_truediv (a - v) a) 100 /\
  float_mul (int_truediv (a - v) a) 100 <= 100.
Proof.
  destruct quotient_range as (H0 & H1). unfold float_mul.
  split; [apply binary64_nonneg|].
  apply Qle_trans with (binary64 (inject_Z 100)).
  - apply binary64_mono. change (inject_Z 100) with 100. lra.
  - rewrite binary64_integer by lia. apply Qle_refl.
Qed.

Lemma quotient_near :
  int_truediv (a - v) a - pow2 (-54) <= ratio /\
  ratio <= int_truediv (a - v) a + pow2 (-54).
Proof.
  destruct ratio_range as (H0 & H1). unfold int_truediv. fold ratio.
  destruct (Qlt_le_dec ratio 1) as [Hlt | Hge].
  - apply (binary64_near ratio 0); [exact H0 | exact Hlt | unfold emin; lia].
  - assert (E : ratio == 1) by (apply Qle_antisym; assumption).
    rewrite (binary64_comp _ _ E).
    assert (E1 : binary64 1 == 1) by (vm_compute; reflexivity).
    rewrite E1. pose proof (pow2_pos (-54)). lra.
Qed.

Lemma percentage_near :
  float_mul (int_truediv (a - v) a) 100 - pow2 (-46) <= ratio * 100 /\
  ratio * 100 <= float_mul (int_truediv (a - v) a) 100 + pow2 (-46).
Proof.
  destruct quotient_range as (H0 & H1). destruct quotient_near as (N1 & N2).
  unfold float_mul.
  set (x := int_truediv (a - v) a) in *.
  destruct (binary64_near (x * 100) 7) as (M1 & M2);
    [lra | change (pow2 7) with 128; lra | unfold emin; lia |].
  change (pow2 (7 - 54)) with (1 # 140737488355328) in M1, M2.
  change (pow2 (-54)) with (1 # 18014398509481984) in N1, N2.
  change (pow2 (-46)) with (1 # 70368744177664).
  split; lra.
Qed.

Hypothesis a_small : (a <= 2 ^ 53)%Z.

Lemma percentage_full :
  float_mul (int_truediv (a - v) a) 100 == 100 <-> v = 0%Z.
Proof.
  assert (Ha : 0 < inject_Z a)
    by (change 0 with (inject_Z 0); rewrite <- Zlt_Qlt; exact a_positive).
  split.
  - intros H. destruct (Z.eq_dec v 0) as [E | E]; [exact E | exfalso].
    assert (Hr : ratio <= 9007199254740991 # 9007199254740992).
    { unfold ratio. apply Qle_shift_div_r; [exact Ha|].
      assert (Hv : 1 <= inject_Z v)
        by (change 1 with (inject_Z 1); rewrite <- Zle_Qle; lia).
      assert (Hs : inject_Z a <= 9007199254740992)
        by (change 9007199254740992 with (inject_Z (2 ^ 53)); rewrite <- Zle_Qle; lia).
      unfold Zminus. rewrite inject_Z_plus, inject_Z_opp. lra. }
    assert (Hx : int_truediv (a - v) a <= 9007199254740991 # 9007199254740992).
    { unfold int_truediv. fold ratio.
      apply Qle_trans with (binary64 (9007199254740991 # 9007199254740992));
        [apply binary64_mono; exact Hr | vm_compute; discriminate]. }
    assert (Hy : float_mul (int_truediv (a - v) a) 100 <=
                 binary64 ((9007199254740991 # 9007199254740992) * 100)).
    { unfold float_mul. apply binary64_mono. lra. }
    assert (Hc : binary64 ((9007199254740991 # 9007199254740992) * 100) < 100)
      by (vm_compute; reflexivity).
    lra.
  - intros ->. unfold float_mul, int_truediv.
    assert (E : inject_Z (a - 0) / inject_Z a == 1).
    { rewrite Z.sub_0_r. field. lra. }
    assert (E1 : binary64 1 == 1) by (vm_compute; reflexivity).
    assert (E2 : binary64 (inject_Z (a - 0) / inject_Z a) * 100 == 100).
    { rewrite (binary64_comp _ _ E), E1. reflexivity. }
    rewrite (binary64_comp _ _ E2). vm_compute. reflexivity.
Qed.

Lemma percentage_zero :
  float_mul (int_truediv (a - v) a) 100 == 0 <-> v = a.
Proof.
  assert (Ha : 0 < inject_Z a)
    by (change 0 with (inject_Z 0); rewrite <- Zlt_Qlt; exact a_positive).
  split.
  - intros H. destruct (Z.eq_dec v a) as [E | E]; [exact E | exfalso].
    assert (Hr : 1 # 9007199254740992 <= ratio).
    { unfold ratio. apply Qle_shift_div_l; [exact Ha|].
      assert (Hv : 1 <= inject_Z (a - v))
        by (change 1 with (inject_Z 1); rewrite <- Zle_Qle; lia).
      assert (Hs : inject_Z a <= 9007199254740992)
        by (change 9007199254740992 with (inject_Z (2 ^ 53)); rewrite <- Zle_Qle; lia).
      lra. }
    assert (Hx : 1 # 9007199254740992 <= int_truediv (a - v) a).
    { unfold int_truediv. fold ratio.
      apply Qle_trans with (binary64 (1 # 9007199254740992));
        [vm_compute; discriminate | apply binary64_mono; exact Hr]. }
    assert (Hy : binary64 ((1 # 9007199254740992) * 100) <=
                 float_mul (int_truediv (a - v) a) 100).
    { unfold float_mul. apply binary64_mono. lra. }
    assert (Hc : 0 < binary64 ((1 # 9007199254740992) * 100))
      by (vm_compute; reflexivity).
    lra.
  - intros ->. unfold float_mul, int_truediv.
    assert (E : inject_Z (a - a) / inject_Z a == 0).
    { rewrite Z.sub_diag. unfold Qdiv. rewrite Qmult_0_l. reflexivity. }
    assert (E0 : binary64 0 == 0) by (vm_compute; reflexivity).
    assert (E2 : binary64 (inject_Z (a - a) / inject_Z a) * 100 == 0).
    { rewrite (binary64_comp _ _ E), E0. reflexivity. }
    rewrite (binary64_comp _ _ E2). vm_compute. reflexivity.
Qed.

End Percentage.

(** The float of [sum / count] between one and a maximum. *)
Lemma average_bounds : forall sum count top : Z,
  (0 < count)%Z -> (count <= sum)%Z ->
  1 <= int_truediv sum count /\
  ((sum <= count * top)%Z -> (top <= 2 ^ 53)%Z ->
   int_truediv sum count <= inject_Z top).
Proof.
  intros sum count top Hc Hs. unfold int_truediv.
  assert (Hcq : 0 < inject_Z count)
    by (change 0 with (inject_Z 0); rewrite <- Zlt_Qlt; exact Hc).
  split.
  - rewrite <- (binary64_integer 1) by lia. apply binary64_mono.
    apply Qle_shift_div_l; [exact Hcq|]. change (inject_Z 1) with 1.
    rewrite Qmult_1_l, <- Zle_Qle. exact Hs.
  - intros Htop Hsmall.
    assert (H0 : (0 <= top)%Z) by nia.
    rewrite <- (binary64_integer top) by lia. apply binary64_mono.
    apply Qle_shift_div_r; [exact Hcq|].
    rewrite <- inject_Z_mult, <- Zle_Qle. lia.
Qed.

End FloatFacts.

(** ** The parser *)

Module ParserFacts.
Import Py Re Parser.

(** *** The matches of a pattern *)

(** The continuation of the matcher is run on a suffix of the text. *)
Lemma rmatch_suffix : forall len r s caps k x,
  rmatch len r s caps k = Some x ->
  exists s1 caps1, length s1 <= length s /\ k s1 caps1 = Some x.
Proof.
  intros len r. induction r as [|p|r1 IH1 r2 IH2|r1 IH1 r2 IH2|r1 IH1|n r1 IH1|];
    intros s caps k x H; cbn [rmatch] in H.
  - exists s, caps. auto.
  - destruct s as [|c t]; [discriminate|].
    destruct (p c); [|discriminate]. exists t, caps. simpl. auto.
  - apply IH1 in H. destruct H as (s1 & caps1 & Hlen1 & H).
    apply IH2 in H. destruct H as (s2 & caps2 & Hlen2 & H).
    exists s2, caps2. split; [lia|exact H].
  - destruct (rmatch len r1 s caps k) eqn:E.
    + injection H as ->. eapply IH1; eauto.
    + eapply IH2; eauto.
  - remember (length s) as fuel eqn:Hfuel in H. clear Hfuel.
    revert s caps H.
    induction fuel as [|fuel IHfuel]; intros s caps H.
    + exists s, caps. auto.
    + match type of H with
      | match ?call with _ => _ end = _ => destruct call eqn:E
      end.
      * injection H as ->. apply IH1 in E.
        destruct E as (s1 & caps1 & Hlen1 & E).
        destruct (length s1 <? length s) eqn:Eprogress; [|discriminate].
        apply IHfuel in E. destruct E as (s2 & caps2 & Hlen2 & E).
        exists s2, caps2. split; [lia|exact E].
      * exists s, caps. auto.
  - apply IH1 in H. destruct H as (s1 & caps1 & Hlen1 & H).
    exists s1, ((n, (offset len s, offset len s1)) :: caps1). auto.
  - destruct s as [|c t].
    + exists [], caps. auto.
    + destruct (char_eqb c nl); [|discriminate]. exists (c :: t), caps. auto.
Qed.

Lemma match_here_span : forall len r s m,
  match_here len r s = Some m ->
  m_start m = len - length s /\ m_start m <= m_end m <= len.
Proof.
  intros len r s m H. unfold match_here in H.
  destruct (rmatch len r s [] _) as [[s1 caps1]|] eqn:E; [|discriminate].
  injection H as <-. apply rmatch_suffix in E.
  destruct E as (s2 & caps2 & Hlen & E). injection E as -> ->.
  unfold offset. simpl. lia.
Qed.

Lemma search_here_span : forall len r s m,
  search_here len r s = Some m ->
  len - length s <= m_start m /\ m_start m <= m_end m <= len.
Proof.
  intros len r s. induction s as [|c s IH]; intros m H; cbn [search_here] in H.
  - destruct (match_here len r []) as [m0|] eqn:E; [|discriminate].
    injection H as <-. apply match_here_span in E. lia.
  - destruct (match_here len r (c :: s)) as [m0|] eqn:E.
    + injection H as <-. apply match_here_span in E. lia.
    + apply IH in H. simpl. lia.
Qed.

(** A match of a search from [pos] lies between [pos] and the end of the
    text. *)
Lemma search_span : forall r content pos m,
  pos <= length content ->
  search r content pos = Some m ->
  pos <= m_start m /\ m_start m <= m_end m <= length content.
Proof.
  intros r content pos m Hpos H. unfold search in H.
  apply search_here_span in H. rewrite length_skipn in H. lia.
Qed.

Lemma search_here_start : forall len r s m,
  search_here len r s = Some m -> m_start m <= len.
Proof.
  intros len r s m H. apply search_here_span in H. lia.
Qed.

Lemma finditer_from_start : forall fuel r content pos m,
  In m (finditer_from fuel r content pos) -> m_start m <= length content.
Proof.
  induction fuel as [|fuel IH]; intros r content pos m H; simpl in H.
  - contradiction.
  - destruct (length content <? pos); [contradiction|].
    destruct (search r content pos) as [m0|] eqn:E; [|contradiction].
    destruct H as [<-|H].
    + unfold search in E. eapply search_here_start; eauto.
    + eapply IH; eauto.
Qed.

(** The fuel of [finditer] is enough: the matches are the same with any
    fuel above the number of characters left, so that the list ends when a
    search fails or passes the end of the text. *)
Lemma finditer_from_fuel : forall fuel1 fuel2 r content pos,
  length content + 1 - pos <= fuel1 ->
  length content + 1 - pos <= fuel2 ->
  finditer_from fuel1 r content pos = finditer_from fuel2 r content pos.
Proof.
  induction fuel1 as [|fuel1 IH]; intros fuel2 r content pos H1 H2.
  - assert (Hpast : (length content <? pos) = true) by (apply Nat.ltb_lt; lia).
    destruct fuel2; simpl; [reflexivity|]. rewrite Hpast. reflexivity.
  - destruct fuel2 as [|fuel2].
    + assert (Hpast : (length content <? pos) = true) by (apply Nat.ltb_lt; lia).
      simpl. rewrite Hpast. reflexivity.
    + simpl. destruct (length content <? pos) eqn:Epos; [reflexivity|].
      apply Nat.ltb_ge in Epos.
      destruct (search r content pos) as [m|] eqn:E; [|reflexivity].
      apply search_span in E; [|exact Epos].
      f_equal. apply IH;
        destruct (Nat.eqb_spec (m_end m) (m_start m)); lia.
Qed.

(** The matches that [re] finds in some texts. *)
Example func_pattern_matches :
  map (fun m => (m_start m, m_end m))
      (finditer (func_pattern (fun _ => false))
         (u "static  inline int * foo (int a," ++ [nl] ++ u " char b)" ++ [nl] ++
          u "{ x } int f(}) {{ }")) = [(0, 43); (48, 58)] /\
  map (fun m => (m_start m, m_end m))
      (finditer (func_pattern (fun _ => false))
         (u "static int *foo(int a) { if (a) { } } void g(void){}")) = [(38, 51)] /\
  finditer (func_pattern (fun _ => false)) (u "int f(int a);") = [].
Proof. vm_compute. auto. Qed.

Example macro_pattern_matches :
  map (fun m => (m_start m, m_end m))
      (finditer (macro_pattern (fun _ => false))
         (u "#define FOO (1+2)" ++ [nl] ++ u "#define BAR(x) x" ++ [nl] ++
          u "#define BAZ 3")) = [(0, 17); (18, 34); (35, 48)] /\
  map (fun m => (m_start m, m_end m))
      (finditer (macro_pattern (fun _ => false))
         (u "#define F(x)" ++ [nl] ++ u "int y;")) = [(0, 19)].
Proof. vm_compute. auto. Qed.

(** *** The scan for the end of a function *)

Lemma depth_from_cons : forall depth c s,
  depth_from depth (c :: s) = depth_from (brace_step depth c) s.
Proof. reflexivity. Qed.

Lemma depth_from_nil : forall depth, depth_from depth [] = depth.
Proof. reflexivity. Qed.

Lemma find_end_scan_found : forall s pos brace_count found_start e,
  find_end_scan s pos brace_count found_start = Some e ->
  exists n,
    e = pos + n /\ 1 <= n <= length s /\
    depth_from brace_count (firstn n s) = 0%Z /\
    ((found_start = true /\ (1 <= brace_count)%Z) \/
     (found_start = false /\ brace_count = 0%Z /\
      opens_first (firstn n s) = true) ->
     forall k, (0 <= depth_from brace_count (firstn k (firstn n s)))%Z).
Proof.
  induction s as [|c s IH]; intros pos brace_count found_start e H.
  - discriminate.
  - cbn [find_end_scan] in H.
    destruct (char_eqb c (ch "{")) eqn:Eopen.
    + assert (Hstep : brace_step brace_count c = (brace_count + 1)%Z)
        by (unfold brace_step; rewrite Eopen; reflexivity).
      apply IH in H. destruct H as (n & -> & Hn & Hdepth & Hnonneg).
      exists (S n). cbn [firstn length]. rewrite depth_from_cons, Hstep.
      repeat split; try lia; auto.
      intros Hstate [|k]; cbn [firstn].
      * rewrite depth_from_nil. destruct Hstate as [[_ ?]|[_ [-> _]]]; lia.
      * rewrite depth_from_cons, Hstep.
        apply Hnonneg. left. split; auto.
        destruct Hstate as [[_ ?]|[_ [-> _]]]; lia.
    + destruct (char_eqb c (ch "}")) eqn:Eclose.
      * assert (Hstep : brace_step brace_count c = (brace_count - 1)%Z)
          by (unfold brace_step; rewrite Eopen, Eclose; reflexivity).
        destruct (found_start && (brace_count - 1 =? 0)%Z) eqn:Eret.
        -- injection H as <-. exists 1.
           apply andb_true_iff in Eret. destruct Eret as [Hfound Hzero].
           apply Z.eqb_eq in Hzero.
           cbn [firstn length]. rewrite depth_from_cons, Hstep, depth_from_nil.
           repeat split; try lia.
           intros Hstate [|k]; cbn [firstn].
           ++ rewrite depth_from_nil.
              destruct Hstate as [[_ ?]|[? _]]; [lia|congruence].
           ++ destruct k; cbn [firstn];
                rewrite depth_from_cons, Hstep, depth_from_nil; lia.
        -- apply IH in H. destruct H as (n & -> & Hn & Hdepth & Hnonneg).
           exists (S n). cbn [firstn length]. rewrite depth_from_cons, Hstep.
           repeat split; try lia; auto.
           intros Hstate.
           destruct Hstate as [[Hfound Hbc]|[_ [_ Hopens]]].
           ++ subst found_start. simpl in Eret. apply Z.eqb_neq in Eret.
              intros [|k]; cbn [firstn].
              ** rewrite depth_from_nil. lia.
              ** rewrite depth_from_cons, Hstep.
                 apply Hnonneg. left. split; auto. lia.
           ++ cbn [opens_first] in Hopens. rewrite Eopen, Eclose in Hopens.
              discriminate.
      * assert (Hstep : brace_step brace_count c = brace_count)
          by (unfold brace_step; rewrite Eopen, Eclose; reflexivity).
        apply IH in H. destruct H as (n & -> & Hn & Hdepth & Hnonneg).
        exists (S n). cbn [firstn length]. rewrite depth_from_cons, Hstep.
        repeat split; try lia; auto.
        intros Hstate [|k]; cbn [firstn].
        -- rewrite depth_from_nil. destruct Hstate as [[_ ?]|[_ [-> _]]]; lia.
        -- rewrite depth_from_cons, Hstep.
           apply Hnonneg.
           destruct Hstate as [?|[? [? Hopens]]]; [left; auto|right].
           cbn [opens_first] in Hopens. rewrite Eopen, Eclose in Hopens. auto.
Qed.

(** A scan that runs off the end of the text has kept the depth above
    zero from the first opening brace on. *)
Lemma find_end_scan_open : forall s pos brace_count found_start,
  find_end_scan s pos brace_count found_start = None ->
  (found_start = true /\ (1 <= brace_count)%Z) \/
  (found_start = false /\ brace_count = 0%Z /\ opens_first s = true) ->
  forall k, (0 <= depth_from brace_count (firstn k s))%Z.
Proof.
  induction s as [|c s IH]; intros pos brace_count found_start H Hstate k.
  - rewrite firstn_nil, depth_from_nil.
    destruct Hstate as [[_ ?]|[_ [-> _]]]; lia.
  - destruct k as [|k]; cbn [firstn].
    { rewrite depth_from_nil. destruct Hstate as [[_ ?]|[_ [-> _]]]; lia. }
    rewrite depth_from_cons. cbn [find_end_scan] in H. unfold brace_step.
    destruct (char_eqb c (ch "{")) eqn:Eopen.
    + eapply IH; [exact H|]. left. split; [reflexivity|].
      destruct Hstate as [[_ ?]|[_ [-> _]]]; lia.
    + destruct (char_eqb c (ch "}")) eqn:Eclose.
      * destruct Hstate as [[-> Hbc]|[_ [_ Hopens]]].
        -- cbn [andb] in H.
           destruct (Z.eqb_spec (brace_count - 1) 0) as [E|E]; [discriminate H|].
           eapply IH; [exact H|]. left. split; [reflexivity | lia].
        -- cbn [opens_first] in Hopens. rewrite Eopen, Eclose in Hopens.
           discriminate Hopens.
      * eapply IH; [exact H|].
        destruct Hstate as [?|[? [? Hopens]]]; [left; assumption | right].
        cbn [opens_first] in Hopens. rewrite Eopen, Eclose in Hopens. auto.
Qed.

(** C2, as the code has it.  Every function record has
    [start_line <= end_line], and the running depth of its body is never
    below zero provided no closing brace stands before the first opening
    brace of the body.  When the scan from the start of the signature
    reaches a closing brace that brings the depth back to zero, the body has
    as many opening as closing braces.  When the text ends before, the body
    is the rest of the text. *)
Theorem function_record_braces :
  forall unicode_isalnum content m,
    In m (finditer (func_pattern unicode_isalnum) content) ->
    let record := function_record content m in
    let body := func_body content m in
    start_line record <= end_line record /\
    (opens_first body = true -> depth_never_negative body) /\
    (closing_brace_found content (m_start m) = true -> braces_balanced body) /\
    (closing_brace_found content (m_start m) = false ->
     body = skipn (m_start m) content).
Proof.
  intros unicode_isalnum content m Hin record body.
  assert (Hstart : m_start m <= length content)
    by (eapply finditer_from_start; exact Hin).
  unfold record, body, function_record, func_body, func_end,
    closing_brace_found, _find_function_end.
  cbn [start_line end_line].
  rewrite !PyFacts.str_count_char.
  destruct (find_end_scan (skipn (m_start m) content) (m_start m) 0%Z false)
    as [e|] eqn:Escan.
  - apply find_end_scan_found in Escan.
    destruct Escan as (n & -> & Hn & Hdepth & Hnonneg).
    unfold slice. replace (m_start m + n - m_start m) with n by lia.
    split; [|split; [|split]].
    + apply Nat.add_le_mono_r. apply PyFacts.filter_firstn_le. lia.
    + intros Hopens k. apply Hnonneg. right. auto.
    + intros _. exact Hdepth.
    + discriminate.
  - assert (Hbody : slice content (m_start m) (length content) =
                    skipn (m_start m) content).
    { unfold slice. apply firstn_all2. rewrite length_skipn. lia. }
    split; [|split; [|split]].
    + apply Nat.add_le_mono_r. apply PyFacts.filter_firstn_le. exact Hstart.
    + rewrite Hbody. intros Hopens k.
      eapply find_end_scan_open; [exact Escan|]. right. auto.
    + discriminate.
    + intros _. exact Hbody.
Qed.

(** A function whose body is closed: the hypotheses of the theorem hold
    and give a balanced body whose depth is never negative. *)
Lemma function_record_braces_example :
  In (mk_match 0 14 [(2, (4, 5)); (1, (0, 3))])
     (finditer (func_pattern (fun _ => false)) closed_function) /\
  braces_balanced
    (func_body closed_function (mk_match 0 14 [(2, (4, 5)); (1, (0, 3))])) /\
  depth_never_negative
    (func_body closed_function (mk_match 0 14 [(2, (4, 5)); (1, (0, 3))])).
Proof.
  set (content := closed_function).
  set (m := mk_match 0 14 [(2, (4, 5)); (1, (0, 3))]).
  assert (Hin : In m (finditer (func_pattern (fun _ => false)) content))
    by (vm_compute; left; reflexivity).
  assert (Hfound : closing_brace_found content (m_start m) = true)
    by (vm_compute; reflexivity).
  assert (Hopens : opens_first (func_body content m) = true)
    by (vm_compute; reflexivity).
  destruct (function_record_braces (fun _ => false) content m Hin)
    as (_ & Hdepth & Hbalanced & _).
  split; [exact Hin|]. split; [exact (Hbalanced Hfound) | exact (Hdepth Hopens)].
Defined.

(** C2, as the claim has it, fails: the body of a function whose closing
    brace is missing runs to the end of the text and is not balanced. *)
Lemma unterminated_function_unbalanced :
  exists m,
    finditer (func_pattern (fun _ => false)) unterminated_function = [m] /\
    length (_extract_functions (fun _ => false) unterminated_function) = 1 /\
    func_body unterminated_function m = unterminated_function /\
    ~ braces_balanced (func_body unterminated_function m).
Proof.
  exists (mk_match 0 9 [(2, (4, 5)); (1, (0, 3))]).
  split; [vm_compute; reflexivity|].
  split; [vm_compute; reflexivity|].
  split; [vm_compute; reflexivity|].
  unfold braces_balanced. vm_compute. discriminate.
Qed.

(** A closing brace in the parameter list drives the depth of the body
    below zero although the scan finds an end. *)
Example brace_in_parameter_list :
  let content := u "int f(}) {{ }" in
  let m := mk_match 0 10 [(2, (4, 5)); (1, (0, 3))] in
  finditer (func_pattern (fun _ => false)) content = [m] /\
  closing_brace_found content (m_start m) = true /\
  brace_depth (firstn 7 (func_body content m)) = (-1)%Z.
Proof. vm_compute. auto. Qed.

(** *** What [str.count] counts *)

Lemma disjoint_from_lower : forall sub s lo lo' ps,
  lo' <= lo -> disjoint_from sub s lo ps = true -> disjoint_from sub s lo' ps = true.
Proof.
  intros sub s lo lo' [|p rest] Hle H; [reflexivity|].
  cbn [disjoint_from] in *.
  apply andb_true_iff in H. destruct H as [H Hrest].
  apply andb_true_iff in H. destruct H as [Hlo Hocc].
  apply Nat.leb_le in Hlo. rewrite Hocc, Hrest, !andb_true_r.
  apply Nat.leb_le. lia.
Qed.

Lemma disjoint_from_tail : forall sub c t ps lo,
  disjoint_from sub (c :: t) (S lo) ps = true ->
  disjoint_from sub t lo (map Nat.pred ps) = true.
Proof.
  intros sub c t. induction ps as [|p rest IH]; intros lo H; [reflexivity|].
  cbn [disjoint_from map] in *.
  apply andb_true_iff in H. destruct H as [H Hrest].
  apply andb_true_iff in H. destruct H as [Hlo Hocc].
  apply Nat.leb_le in Hlo. destruct p as [|p]; [lia|].
  cbn [Nat.pred skipn] in *. rewrite Hocc.
  replace (lo <=? p) with true by (symmetry; apply Nat.leb_le; lia).
  apply IH. exact Hrest.
Qed.

Lemma disjoint_from_cons : forall sub c t ps lo,
  disjoint_from sub t lo ps = true ->
  disjoint_from sub (c :: t) (S lo) (map S ps) = true.
Proof.
  intros sub c t. induction ps as [|p rest IH]; intros lo H; [reflexivity|].
  cbn [disjoint_from map skipn] in *.
  apply andb_true_iff in H. destruct H as [H Hrest].
  apply andb_true_iff in H. destruct H as [Hlo Hocc].
  rewrite Hocc. apply Nat.leb_le in Hlo.
  replace (S lo <=? S p) with true by (symmetry; apply Nat.leb_le; lia).
  apply (IH (p + length sub)). exact Hrest.
Qed.

(** The scan of [str.count] finds as many occurrences as any choice of
    occurrences that do not overlap. *)
Lemma count_scan_most : forall sub s skip ps,
  sub <> [] ->
  disjoint_from sub s skip ps = true -> length ps <= count_scan sub s skip.
Proof.
  intros sub s. induction s as [|c t IH]; intros skip ps Hne H.
  - destruct ps as [|p rest]; [simpl; lia|].
    cbn [disjoint_from] in H.
    apply andb_true_iff in H. destruct H as [H _].
    apply andb_true_iff in H. destruct H as [_ Hocc].
    rewrite skipn_nil in Hocc. destruct sub; [contradiction | discriminate Hocc].
  - cbn [count_scan]. destruct skip as [|k].
    + destruct (startswith sub (c :: t)) eqn:E.
      * destruct ps as [|p rest]; [simpl; lia|].
        cbn [disjoint_from] in H.
        apply andb_true_iff in H. destruct H as [_ Hrest].
        apply (disjoint_from_lower _ _ _ (S (length sub - 1))) in Hrest;
          [|destruct sub; [contradiction | simpl; lia]].
        apply disjoint_from_tail in Hrest.
        apply IH in Hrest; [|exact Hne].
        rewrite length_map in Hrest. simpl. lia.
      * assert (H1 : disjoint_from sub (c :: t) 1 ps = true).
        { destruct ps as [|p rest]; [reflexivity|].
          cbn [disjoint_from] in *.
          apply andb_true_iff in H. destruct H as [H Hrest].
          apply andb_true_iff in H. destruct H as [_ Hocc].
          rewrite Hocc, Hrest, andb_true_r.
          destruct p as [|p]; [cbn [skipn] in Hocc; congruence | reflexivity]. }
        apply disjoint_from_tail in H1. apply IH in H1; [|exact Hne].
        rewrite length_map in H1. exact H1.
    + apply disjoint_from_tail in H. apply IH in H; [|exact Hne].
      rewrite length_map in H. exact H.
Qed.

Lemma count_scan_attained : forall sub s skip,
  sub <> [] ->
  exists ps, disjoint_from sub s skip ps = true /\ length ps = count_scan sub s skip.
Proof.
  intros sub s. induction s as [|c t IH]; intros skip Hne.
  - exists []. split; reflexivity.
  - cbn [count_scan]. destruct skip as [|k].
    + destruct (startswith sub (c :: t)) eqn:E.
      * destruct (IH (length sub - 1) Hne) as (ps & Hps & Hlen).
        exists (0 :: map S ps). split; [|simpl; rewrite length_map, Hlen; reflexivity].
        cbn [disjoint_from skipn Nat.leb Nat.add]. rewrite E. cbn [andb].
        replace (length sub) with (S (length sub - 1))
          by (destruct sub; [contradiction | simpl; lia]).
        apply disjoint_from_cons.
        replace (S (length sub - 1) - 1) with (length sub - 1) in Hps by lia.
        exact Hps.
      * destruct (IH 0 Hne) as (ps & Hps & Hlen).
        exists (map S ps). split; [|rewrite length_map; exact Hlen].
        apply (disjoint_from_lower _ _ 1); [lia|].
        apply disjoint_from_cons. exact Hps.
    + destruct (IH k Hne) as (ps & Hps & Hlen).
      exists (map S ps). split; [|rewrite length_map; exact Hlen].
      apply disjoint_from_cons. exact Hps.
Qed.

Lemma str_count_most_disjoint : forall sub s,
  sub <> [] -> most_disjoint sub s (str_count s sub).
Proof.
  intros sub s Hne. unfold str_count. destruct sub as [|a sub]; [contradiction|].
  split.
  - apply count_scan_attained. discriminate.
  - intros ps H. apply count_scan_most; [discriminate | exact H].
Qed.

(** Where no two occurrences overlap, the scan finds every occurrence. *)
Lemma count_scan_positions : forall sub s skip,
  no_overlap sub s ->
  (forall p, p < skip -> startswith sub (skipn p s) = false) ->
  count_scan sub s skip = positions sub s.
Proof.
  intros sub s. induction s as [|c t IH]; intros skip Hno Hskip; [reflexivity|].
  assert (Hno_t : no_overlap sub t).
  { intros p k Hocc Hk. apply (Hno (S p) k); assumption. }
  cbn [count_scan positions]. destruct skip as [|k].
  - destruct (startswith sub (c :: t)) eqn:E.
    + cbn [Nat.add]. f_equal. apply IH; [exact Hno_t|].
      intros p Hp. apply (Hno 0 (S p)); [exact E | lia].
    + apply IH; [exact Hno_t | intros p Hp; lia].
  - pose proof (Hskip 0 ltac:(lia)) as Hhead. cbn [skipn] in Hhead.
    rewrite Hhead. apply IH; [exact Hno_t|].
    intros p Hp. apply (Hskip (S p)). lia.
Qed.

Lemma str_count_positions : forall sub s,
  sub <> [] -> no_overlap sub s -> str_count s sub = positions sub s.
Proof.
  intros sub s Hne Hno. unfold str_count. destruct sub as [|a sub]; [contradiction|].
  apply count_scan_positions; [exact Hno | intros p Hp; lia].
Qed.

Lemma prefix_of_prefix : forall (a b r : str),
  startswith a (b ++ r) = true -> length b <= length a -> startswith b a = true.
Proof.
  intros a b r H Hlen. apply StringFacts.startswith_iff in H. destruct H as (t & H).
  apply StringFacts.startswith_iff. exists (skipn (length b) a).
  rewrite <- (firstn_skipn (length b) a) at 1. f_equal.
  apply (f_equal (firstn (length b))) in H.
  rewrite firstn_app, Nat.sub_diag, firstn_all, app_nil_r in H.
  rewrite firstn_app in H.
  replace (length b - length a) with 0 in H by lia.
  rewrite app_nil_r in H. symmetry. exact H.
Qed.

Lemma borderless_no_overlap : forall sub s,
  borderless sub = true -> no_overlap sub s.
Proof.
  intros sub s Hb p k Hocc Hk.
  destruct (startswith sub (skipn (p + k) s)) eqn:E; [exfalso | reflexivity].
  apply StringFacts.startswith_iff in Hocc. destruct Hocc as (r & Hr).
  rewrite Nat.add_comm, <- skipn_skipn, Hr, skipn_app in E.
  replace (k - length sub) with 0 in E by lia. cbn [skipn] in E.
  apply prefix_of_prefix in E; [|rewrite length_skipn; lia].
  unfold borderless in Hb. rewrite forallb_forall in Hb.
  specialize (Hb k). rewrite E in Hb.
  discriminate Hb. apply in_seq. lia.
Qed.

Lemma occurrence_in_text : forall sub s p,
  startswith sub (skipn p s) = true -> str_in sub s = true.
Proof.
  intros sub s p H. apply StringFacts.startswith_iff in H. destruct H as (r & Hr).
  apply StringFacts.str_in_iff. exists (firstn p s), r.
  rewrite <- Hr. symmetry. apply firstn_skipn.
Qed.

(** Two occurrences of a doubled character overlap only where the
    character stands three times. *)
Lemma doubled_no_overlap : forall c s,
  str_in [c; c; c] s = false -> no_overlap [c; c] s.
Proof.
  intros c s Hno p k Hocc Hk. cbn [length] in Hk. assert (k = 1) by lia. subst k.
  destruct (startswith [c; c] (skipn (p + 1) s)) eqn:E; [exfalso | reflexivity].
  assert (Htriple : startswith [c; c; c] (skipn p s) = true).
  { rewrite Nat.add_comm, <- skipn_skipn in E.
    destruct (skipn p s) as [|x [|y [|z w]]]; cbn [startswith skipn] in *;
      try discriminate.
    - rewrite andb_false_r in E. discriminate E.
    - apply andb_true_iff in Hocc. destruct Hocc as [Hx Hocc].
      apply andb_true_iff in Hocc. destruct Hocc as [Hy _].
      apply andb_true_iff in E. destruct E as [_ E].
      apply andb_true_iff in E. destruct E as [Hz _].
      rewrite Hx, Hy, Hz. reflexivity. }
  apply occurrence_in_text in Htriple. congruence.
Qed.

Lemma most_disjoint_unique : forall sub s n m,
  most_disjoint sub s n -> most_disjoint sub s m -> n = m.
Proof.
  intros sub s n m ((ps & Hps & <-) & Hn) ((qs & Hqs & <-) & Hm).
  apply Nat.le_antisymm; [apply Hm | apply Hn]; assumption.
Qed.

(** C3, as the claim has it, fails where occurrences overlap: in [a&&&b]
    the operator occurs at two positions, and the complexity is 2, not 3. *)
Lemma overlapping_operators_count_once :
  positions (u "&&") overlapping_and = 2 /\
  cyclomatic_complexity (_calculate_function_complexity overlapping_and) = 2 /\
  cyclomatic_complexity (_calculate_function_complexity overlapping_and) <>
  1 + list_sum (map (fun token => positions token overlapping_and) decision_tokens).
Proof.
  split; [vm_compute; reflexivity|]. split; [vm_compute; reflexivity|].
  vm_compute. discriminate.
Qed.

(** C3, as the code has it.  The cyclomatic complexity of a body is one
    more than the sum of seven counts, one for each decision token.  The
    count of a token is the largest number of its occurrences in the raw
    text of which no two overlap; it is the number of all the positions at
    which the token occurs when no two occurrences overlap, which is so for
    the five words in every text and for an operator in a text that does
    not have its character three times in a row.  An occurrence counts
    wherever it stands, in a comment or in a string literal too. *)
Theorem cyclomatic_complexity_counts :
  (forall func_body,
     exists counts,
       cyclomatic_complexity (_calculate_function_complexity func_body) =
         1 + list_sum counts /\
       Forall2 (fun token n =>
                  most_disjoint token func_body n /\
                  (no_overlap token func_body -> n = positions token func_body))
               decision_tokens counts) /\
  (forall func_body,
     Forall (fun word => no_overlap word func_body) decision_words /\
     (str_in (u "&&&") func_body = false -> no_overlap (u "&&") func_body) /\
     (str_in (u "|||") func_body = false -> no_overlap (u "||") func_body)) /\
  Forall (fun token =>
            forall before after,
              2 <= cyclomatic_complexity
                     (_calculate_function_complexity (before ++ token ++ after)))
         decision_tokens /\
  cyclomatic_complexity
    (_calculate_function_complexity (u "{ /* if (a && b) */ }")) = 3 /\
  cyclomatic_complexity
    (_calculate_function_complexity
       (u "{ s = " ++ [dquote] ++ u "while" ++ [dquote] ++ u "; }")) = 2.
Proof.
  assert (Hsum : forall func_body,
     cyclomatic_complexity (_calculate_function_complexity func_body) =
     1 + list_sum (map (str_count func_body) decision_tokens)).
  { intros func_body. unfold _calculate_function_complexity, decision_tokens.
    cbn [cyclomatic_complexity map list_sum fold_right]. lia. }
  split.
  { intros func_body. exists (map (str_count func_body) decision_tokens).
    split; [apply Hsum|].
    assert (Hne : Forall (fun token => token <> []) decision_tokens)
      by (unfold decision_tokens; repeat constructor; discriminate).
    revert Hne. generalize decision_tokens.
    induction 1 as [|token tokens Htoken _ IH]; cbn [map]; constructor;
      [|exact IH].
    split; [apply str_count_most_disjoint; exact Htoken|].
    intros Hno. apply str_count_positions; assumption. }
  split.
  { intros func_body. split; [|split].
    - unfold decision_words.
      repeat constructor; apply borderless_no_overlap; vm_compute; reflexivity.
    - apply (doubled_no_overlap (ch "&")).
    - apply (doubled_no_overlap (ch "|")). }
  split.
  { unfold decision_tokens.
    repeat constructor; intros before after; rewrite Hsum;
      unfold decision_tokens; cbn [map list_sum fold_right];
      match goal with
      | |- context [before ++ ?token ++ after] =>
          pose proof (PyFacts.str_in_counted token (before ++ token ++ after)
                        ltac:(vm_compute; discriminate)
                        (PyFacts.str_in_app before token after))
      end; lia. }
  split; vm_compute; reflexivity.
Qed.

Lemma no_function_aggregate_general :
  forall unicode_isalnum content,
    _extract_functions unicode_isalnum content = [] ->
    _calculate_file_complexity unicode_isalnum content =
    {| total_functions := 0; average_complexity := 0; max_complexity := 0;
       complex_functions := None |}.
Proof.
  intros unicode_isalnum content H.
  unfold _calculate_file_complexity. rewrite H. reflexivity.
Qed.

(** C8.  With no function in the text, [_calculate_file_complexity] gives
    zero for the total, the average and the maximum, and leaves out the
    count of complex functions, which its other [return] gives. *)
Theorem no_function_aggregate :
  forall unicode_isalnum,
    _extract_functions unicode_isalnum (u "int x;") = [] /\
    _calculate_file_complexity unicode_isalnum (u "int x;") =
    {| total_functions := 0; average_complexity := 0; max_complexity := 0;
       complex_functions := None |}.
Proof.
  intros unicode_isalnum.
  assert (H : _extract_functions unicode_isalnum (u "int x;") = [])
    by (vm_compute; reflexivity).
  split; [exact H|]. apply no_function_aggregate_general. exact H.
Qed.

(** With a function in the text the count is there. *)
Example one_function_aggregate :
  complex_functions
    (_calculate_file_complexity (fun _ => false) (u "int f() { return 0; }")) =
  Some 0.
Proof. vm_compute. reflexivity. Qed.

(** C9.  An object-like macro whose value has a parenthesis is flagged as
    function-like, although no parenthesis follows its name. *)
Theorem object_like_macro_flagged :
  forall unicode_isalnum,
    exists m,
      finditer (macro_pattern unicode_isalnum) object_like_macro = [m] /\
      macro_name (macro_record object_like_macro m) = u "FOO" /\
      macro_value (macro_record object_like_macro m) = u "(1+2)" /\
      paren_follows_name object_like_macro m = false /\
      is_function_like (macro_record object_like_macro m) = true.
Proof.
  intros unicode_isalnum.
  exists (mk_match 0 17 [(2, (12, 17)); (1, (8, 11))]).
  repeat split; vm_compute; reflexivity.
Qed.

(** The flag is the presence of a parenthesis anywhere in the directive. *)
Lemma is_function_like_paren_anywhere : forall content m,
  is_function_like (macro_record content m) =
  str_in [ch "("] (group0 content m).
Proof. reflexivity. Qed.

End ParserFacts.

(** ** The memory pass of the static analyzer *)

Module AnalyzerFacts.
Import Py Analyzer.

Lemma collect_lines_lengths : forall lines k malloc_lines free_lines,
  let '(ml, fl) := collect_lines (enumerate_from k lines) malloc_lines free_lines in
  length ml = length malloc_lines + length (filter has_alloc_call lines) /\
  length fl = length free_lines + length (filter (str_in (u "free(")) lines).
Proof.
  induction lines as [|l lines IH]; intros k malloc_lines free_lines.
  - simpl. lia.
  - cbn [enumerate_from collect_lines filter].
    specialize (IH (S k)
      (if has_alloc_call l then malloc_lines ++ [k + 1] else malloc_lines)
      (if str_in (u "free(") l then free_lines ++ [k + 1] else free_lines)).
    destruct (collect_lines (enumerate_from (S k) lines) _ _) as [ml fl].
    destruct IH as [Hm Hf]. rewrite Hm, Hf.
    destruct (has_alloc_call l), (str_in (u "free(") l);
      rewrite ?length_app; simpl; lia.
Qed.

Lemma null_check_issues_have_lines : forall lines,
  count_findings (null_check_issues lines) = [].
Proof.
  intros lines. unfold null_check_issues, count_findings.
  generalize (enumerate lines) as numbered.
  induction numbered as [|[i l] numbered IH]; [reflexivity|].
  cbn [flat_map]. rewrite filter_app, IH, app_nil_r.
  destruct (has_alloc_call l && str_in [ch "="] l); [|reflexivity].
  destruct (null_check_found lines i); reflexivity.
Qed.

(** What the pass compares: the number of lines with an allocation call
    and the number of lines with a call of [free]. *)
Lemma memory_pass_counts_lines : forall content file_path,
  let lines := split_on nl content in
  let mallocs := length (filter has_alloc_call lines) in
  let frees := length (filter (str_in (u "free(")) lines) in
  count_findings (_check_memory_patterns content file_path) =
  if frees <? mallocs then [count_mismatch_issue mallocs frees] else [].
Proof.
  intros content file_path lines mallocs frees.
  unfold _check_memory_patterns. fold lines.
  pose proof (collect_lines_lengths lines 0 [] []) as H.
  unfold enumerate.
  destruct (collect_lines (enumerate_from 0 lines) [] []) as [ml fl].
  destruct H as [Hm Hf]. simpl in Hm, Hf. rewrite Hm, Hf.
  fold mallocs frees.
  unfold count_findings. rewrite filter_app.
  fold (count_findings (null_check_issues lines)).
  rewrite null_check_issues_have_lines, app_nil_r.
  destruct (frees <? mallocs); reflexivity.
Qed.

(** C4.  Two allocation calls on one line and one call of [free]: the pass
    counts one line against one line and has no finding on the counts. *)
Theorem two_allocations_on_one_line :
  allocation_calls two_calls_one_line = 2 /\
  free_calls two_calls_one_line = 1 /\
  count_findings (_check_memory_patterns two_calls_one_line (u "leak.c")) = [] /\
  map line (_check_memory_patterns two_calls_one_line (u "leak.c")) = [Some 1].
Proof. vm_compute. auto. Qed.

(** With the two allocation calls on two lines the finding is there and
    cites 2 and 1. *)
Example two_allocations_on_two_lines :
  let content :=
    u "p = malloc(4);" ++ [nl] ++ u "q = malloc(4);" ++ [nl] ++ u "free(p);" in
  count_findings (_check_memory_patterns content (u "leak.c")) =
    [count_mismatch_issue 2 1] /\
  message (count_mismatch_issue 2 1) = u "malloc/calloc(2)とfree(1)の数が不一致" /\
  severity (count_mismatch_issue 2 1) = u "medium" /\
  category (count_mismatch_issue 2 1) = u "memory".
Proof. vm_compute. auto. Qed.

End AnalyzerFacts.

(** ** Shell patterns *)

Module FnmatchFacts.
Import Py Fnmatch.


Lemma until_close_shorter : forall s mid rest,
  until_close s = Some (mid, rest) -> length rest < length s.
Proof.
  induction s as [|c t IH]; intros mid rest H; cbn [until_close] in H.
  - discriminate.
  - destruct (char_eqb c (ch "]")).
    + injection H as <- <-. simpl. lia.
    + destruct (until_close t) as [[mid' rest']|] eqn:E; [|discriminate].
      injection H as <- <-. specialize (IH _ _ eq_refl). simpl. lia.
Qed.

Lemma bracket_shorter : forall s stuff rest,
  bracket s = Some (stuff, rest) -> length rest < length s.
Proof.
  intros s stuff rest H. unfold bracket in H.
  destruct s as [|c t]; [discriminate|].
  destruct (char_eqb c (ch "!")).
  - destruct t as [|d t']; [discriminate|].
    destruct (char_eqb d (ch "]")).
    + destruct (until_close t') as [[mid r]|] eqn:E; [|discriminate].
      injection H as <- <-. apply until_close_shorter in E. simpl. lia.
    + destruct (until_close (d :: t')) as [[mid r]|] eqn:E; [|discriminate].
      injection H as <- <-. apply until_close_shorter in E. simpl in *. lia.
  - destruct (char_eqb c (ch "]")).
    + destruct (until_close t) as [[mid r]|] eqn:E; [|discriminate].
      injection H as <- <-. apply until_close_shorter in E. simpl. lia.
    + destruct (until_close (c :: t)) as [[mid r]|] eqn:E; [|discriminate].
      injection H as <- <-. apply until_close_shorter in E. exact E.
Qed.

(** The fuel of [parse_glob] is enough: more fuel than the length of the
    pattern gives the same parts. *)
Lemma parse_glob_fuel : forall fuel1 fuel2 pat,
  length pat <= fuel1 -> length pat <= fuel2 ->
  parse_glob fuel1 pat = parse_glob fuel2 pat.
Proof.
  induction fuel1 as [|fuel1 IH]; intros fuel2 pat H1 H2.
  - destruct pat; [|simpl in H1; lia]. destruct fuel2; reflexivity.
  - destruct pat as [|c rest]; [destruct fuel2; reflexivity|].
    destruct fuel2 as [|fuel2]; [simpl in H2; lia|].
    simpl in H1, H2. cbn [parse_glob].
    destruct (char_eqb c asterisk); [f_equal; apply IH; lia|].
    destruct (char_eqb c (ch "?")); [f_equal; apply IH; lia|].
    destruct (char_eqb c (ch "[")); [|f_equal; apply IH; lia].
    destruct (bracket rest) as [[stuff after]|] eqn:E.
    + apply bracket_shorter in E. f_equal. apply IH; lia.
    + f_equal. apply IH; lia.
Qed.









(** Bracket expressions. *)
Example fnmatch_brackets :
  fnmatch (u "main.c") (u "m*n.[ch]") = true /\
  fnmatch (u "main.cc") (u "m*n.[ch]") = false /\
  fnmatch (u "a-") (u "[!b-d][a-]") = true /\
  fnmatch (u "[x") (u "[x") = true /\
  fnmatch (u "]") (u "[]]") = true /\
  fnmatch (u "b") (u "[z-a]") = false /\
  fnmatch (u "d") (u "[a-c-e]") = false.
Proof. vm_compute. repeat split. Qed.

(** The case of a letter matters. *)
Example fnmatch_case :
  fnmatch (u "main.c") (u "*.c") = true /\
  fnmatch (u "MAIN.C") (u "*.c") = false /\
  fnmatch (u "src/main.c") (u "*.c") = true.
Proof. vm_compute. auto. Qed.

End FnmatchFacts.

(** ** The rule engine *)

Module RuleEngineFacts.
Import Py Fnmatch RuleEngine.

Section Evaluation.

Variable lower : str -> str.
Variables code_content file_path : str.

Lemma fold_rules_state : forall category rules st,
  fold_left (eval_rule_step lower code_content file_path category) rules st =
  mk_state
    (st_total_rules st + length rules)
    (st_violations st +
     length (flat_map (rule_violations lower code_content file_path category) rules))
    (st_applied_rules st ++ map (applied_entry category) rules)
    (st_violation_list st ++
     flat_map (rule_violations lower code_content file_path category) rules).
Proof.
  intros category rules.
  induction rules as [|rule rules IH]; intros st.
  - destruct st; simpl. rewrite !Nat.add_0_r, !app_nil_r. reflexivity.
  - simpl fold_left. rewrite IH.
    unfold eval_rule_step, rule_violations, applied_entry. simpl.
    destruct (_evaluate_rule lower rule code_content file_path); simpl;
      rewrite ?length_app, <- ?app_assoc; simpl; f_equal; lia.
Qed.

Lemma fold_items_state : forall items st,
  fold_left (eval_category_step lower code_content file_path) items st =
  mk_state
    (st_total_rules st + length (flat_map item_entries items))
    (st_violations st +
     length (flat_map (item_violations lower code_content file_path) items))
    (st_applied_rules st ++ flat_map item_entries items)
    (st_violation_list st ++
     flat_map (item_violations lower code_content file_path) items).
Proof.
  induction items as [|[category rules] items IH]; intros st.
  - destruct st; simpl. rewrite !Nat.add_0_r, !app_nil_r. reflexivity.
  - simpl fold_left. rewrite IH. unfold eval_category_step.
    rewrite fold_rules_state. simpl.
    change (item_entries (category, rules))
      with (map (applied_entry category) rules).
    change (item_violations lower code_content file_path (category, rules))
      with (flat_map (rule_violations lower code_content file_path category) rules).
    rewrite !length_app, !length_map, <- !app_assoc. f_equal; lia.
Qed.

Lemma rule_violations_le_1 : forall category rule,
  length (rule_violations lower code_content file_path category rule) <= 1.
Proof.
  intros. unfold rule_violations.
  destruct (_evaluate_rule lower rule code_content file_path); simpl; lia.
Qed.

Lemma rule_violations_count : forall category rules,
  length (flat_map (rule_violations lower code_content file_path category) rules) =
  length (filter (rule_violated lower code_content file_path) rules).
Proof.
  intros category rules. induction rules as [|rule rules IH]; simpl; auto.
  rewrite length_app, IH. unfold rule_violations, rule_violated.
  destruct (_evaluate_rule lower rule code_content file_path); reflexivity.
Qed.

Lemma item_entries_count : forall items,
  length (flat_map item_entries items) = length (concat (map snd items)).
Proof.
  induction items as [|[category rules] items IH]; simpl; auto.
  change (item_entries (category, rules))
    with (map (applied_entry category) rules).
  rewrite !length_app, length_map, IH. reflexivity.
Qed.

Lemma item_violations_count : forall items,
  length (flat_map (item_violations lower code_content file_path) items) =
  length (filter (rule_violated lower code_content file_path) (concat (map snd items))).
Proof.
  induction items as [|[category rules] items IH]; simpl; auto.
  change (item_violations lower code_content file_path (category, rules))
    with (flat_map (rule_violations lower code_content file_path category) rules).
  rewrite filter_app, !length_app, IH, rule_violations_count. reflexivity.
Qed.

Lemma filter_length_le_all : forall (A : Type) (f : A -> bool) (l : list A),
  length (filter f l) <= length l.
Proof.
  intros A f l. induction l as [|x l IH]; simpl; auto.
  destruct (f x); simpl; lia.
Qed.

Lemma violations_le_entries : forall items,
  length (flat_map (item_violations lower code_content file_path) items) <=
  length (flat_map item_entries items).
Proof.
  intros items. rewrite item_violations_count, item_entries_count.
  apply filter_length_le_all.
Qed.

(** The result of [_evaluate_file], without the loops. *)
Lemma evaluate_file_closed_form : forall standards rules_category,
  let items := rules_to_evaluate standards file_path rules_category in
  let result := _evaluate_file lower standards file_path code_content rules_category in
  applied_rules result = flat_map item_entries items /\
  violations result = flat_map (item_violations lower code_content file_path) items /\
  total_rules (summary result) = length (flat_map item_entries items) /\
  violations_found (summary result) =
    length (flat_map (item_violations lower code_content file_path) items).
Proof.
  intros standards rules_category items result.
  unfold result, _evaluate_file. fold items.
  rewrite fold_items_state. simpl. auto.
Qed.

End Evaluation.

Lemma applicable_rules_concat : forall standards file_path,
  concat (map snd (_get_applicable_rules standards file_path)) =
  filter (rule_applies file_path) (concat (map snd standards)).
Proof.
  induction standards as [|[category rules] standards IH]; intros file_path; simpl; auto.
  rewrite filter_app, <- IH.
  destruct (filter (rule_applies file_path) rules) eqn:E; simpl; reflexivity.
Qed.

Lemma rules_to_evaluate_counted : forall standards file_path rules_category,
  concat (map snd (rules_to_evaluate standards file_path rules_category)) =
  counted_rules standards file_path rules_category.
Proof.
  intros standards file_path [[|c cs]|]; unfold rules_to_evaluate, counted_rules;
    simpl; rewrite ?app_nil_r; auto using applicable_rules_concat.
Qed.

Lemma score_of_counts_bounds : forall a v,
  v <= a -> (0 <= score_of_counts a v /\ score_of_counts a v <= 100)%Q.
Proof.
  intros a v Hle. unfold score_of_counts.
  destruct a as [|a]; simpl Nat.eqb; cbv iota.
  - split; unfold Qle; simpl; lia.
  - assert (Hpos : (0 <= Z.of_nat (S a) - Z.of_nat v <= Z.of_nat (S a))%Z) by lia.
    remember (Z.of_nat (S a) - Z.of_nat v)%Z as n.
    replace (Z.of_nat (S a)) with (Z.pos (Pos.of_succ_nat a)) in * by lia.
    unfold Qle, Qmult, Qdiv, Qinv, inject_Z; simpl. split; nia.
Qed.

(** C10.  The result of [_evaluate_file] is consistent: the summary counts
    the applied rules and the violations of the two lists, and the list of
    violations is never longer than the list of applied rules. *)
Theorem evaluation_result_consistent :
  forall lower standards file_path code_content rules_category,
    let result :=
      _evaluate_file lower standards file_path code_content rules_category in
    total_rules (summary result) = length (applied_rules result) /\
    violations_found (summary result) = length (violations result) /\
    length (violations result) <= length (applied_rules result).
Proof.
  intros lower standards file_path code_content rules_category result.
  destruct (evaluate_file_closed_form lower code_content file_path
              standards rules_category) as (Ha & Hv & Ht & Hf).
  fold result in Ha, Hv, Ht, Hf.
  rewrite Ha, Hv, Ht, Hf. repeat split.
  apply violations_le_entries.
Qed.

(** The spec's formula against the float of the code: three applicable
    rules of which two are violated give the float nearest to a third,
    times 100 and rounded again, which is not 100/3. *)
Lemma third_is_not_a_float :
  let result :=
    _evaluate_file ascii_lower three_rules (u "main.c") leaking_call None in
  length (applied_rules result) = 3 /\
  length (violations result) = 2 /\
  ~ (compliance_score (summary result) == score_of_counts 3 2)%Q /\
  (compliance_score (summary result) == 2345624805922133 # 70368744177664)%Q.
Proof.
  cbv zeta. split; [vm_compute; reflexivity|]. split; [vm_compute; reflexivity|].
  split; [intros H; vm_compute in H; discriminate H | vm_compute; reflexivity].
Qed.

(** C1.  With [a] applicable rules of which [v] are violated, the
    compliance score of a file is 100 when [a] is zero and otherwise the
    float of [(a - v) / a * 100]: the quotient rounded to the nearest float,
    times 100, rounded again.  It is within [2^-46] of the exact value, and
    it lies between 0 and 100. *)
Theorem compliance_score_formula :
  forall lower standards file_path code_content rules_category,
    let applicable := counted_rules standards file_path rules_category in
    let applicable_rule_count := length applicable in
    let violated_rule_count :=
      length (filter (rule_violated lower code_content file_path) applicable) in
    let result :=
      _evaluate_file lower standards file_path code_content rules_category in
    let score := compliance_score (summary result) in
    let exact := score_of_counts applicable_rule_count violated_rule_count in
    length (applied_rules result) = applicable_rule_count /\
    length (violations result) = violated_rule_count /\
    score =
      (if applicable_rule_count =? 0 then 100%Q
       else Float.float_mul
              (Float.int_truediv
                 (Z.of_nat applicable_rule_count - Z.of_nat violated_rule_count)
                 (Z.of_nat applicable_rule_count))
              100) /\
    (exact - Float.pow2 (-46) <= score)%Q /\
    (score <= exact + Float.pow2 (-46))%Q /\
    (0 <= score)%Q /\ (score <= 100)%Q.
Proof.
  intros lower standards file_path code_content rules_category
         applicable applicable_rule_count violated_rule_count result score exact.
  destruct (evaluate_file_closed_form lower code_content file_path
              standards rules_category) as (Ha & Hv & Ht & Hf).
  fold result in Ha, Hv, Ht, Hf.
  assert (Hcount : length (applied_rules result) = applicable_rule_count).
  { rewrite Ha, item_entries_count, rules_to_evaluate_counted. reflexivity. }
  assert (Hviol : length (violations result) = violated_rule_count).
  { rewrite Hv, item_violations_count, rules_to_evaluate_counted. reflexivity. }
  assert (Hle : violated_rule_count <= applicable_rule_count)
    by apply filter_length_le_all.
  assert (Hscore : score =
            if applicable_rule_count =? 0 then 100%Q
            else Float.float_mul
                   (Float.int_truediv
                      (Z.of_nat applicable_rule_count - Z.of_nat violated_rule_count)
                      (Z.of_nat applicable_rule_count))
                   100).
  { assert (Hdef : score =
              if 0 <? total_rules (summary result)
              then Float.float_mul
                     (Float.int_truediv
                        (Z.of_nat (total_rules (summary result)) -
                         Z.of_nat (violations_found (summary result)))
                        (Z.of_nat (total_rules (summary result))))
                     100
              else 100%Q) by reflexivity.
    rewrite Hdef, Ht, Hf, <- Ha, <- Hv, Hcount, Hviol.
    destruct applicable_rule_count; reflexivity. }
  split; [exact Hcount|]. split; [exact Hviol|]. split; [exact Hscore|].
  rewrite Hscore. unfold exact, score_of_counts.
  destruct applicable_rule_count as [|n] eqn:En; cbn [Nat.eqb].
  - change (Float.pow2 (-46)) with (1 # 70368744177664)%Q.
    repeat split; lra.
  - assert (Hrange : (0 <= Z.of_nat violated_rule_count <= Z.of_nat (S n))%Z) by lia.
    assert (Hpos : (0 < Z.of_nat (S n))%Z) by lia.
    destruct (FloatFacts.percentage_near _ _ Hrange Hpos) as (N1 & N2).
    destruct (FloatFacts.percentage_bounds _ _ Hrange Hpos) as (B1 & B2).
    repeat split; first [exact B1 | exact B2 | lra].
Qed.






Lemma performance_scan_first : forall suffix prefix description v,
  performance_scan (enumerate_from (length prefix) suffix)
    (fold_left update_in_loop prefix false) description = Some v ->
  exists i line,
    nth_error (prefix ++ suffix) i = Some line /\
    line_number v = Some (i + 1) /\
    allocation_in_loop (prefix ++ suffix) i line = true /\
    forall j l, length prefix <= j < i -> nth_error (prefix ++ suffix) j = Some l ->
                allocation_in_loop (prefix ++ suffix) j l = false.
Proof.
  induction suffix as [|x rest IH]; intros prefix description v H; simpl in H.
  - discriminate.
  - assert (Hflag : fold_left update_in_loop (firstn (S (length prefix)) (prefix ++ x :: rest)) false
                    = update_in_loop (fold_left update_in_loop prefix false) x).
    { replace (S (length prefix)) with (length prefix + 1) by lia.
      rewrite firstn_app_2. simpl. rewrite fold_left_app. reflexivity. }
    assert (Hnth : nth_error (prefix ++ x :: rest) (length prefix) = Some x).
    { rewrite nth_error_app2 by lia. rewrite Nat.sub_diag. reflexivity. }
    destruct (update_in_loop (fold_left update_in_loop prefix false) x &&
              (str_in (u "malloc(") x || str_in (u "calloc(") x)) eqn:E.
    + injection H as <-. exists (length prefix), x. simpl.
      repeat split; auto.
      * unfold allocation_in_loop. rewrite Hflag. exact E.
      * intros j l Hj. lia.
    + specialize (IH (prefix ++ [x]) description v).
      rewrite length_app, fold_left_app in IH. simpl in IH.
      rewrite Nat.add_1_r in IH.
      destruct (IH H) as (i & line & Hi & Hline & Hcond & Hbefore).
      rewrite <- app_assoc in Hi, Hcond, Hbefore. simpl in Hi, Hcond, Hbefore.
      exists i, line. repeat split; auto.
      intros j l Hj Hl.
      destruct (Nat.eq_dec j (length prefix)) as [->|Hne].
      * rewrite Hnth in Hl. injection Hl as <-.
        unfold allocation_in_loop. rewrite Hflag. exact E.
      * apply Hbefore; auto. lia.
Qed.

(** A loop that returns at the first hit returns when there is a hit. *)
Lemma for_first_fires : forall (A B : Type) (body : A -> option B) xs x,
  In x xs -> body x <> None -> exists v, for_first body xs = Some v.
Proof.
  intros A B body xs x. induction xs as [|y xs IH]; intros Hin Hx;
    [contradiction|].
  cbn [for_first]. destruct (body y) as [v|] eqn:Ey; [exists v; reflexivity|].
  destruct Hin as [-> | Hin]; [congruence | apply IH; assumption].
Qed.

Lemma nth_error_enumerate : forall (A : Type) (xs : list A) k i x,
  nth_error xs i = Some x -> In (k + i, x) (enumerate_from k xs).
Proof.
  induction xs as [|y xs IH]; intros k i x H; [destruct i; discriminate H|].
  cbn [enumerate_from]. destruct i as [|i]; cbn [nth_error] in H.
  - injection H as ->. left. rewrite Nat.add_0_r. reflexivity.
  - right. replace (k + S i) with (S k + i) by lia. apply IH. exact H.
Qed.

Lemma performance_scan_fires : forall suffix in_loop k description j line,
  nth_error suffix j = Some line ->
  fold_left update_in_loop (firstn (S j) suffix) in_loop &&
  (str_in (u "malloc(") line || str_in (u "calloc(") line) = true ->
  exists v, performance_scan (enumerate_from k suffix) in_loop description = Some v.
Proof.
  induction suffix as [|x rest IH]; intros in_loop k description j line Hnth Hhit;
    [destruct j; discriminate Hnth|].
  cbn [enumerate_from performance_scan].
  destruct (update_in_loop in_loop x &&
            (str_in (u "malloc(") x || str_in (u "calloc(") x)) eqn:E;
    [eexists; reflexivity|].
  destruct j as [|j]; cbn [nth_error] in Hnth.
  - injection Hnth as ->. cbn [firstn fold_left] in Hhit. congruence.
  - eapply IH; [exact Hnth|]. cbn [firstn fold_left] in Hhit. exact Hhit.
Qed.

(** C6.  Every rule adds at most one violation for a file.  A check that
    goes through several candidates returns a violation whenever one of
    them matches, and then the violation of the first that matches (the
    first function of its catalogue, the first line of the file).  So the
    violations of a file are never more than its applied rules. *)
Theorem one_violation_per_rule :
  forall lower standards file_path code_content rules_category,
    let result :=
      _evaluate_file lower standards file_path code_content rules_category in
    let lines := split_on nl code_content in
    violations result =
      flat_map (item_violations lower code_content file_path)
               (rules_to_evaluate standards file_path rules_category) /\
    (forall category rule,
       length (rule_violations lower code_content file_path category rule) <= 1) /\
    (forall description v,
       _check_buffer_overflow code_content description = Some v ->
       exists before after,
         dangerous_functions = before ++ detected_pattern v :: after /\
         str_in (detected_pattern v ++ [ch "("]) code_content = true /\
         Forall (fun func => str_in (func ++ [ch "("]) code_content = false) before) /\
    (forall description v,
       _check_dangerous_functions code_content description = Some v ->
       exists before after,
         map fst dangerous_funcs = before ++ detected_pattern v :: after /\
         str_in (detected_pattern v ++ [ch "("]) code_content = true /\
         Forall (fun func => str_in (func ++ [ch "("]) code_content = false) before) /\
    (forall description v,
       _check_null_pointer code_content description = Some v ->
       exists i line,
         nth_error lines i = Some line /\
         line_number v = Some (i + 1) /\
         unchecked_allocation lines i line = true /\
         forall j l, j < i -> nth_error lines j = Some l ->
                     unchecked_allocation lines j l = false) /\
    (forall description v,
       _check_performance code_content description = Some v ->
       exists i line,
         nth_error lines i = Some line /\
         line_number v = Some (i + 1) /\
         allocation_in_loop lines i line = true /\
         forall j l, j < i -> nth_error lines j = Some l ->
                     allocation_in_loop lines j l = false) /\
    (forall description func,
       In func dangerous_functions ->
       str_in (func ++ [ch "("]) code_content = true ->
       exists v, _check_buffer_overflow code_content description = Some v) /\
    (forall description func,
       In func (map fst dangerous_funcs) ->
       str_in (func ++ [ch "("]) code_content = true ->
       exists v, _check_dangerous_functions code_content description = Some v) /\
    (forall description i line,
       nth_error lines i = Some line ->
       unchecked_allocation lines i line = true ->
       exists v, _check_null_pointer code_content description = Some v) /\
    (forall description i line,
       nth_error lines i = Some line ->
       allocation_in_loop lines i line = true ->
       exists v, _check_performance code_content description = Some v) /\
    length (violations result) <= length (applied_rules result).
Proof.
  intros lower standards file_path code_content rules_category result lines.
  destruct (evaluate_file_closed_form lower code_content file_path
              standards rules_category) as (Ha & Hv & _ & _).
  fold result in Ha, Hv.
  split; [exact Hv|].
  split; [apply rule_violations_le_1|].
  split.
  { intros description v H. unfold _check_buffer_overflow in H.
    apply PyFacts.for_first_some in H.
    destruct H as (before & func & after & Hsplit & Hbody & Hall).
    destruct (str_in (func ++ [ch "("]) code_content) eqn:E; [|discriminate].
    injection Hbody as <-. cbn [detected_pattern line_number]. exists before, after.
    repeat split; auto.
    eapply Forall_impl; [|exact Hall]. intros g Hg. cbv beta in Hg |- *.
    destruct (str_in (g ++ [ch "("]) code_content) eqn:Eg;
      [discriminate Hg|first [exact Eg|reflexivity]]. }
  split.
  { intros description v H. unfold _check_dangerous_functions in H.
    apply PyFacts.for_first_some in H.
    destruct H as (before & [dangerous safe] & after & Hsplit & Hbody & Hall).
    destruct (str_in (dangerous ++ [ch "("]) code_content) eqn:E; [|discriminate].
    injection Hbody as <-. cbn [detected_pattern line_number]. exists (map fst before), (map fst after).
    repeat split; auto.
    - rewrite Hsplit, map_app. reflexivity.
    - apply Forall_map. eapply Forall_impl; [|exact Hall].
      intros [g safe'] Hg. cbv beta iota in Hg |- *. cbn [fst].
      destruct (str_in (g ++ [ch "("]) code_content) eqn:Eg;
      [discriminate Hg|first [exact Eg|reflexivity]]. }
  split.
  { intros description v H. unfold _check_null_pointer in H. fold lines in H.
    apply PyFacts.for_first_enumerate in H.
    destruct H as (i & line & Hnth & Hbody & Hbefore). simpl in Hbody.
    destruct (unchecked_allocation lines i line) eqn:E; [|discriminate].
    injection Hbody as <-. cbn [detected_pattern line_number]. exists i, line. repeat split; auto.
    intros j l Hj Hl. specialize (Hbefore j l Hj Hl). simpl in Hbefore.
    destruct (unchecked_allocation lines j l) eqn:Ej;
      [discriminate Hbefore|reflexivity]. }
  split.
  { intros description v H. unfold _check_performance, enumerate in H.
    fold lines in H.
    destruct (performance_scan_first lines [] description v H)
      as (i & line & Hnth & Hline & Hcond & Hbefore).
    exists i, line. repeat split; auto.
    intros j l Hj Hl. apply Hbefore; auto. simpl. lia. }
  split.
  { intros description func Hin Hcall. unfold _check_buffer_overflow.
    eapply for_first_fires; [exact Hin|]. cbv beta. rewrite Hcall. discriminate. }
  split.
  { intros description func Hin Hcall. unfold _check_dangerous_functions.
    apply in_map_iff in Hin. destruct Hin as ([dangerous safe] & <- & Hin).
    eapply for_first_fires; [exact Hin|]. cbv beta iota. cbn [fst] in Hcall.
    rewrite Hcall. discriminate. }
  split.
  { intros description i line Hnth Hhit. unfold _check_null_pointer.
    fold lines. eapply for_first_fires.
    - apply (nth_error_enumerate _ lines 0 i line Hnth).
    - cbv beta iota. cbn [Nat.add]. rewrite Hhit. discriminate. }
  split.
  { intros description i line Hnth Hhit. unfold _check_performance, enumerate.
    fold lines. eapply performance_scan_fires; [exact Hnth | exact Hhit]. }
  rewrite Ha, Hv. apply violations_le_entries.
Qed.



(** Two dangerous calls: the check returns the function that comes first
    in its catalogue, not the one that comes first in the file. *)
Lemma one_violation_per_rule_example :
  exists v,
    _check_buffer_overflow (u "gets(s); strcpy(a, b);") (u "no buffer overflow")
      = Some v /\
    detected_pattern v = u "strcpy" /\
    str_in (detected_pattern v ++ [ch "("]) (u "gets(s); strcpy(a, b);") = true.
Proof.
  set (code := u "gets(s); strcpy(a, b);").
  destruct (_check_buffer_overflow code (u "no buffer overflow")) as [v|] eqn:E;
    [|vm_compute in E; discriminate E].
  exists v. split; [reflexivity|].
  pose proof (one_violation_per_rule ascii_lower [] (u "a.c") code None) as H.
  cbv zeta in H. destruct H as (_ & _ & Hfirst & _).
  destruct (Hfirst _ _ E) as (before & after & _ & Hin & _).
  split; [|exact Hin].
  vm_compute in E. injection E as <-. reflexivity.
Defined.

(** *** The classification of a rule *)

Ltac in_keywords :=
  cbv [all_keywords japanese_keywords family_order flat_map family_keywords app In];
  repeat first [left; vm_compute; reflexivity | right].

Section Classification.

Variable lower : str -> str.

(** What the classification needs of [str.lower]: it keeps the empty text
    and the keywords, which have no capital letter, and it neither makes
    nor breaks an occurrence of a keyword written in Japanese. *)
Hypothesis lower_empty : lower [] = [].
Hypothesis lower_keyword :
  forall keyword, In keyword all_keywords -> lower keyword = keyword.
Hypothesis lower_japanese :
  forall keyword text,
    In keyword japanese_keywords ->
    str_in keyword (lower text) = str_in keyword text.

Lemma family_matches_tests : forall description f,
  family_matches lower description f =
  match family_keywords f with
  | [japanese; english] =>
      str_in japanese description || str_in english (lower description)
  | _ => false
  end.
Proof.
  intros description f. unfold family_matches, occurs_ignoring_case.
  destruct f; cbn [family_keywords existsb];
    repeat match goal with
           | |- context [lower (u ?s)] =>
               rewrite (lower_keyword (u s)) by in_keywords
           end;
    match goal with
    | |- context [str_in ?k (lower ?d) || (_ || false)] =>
        rewrite (lower_japanese k d) by in_keywords
    end;
    rewrite orb_false_r; reflexivity.
Qed.

Lemma no_keyword_in_empty : forall f, family_matches lower [] f = false.
Proof.
  intros f. unfold family_matches, occurs_ignoring_case.
  destruct f; cbn [family_keywords existsb];
    repeat match goal with
           | |- context [lower (u ?s)] =>
               rewrite (lower_keyword (u s)) by in_keywords
           end;
    rewrite lower_empty; reflexivity.
Qed.

(** C5.  The description of a rule is tried against the seven families in
    their fixed order, a keyword counting wherever it occurs whatever the
    case; the check of the first family that matches is run, and the
    generic check when none does, as for the empty description, for which
    no violation and no error results. *)
Theorem family_dispatch :
  (forall rule code_content file_path,
     _evaluate_rule lower rule code_content file_path =
     match select_family lower (description rule) with
     | Some f => family_check f code_content (description rule)
     | None => _check_generic_rule lower rule code_content (description rule)
     end) /\
  (forall d1 d2, lower d1 = lower d2 ->
                 select_family lower d1 = select_family lower d2) /\
  select_family lower [] = None /\
  (forall rule code_content file_path,
     description rule = [] ->
     _evaluate_rule lower rule code_content file_path =
       _check_generic_rule lower rule code_content [] /\
     _evaluate_rule lower rule code_content file_path = None).
Proof.
  assert (Hdispatch : forall rule code_content file_path,
     _evaluate_rule lower rule code_content file_path =
     match select_family lower (description rule) with
     | Some f => family_check f code_content (description rule)
     | None => _check_generic_rule lower rule code_content (description rule)
     end).
  { intros rule code_content file_path.
    unfold _evaluate_rule, select_family, family_order. cbn [find].
    rewrite !family_matches_tests. cbn [family_keywords].
    rewrite (orb_comm (str_in (u "null") (lower (description rule)))).
    repeat match goal with
           | |- context [if ?b then _ else _] => destruct b
           end; reflexivity. }
  assert (Hempty : select_family lower [] = None).
  { unfold select_family, family_order. cbn [find].
    rewrite !no_keyword_in_empty. reflexivity. }
  split; [exact Hdispatch|].
  split.
  { intros d1 d2 H. unfold select_family, family_matches, occurs_ignoring_case.
    rewrite H. reflexivity. }
  split; [exact Hempty|].
  intros rule code_content file_path Hd.
  rewrite Hdispatch, Hd, Hempty. split; reflexivity.
Qed.

End Classification.

(** The restriction of [str.lower] to ASCII has the three properties. *)

Lemma ascii_lower_char_caseless : forall a b,
  ascii_letter a = false ->
  char_eqb a (ascii_lower_char b) = char_eqb a b.
Proof.
  intros a b. unfold ascii_letter, ascii_lower_char, char_eqb.
  destruct (N.leb_spec 65 a), (N.leb_spec a 90), (N.leb_spec 97 a),
    (N.leb_spec a 122); simpl; try discriminate; intros _;
    destruct (N.leb_spec 65 b), (N.leb_spec b 90); simpl; try reflexivity;
    destruct (N.eqb_spec a (b + 32)), (N.eqb_spec a b); try reflexivity; lia.
Qed.

Lemma startswith_ascii_lower : forall keyword text,
  forallb (fun c => negb (ascii_letter c)) keyword = true ->
  startswith keyword (ascii_lower text) = startswith keyword text.
Proof.
  induction keyword as [|a keyword IH]; intros text H.
  - reflexivity.
  - simpl in H. apply andb_true_iff in H. destruct H as [Ha H].
    apply negb_true_iff in Ha.
    destruct text as [|b text]; simpl; auto.
    rewrite ascii_lower_char_caseless by exact Ha.
    change (map ascii_lower_char text) with (ascii_lower text).
    rewrite IH by exact H. reflexivity.
Qed.

Lemma str_in_ascii_lower : forall keyword text,
  forallb (fun c => negb (ascii_letter c)) keyword = true ->
  str_in keyword (ascii_lower text) = str_in keyword text.
Proof.
  intros keyword text H. induction text as [|b text IH].
  - reflexivity.
  - change (ascii_lower (b :: text)) with (ascii_lower_char b :: ascii_lower text).
    change (str_in keyword (ascii_lower_char b :: ascii_lower text))
      with (startswith keyword (ascii_lower (b :: text)) ||
            str_in keyword (ascii_lower text)).
    rewrite startswith_ascii_lower by exact H. rewrite IH. reflexivity.
Qed.

Lemma ascii_lower_keyword : forall keyword,
  In keyword all_keywords -> ascii_lower keyword = keyword.
Proof.
  intros keyword H.
  cbv [all_keywords family_order flat_map family_keywords app In] in H.
  repeat (destruct H as [<-|H]; [vm_compute; reflexivity|]). contradiction.
Qed.

Lemma ascii_lower_japanese : forall keyword text,
  In keyword japanese_keywords ->
  str_in keyword (ascii_lower text) = str_in keyword text.
Proof.
  intros keyword text H. apply str_in_ascii_lower.
  cbv [japanese_keywords In] in H.
  repeat (destruct H as [<-|H]; [vm_compute; reflexivity|]). contradiction.
Qed.

(** A description with capital letters and keywords of two families: the
    family that comes first in the order is chosen. *)
Lemma family_dispatch_example :
  select_family ascii_lower (description mixed_case_rule) = Some fam_memory_leak /\
  _evaluate_rule ascii_lower mixed_case_rule (u "p = malloc(4);") (u "a.c") =
    _check_memory_leak (u "p = malloc(4);") (description mixed_case_rule).
Proof.
  set (rule := mixed_case_rule). set (code := u "p = malloc(4);").
  assert (Hfamily : select_family ascii_lower (description rule) = Some fam_memory_leak)
    by (vm_compute; reflexivity).
  split; [exact Hfamily|].
  rewrite (proj1 (family_dispatch ascii_lower eq_refl ascii_lower_keyword
                    ascii_lower_japanese) rule code (u "a.c")).
  rewrite Hfamily. reflexivity.
Defined.

End RuleEngineFacts.

(** ** The parser: ends, lines and metrics of a function *)

Module FunctionFacts.
Import Py Re Parser.

Lemma firstn_slice : forall (s : str) a b,
  a <= b -> firstn b s = firstn a s ++ slice s a b.
Proof.
  unfold slice. intros s a. revert s.
  induction a as [|a IH]; intros s b H.
  - rewrite Nat.sub_0_r. reflexivity.
  - destruct b as [|b]; [lia|]. destruct s as [|c s].
    + rewrite !firstn_nil. reflexivity.
    + cbn [firstn skipn app Nat.sub]. f_equal. apply IH. lia.
Qed.

(** The scan returns the position after a closing brace. *)
Lemma find_end_scan_last : forall s pos brace_count found_start e,
  find_end_scan s pos brace_count found_start = Some e ->
  exists n, e = pos + n /\ 1 <= n <= length s /\
            nth_error s (n - 1) = Some (ch "}").
Proof.
  induction s as [|c s IH]; intros pos brace_count found_start e H;
    [discriminate H|].
  cbn [find_end_scan] in H.
  assert (Hrest : forall bc fs,
            find_end_scan s (S pos) bc fs = Some e ->
            exists n, e = pos + n /\ 1 <= n <= length (c :: s) /\
                      nth_error (c :: s) (n - 1) = Some (ch "}")).
  { intros bc fs Hs. destruct (IH _ _ _ _ Hs) as (n & -> & Hn & Hc).
    exists (S n). split; [lia|]. split; [simpl; lia|].
    destruct n as [|n]; [lia|]. simpl in *. rewrite Nat.sub_0_r in Hc. exact Hc. }
  destruct (char_eqb c (ch "{")); [eapply Hrest; exact H|].
  destruct (char_eqb c (ch "}")) eqn:Eclose; [|eapply Hrest; exact H].
  destruct (found_start && (brace_count - 1 =? 0)%Z); [|eapply Hrest; exact H].
  injection H as <-. exists 1. split; [reflexivity|]. split; [simpl; lia|].
  unfold char_eqb in Eclose. apply N.eqb_eq in Eclose. subst c. reflexivity.
Qed.

Lemma function_end_cases : forall content start_pos,
  (closing_brace_found content start_pos = true /\
   start_pos < _find_function_end content start_pos <= length content /\
   nth_error content (_find_function_end content start_pos - 1) = Some (ch "}")) \/
  (closing_brace_found content start_pos = false /\
   _find_function_end content start_pos = length content).
Proof.
  intros content start_pos. unfold closing_brace_found, _find_function_end.
  destruct (find_end_scan (skipn start_pos content) start_pos 0 false)
    as [e|] eqn:E; [left | right; auto].
  split; [reflexivity|].
  destruct (find_end_scan_last _ _ _ _ _ E) as (n & -> & Hn & Hc).
  rewrite length_skipn in Hn. split; [lia|].
  rewrite nth_error_skipn in Hc.
  replace (start_pos + n - 1) with (start_pos + (n - 1)) by lia. exact Hc.
Qed.

(** X1.  From a start inside the text, the end that [_find_function_end]
    returns lies between the start and the end of the text; when the scan
    finds the closing brace, the end is the position right after that
    brace, and otherwise it is the end of the text. *)
Theorem function_end_bounds : forall content start_pos,
  start_pos <= length content ->
  start_pos <= _find_function_end content start_pos <= length content /\
  (closing_brace_found content start_pos = true ->
   start_pos < _find_function_end content start_pos /\
   nth_error content (_find_function_end content start_pos - 1) = Some (ch "}")) /\
  (closing_brace_found content start_pos = false ->
   _find_function_end content start_pos = length content).
Proof.
  intros content start_pos Hstart.
  destruct (function_end_cases content start_pos)
    as [(Hfound & Hrange & Hchar) | (Hfound & Hend)];
    rewrite Hfound.
  - split; [lia|]. split; [intros _; split; [lia | exact Hchar] | discriminate].
  - split; [lia|]. split; [discriminate | intros _; exact Hend].
Qed.

Lemma function_end_bounds_example :
  3 <= length (u "ab { c } d") /\
  _find_function_end (u "ab { c } d") 3 = 8 /\
  nth_error (u "ab { c } d") 7 = Some (ch "}").
Proof.
  split; [vm_compute; lia|].
  destruct (function_end_bounds (u "ab { c } d") 3) as (_ & Hfound & _);
    [vm_compute; lia|].
  destruct (Hfound eq_refl) as (_ & Hchar).
  split; [reflexivity | exact Hchar].
Defined.

Lemma record_lines_add : forall content m,
  end_line (function_record content m) =
  start_line (function_record content m) + line_count (function_record content m).
Proof.
  intros content m. cbn [function_record end_line start_line line_count].
  set (a := m_start m). set (b := _find_function_end content a).
  destruct (Nat.le_gt_cases a b) as [Hle|Hgt].
  - rewrite (firstn_slice content a b Hle), StringFacts.str_count_char_app. lia.
  - assert (Hb : b = length content).
    { destruct (function_end_cases content a) as [(_ & Hr & _) | (_ & He)];
        fold b in Hr || fold b in He; [lia | exact He]. }
    unfold slice. replace (b - a) with 0 by lia. cbn [firstn].
    rewrite Hb, firstn_all, firstn_all2 by lia.
    change (str_count [] [nl]) with 0. lia.
Qed.

(** X2.  In every entry of [_extract_functions] the end line is the start
    line plus the line count, and the line count of the complexity metrics
    is the line count of the entry. *)
Theorem function_lines_add : forall unicode_isalnum content,
  Forall (fun record =>
            end_line record = start_line record + line_count record /\
            cm_line_count (complexity record) = line_count record)
         (_extract_functions unicode_isalnum content).
Proof.
  intros unicode_isalnum content. unfold _extract_functions.
  apply Forall_map, Forall_forall. intros m _.
  split; [apply record_lines_add | reflexivity].
Qed.

(** The result of the scan is the largest of [max_level] and the depths
    after the prefixes of the text. *)
Lemma nesting_scan_max : forall s max_level current_level,
  (current_level <= max_level)%Z ->
  (max_level <= nesting_scan s max_level current_level)%Z /\
  (forall n, (depth_from current_level (firstn n s)
              <= nesting_scan s max_level current_level)%Z) /\
  (nesting_scan s max_level current_level = max_level \/
   exists n, depth_from current_level (firstn n s)
             = nesting_scan s max_level current_level).
Proof.
  induction s as [|c s IH]; intros mx cur H.
  - cbn [nesting_scan]. split; [lia|]. split; [|left; reflexivity].
    intros n. rewrite firstn_nil. cbn. exact H.
  - cbn [nesting_scan].
    assert (Hstep : forall mx' cur',
              (cur' <= mx')%Z -> (mx <= mx')%Z -> brace_step cur c = cur' ->
              (mx' = mx \/ mx' = cur') ->
              (mx <= nesting_scan s mx' cur')%Z /\
              (forall n, (depth_from cur (firstn n (c :: s))
                          <= nesting_scan s mx' cur')%Z) /\
              (nesting_scan s mx' cur' = mx \/
               exists n, depth_from cur (firstn n (c :: s))
                         = nesting_scan s mx' cur')).
    { intros mx' cur' Hc Hm Hb Hcase.
      destruct (IH mx' cur' Hc) as (Hge & Hall & Hex).
      split; [lia|]. split.
      - intros [|n]; [cbn; lia|].
        cbn [firstn]. rewrite ParserFacts.depth_from_cons, Hb. apply Hall.
      - destruct Hex as [Heq | (n & Hn)].
        + destruct Hcase as [-> | ->]; [left; exact Heq|].
          right. exists 1. cbn [firstn].
          rewrite ParserFacts.depth_from_cons, Hb. cbn. symmetry. exact Heq.
        + right. exists (S n). cbn [firstn].
          rewrite ParserFacts.depth_from_cons, Hb. exact Hn. }
    unfold brace_step in Hstep.
    destruct (char_eqb c (ch "{")).
    + apply Hstep; lia.
    + destruct (char_eqb c (ch "}")); apply Hstep; lia.
Qed.

(** X3.  The nesting level of a text is the largest brace depth that the
    text reaches after one of its prefixes: no prefix is deeper, and one
    prefix is exactly that deep. *)
Theorem nesting_level_is_max_depth : forall code,
  (forall n, (brace_depth (firstn n code) <= _calculate_nesting_level code)%Z) /\
  (exists n, brace_depth (firstn n code) = _calculate_nesting_level code).
Proof.
  intros code. unfold _calculate_nesting_level, brace_depth.
  destruct (nesting_scan_max code 0%Z 0%Z) as (_ & Hall & Hex); [lia|].
  split; [exact Hall|].
  destruct Hex as [Heq | Hn]; [|exact Hn].
  exists 0. rewrite Heq. reflexivity.
Qed.

Lemma rating_rank_thresholds : forall c l n,
  (1 <= rating_rank (_rate_complexity c l n) <-> 5 < c \/ 25 < l \/ (2 < n)%Z) /\
  (2 <= rating_rank (_rate_complexity c l n) <-> 10 < c \/ 50 < l \/ (3 < n)%Z) /\
  (3 <= rating_rank (_rate_complexity c l n) <-> 20 < c \/ 100 < l \/ (5 < n)%Z) /\
  rating_rank (_rate_complexity c l n) <= 3.
Proof.
  intros c l n. unfold _rate_complexity.
  repeat match goal with
         | |- context [?a <? ?b] =>
             destruct (Nat.ltb_spec a b); try (exfalso; lia)
         | |- context [(?a <? ?b)%Z] =>
             destruct (Z.ltb_spec a b); try (exfalso; lia)
         end; cbn; lia.
Qed.

Lemma rate_complexity_mono : forall c1 l1 n1 c2 l2 n2,
  c1 <= c2 -> l1 <= l2 -> (n1 <= n2)%Z ->
  rating_rank (_rate_complexity c1 l1 n1) <= rating_rank (_rate_complexity c2 l2 n2).
Proof.
  intros c1 l1 n1 c2 l2 n2 Hc Hl Hn.
  pose proof (rating_rank_thresholds c1 l1 n1) as H1.
  pose proof (rating_rank_thresholds c2 l2 n2) as H2.
  lia.
Qed.

(** X4.  The rating does not go down when the cyclomatic complexity, the
    line count or the nesting level goes up; it is [low] exactly when the
    three are at most 5, 25 and 2, and [very_high] exactly when one of
    them is above 20, 100 or 5. *)
Theorem rating_monotone : forall c1 l1 n1 c2 l2 n2,
  c1 <= c2 -> l1 <= l2 -> (n1 <= n2)%Z ->
  rating_rank (_rate_complexity c1 l1 n1) <= rating_rank (_rate_complexity c2 l2 n2) /\
  (_rate_complexity c1 l1 n1 = low <-> c1 <= 5 /\ l1 <= 25 /\ (n1 <= 2)%Z) /\
  (_rate_complexity c1 l1 n1 = very_high <-> 20 < c1 \/ 100 < l1 \/ (5 < n1)%Z).
Proof.
  intros c1 l1 n1 c2 l2 n2 Hc Hl Hn.
  split; [apply rate_complexity_mono; assumption|].
  unfold _rate_complexity.
  repeat match goal with
         | |- context [?a <? ?b] =>
             destruct (Nat.ltb_spec a b); try (exfalso; lia)
         | |- context [(?a <? ?b)%Z] =>
             destruct (Z.ltb_spec a b); try (exfalso; lia)
         end; cbn;
    (split; split; intros Hrate; try discriminate Hrate; try reflexivity; lia).
Qed.

Lemma rating_monotone_example :
  rating_rank (_rate_complexity 3 10 1) <= rating_rank (_rate_complexity 12 10 1) /\
  _rate_complexity 3 10 1 = low.
Proof.
  destruct (rating_monotone 3 10 1 12 10 1) as (Hmono & Hlow & _); try lia.
  split; [exact Hmono|]. apply Hlow. lia.
Defined.

Lemma nesting_level_app : forall s t,
  (_calculate_nesting_level s <= _calculate_nesting_level (s ++ t))%Z.
Proof.
  intros s t. unfold _calculate_nesting_level.
  destruct (nesting_scan_max s 0%Z 0%Z) as (_ & _ & Hex); [lia|].
  destruct (nesting_scan_max (s ++ t) 0%Z 0%Z) as (Hge & Hall & _); [lia|].
  destruct Hex as [-> | (n & <-)]; [exact Hge|].
  destruct (Nat.le_gt_cases n (length s)) as [Hle|Hgt].
  - specialize (Hall n). rewrite firstn_app in Hall.
    replace (n - length s) with 0 in Hall by lia.
    rewrite app_nil_r in Hall. exact Hall.
  - specialize (Hall (length s)).
    rewrite firstn_app, Nat.sub_diag, app_nil_r in Hall.
    rewrite firstn_all in Hall. rewrite firstn_all2 by lia. exact Hall.
Qed.

(** X5.  Text added at the end of a function body lowers none of its
    metrics: the cyclomatic complexity, the line count, the nesting level
    and the rating stay or go up. *)
Theorem complexity_grows_with_text : forall func_body more,
  let before := _calculate_function_complexity func_body in
  let after := _calculate_function_complexity (func_body ++ more) in
  cyclomatic_complexity before <= cyclomatic_complexity after /\
  cm_line_count before <= cm_line_count after /\
  (nesting_level before <= nesting_level after)%Z /\
  rating_rank (complexity_rating before) <= rating_rank (complexity_rating after).
Proof.
  intros func_body more.
  assert (Hcount : forall sub, sub <> [] ->
            str_count func_body sub <= str_count (func_body ++ more) sub).
  { intros sub H. apply StringFacts.str_count_app. exact H. }
  assert (Hc : cyclomatic_complexity (_calculate_function_complexity func_body) <=
               cyclomatic_complexity
                 (_calculate_function_complexity (func_body ++ more))).
  { cbn [_calculate_function_complexity cyclomatic_complexity].
    pose proof (Hcount (u "if")). pose proof (Hcount (u "while")).
    pose proof (Hcount (u "for")). pose proof (Hcount (u "switch")).
    pose proof (Hcount (u "case")). pose proof (Hcount (u "&&")).
    pose proof (Hcount (u "||")).
    repeat match goal with
           | H : _ <> [] -> _ |- _ => specialize (H ltac:(discriminate))
           end.
    lia. }
  assert (Hl : str_count func_body [nl] <= str_count (func_body ++ more) [nl]).
  { apply Hcount. discriminate. }
  pose proof (nesting_level_app func_body more) as Hn.
  cbv zeta. split; [exact Hc|]. split; [exact Hl|]. split; [exact Hn|].
  cbn [_calculate_function_complexity complexity_rating].
  apply rate_complexity_mono; [|exact Hl | exact Hn].
  cbn [_calculate_function_complexity cyclomatic_complexity] in Hc. exact Hc.
Qed.

(** X6.  A function body that [_analyze_function_issues] reports as too
    long or as too complex is rated [high] or [very_high]. *)
Theorem flagged_function_rated_high : forall func_body,
  In (u "関数が長すぎます（50行超）") (_analyze_function_issues func_body) \/
  In (u "複雑度が高すぎます（サイクロマティック複雑度 > 10）")
     (_analyze_function_issues func_body) ->
  2 <= rating_rank (complexity_rating (_calculate_function_complexity func_body)).
Proof.
  intros func_body H.
  assert (Hcases : 50 < str_count func_body [nl] \/
                   10 < cyclomatic_complexity
                          (_calculate_function_complexity func_body)).
  { unfold _analyze_function_issues in H.
    destruct (Nat.ltb_spec 50 (str_count func_body [nl])); [left; assumption|].
    destruct (Nat.ltb_spec 10 (cyclomatic_complexity
                                 (_calculate_function_complexity func_body)));
      [right; assumption|].
    exfalso. cbn [app] in H.
    destruct (negb (str_in (u "return") func_body) &&
              negb (str_in (u "void") func_body));
      destruct H as [H | H]; cbn [In] in H;
      repeat (destruct H as [H | H]; [vm_compute in H; discriminate H|]);
      exact H. }
  cbn [_calculate_function_complexity complexity_rating cyclomatic_complexity] in *.
  unfold _rate_complexity.
  repeat match goal with
         | |- context [?a <? ?b] =>
             destruct (Nat.ltb_spec a b); try (exfalso; lia)
         | |- context [(?a <? ?b)%Z] => destruct (Z.ltb_spec a b)
         end; cbn; lia.
Qed.

Lemma flagged_function_rated_high_example :
  In (u "関数が長すぎます（50行超）") (_analyze_function_issues (repeat nl 51)) /\
  complexity_rating (_calculate_function_complexity (repeat nl 51)) = high.
Proof.
  assert (H : In (u "関数が長すぎます（50行超）")
                 (_analyze_function_issues (repeat nl 51))).
  { vm_compute. left. reflexivity. }
  split; [exact H|].
  pose proof (flagged_function_rated_high (repeat nl 51) (or_introl H)) as Hrank.
  destruct (complexity_rating (_calculate_function_complexity (repeat nl 51)))
    eqn:E; try reflexivity; vm_compute in E; discriminate E.
Defined.

Lemma cyclomatic_at_least_one : forall func_body,
  1 <= cyclomatic_complexity (_calculate_function_complexity func_body).
Proof.
  intros func_body. cbn [_calculate_function_complexity cyclomatic_complexity]. lia.
Qed.

Lemma sum_ge_length : forall l,
  Forall (fun c => 1 <= c) l -> length l <= list_sum l.
Proof.
  induction 1; simpl; lia.
Qed.

Lemma sum_le_max : forall l, list_sum l <= length l * list_max_nat l.
Proof.
  induction l as [|x l IH]; [simpl; lia|].
  change (list_max_nat (x :: l)) with (Nat.max x (list_max_nat l)).
  change (list_sum (x :: l)) with (x + list_sum l). cbn [length].
  destruct (Nat.max_spec x (list_max_nat l)) as [(? & ->) | (? & ->)]; nia.
Qed.

Lemma max_ge_one : forall l,
  l <> [] -> Forall (fun c => 1 <= c) l -> 1 <= list_max_nat l.
Proof.
  intros l Hne H. destruct H; [contradiction|].
  change (list_max_nat (x :: l)) with (Nat.max x (list_max_nat l)). lia.
Qed.

Lemma above_ten_iff_max : forall l,
  1 <= length (filter (fun c => 10 <? c) l) <-> 10 < list_max_nat l.
Proof.
  induction l as [|x l IH]; [simpl; lia|].
  change (list_max_nat (x :: l)) with (Nat.max x (list_max_nat l)).
  cbn [filter]. destruct (Nat.ltb_spec 10 x); cbn [length]; lia.
Qed.

(** X7.  For a text with at least one function, the file complexity
    counts the functions; its average, the float of the sum over the
    number, is at least one, and at most the maximum when the maximum is
    at most [2^53]; and the number of complex functions is at most the
    number of functions and is positive exactly when the maximum is above
    ten. *)
Theorem file_complexity_with_functions : forall unicode_isalnum content,
  _extract_functions unicode_isalnum content <> [] ->
  let result := _calculate_file_complexity unicode_isalnum content in
  total_functions result = length (_extract_functions unicode_isalnum content) /\
  1 <= max_complexity result /\
  (1 <= average_complexity result)%Q /\
  ((Z.of_nat (max_complexity result) <= 2 ^ 53)%Z ->
   (average_complexity result <= inject_Z (Z.of_nat (max_complexity result)))%Q) /\
  exists complex,
    complex_functions result = Some complex /\
    complex <= total_functions result /\
    (1 <= complex <-> 10 < max_complexity result).
Proof.
  intros unicode_isalnum content Hne. unfold _calculate_file_complexity.
  set (functions := _extract_functions unicode_isalnum content) in *.
  set (complexities :=
         map (fun func => cyclomatic_complexity (complexity func)) functions).
  assert (Hall : Forall (fun c => 1 <= c) complexities).
  { unfold complexities, functions, _extract_functions.
    rewrite map_map. apply Forall_map, Forall_forall. intros m _.
    apply cyclomatic_at_least_one. }
  assert (Hlen : length complexities = length functions)
    by apply length_map.
  assert (Hpos : 1 <= length complexities).
  { rewrite Hlen. destruct functions; [contradiction | simpl; lia]. }
  assert (Hcne : complexities <> []).
  { intros E. rewrite E in Hpos. simpl in Hpos. lia. }
  pose proof (sum_ge_length _ Hall) as Hsum.
  pose proof (sum_le_max complexities) as Hmax.
  pose proof (max_ge_one _ Hcne Hall) as Hone.
  destruct functions as [|f rest] eqn:Ef; [contradiction|].
  fold complexities.
  cbn [total_functions max_complexity average_complexity complex_functions].
  split; [reflexivity|]. split; [exact Hone|].
  destruct (FloatFacts.average_bounds
              (Z.of_nat (list_sum complexities))
              (Z.of_nat (length complexities))
              (Z.of_nat (list_max_nat complexities))) as (Hlow & Hhigh);
    [lia | lia |].
  split; [exact Hlow|].
  split; [intros Hsmall; apply Hhigh; [nia | exact Hsmall]|].
  exists (length (filter (fun c => 10 <? c) complexities)).
  split; [reflexivity|]. split; [|apply above_ten_iff_max].
  rewrite <- Hlen. apply RuleEngineFacts.filter_length_le_all.
Qed.

Lemma file_complexity_with_functions_example :
  _extract_functions (fun _ => false) (u "int f() { return 0; }") <> [] /\
  1 <= max_complexity
         (_calculate_file_complexity (fun _ => false) (u "int f() { return 0; }")).
Proof.
  assert (H : _extract_functions (fun _ => false) (u "int f() { return 0; }") <> [])
    by (vm_compute; discriminate).
  split; [exact H|].
  pose proof (file_complexity_with_functions (fun _ => false) _ H) as Hfile.
  cbv zeta in Hfile. destruct Hfile as (_ & Hone & _). exact Hone.
Defined.

(** The matches of [finditer] come from left to right and do not overlap. *)
Lemma finditer_from_ordered : forall fuel r content pos,
  Forall (fun m => pos <= m_start m) (finditer_from fuel r content pos) /\
  ForallOrdPairs (fun a b => m_end a <= m_start b)
                 (finditer_from fuel r content pos).
Proof.
  induction fuel as [|fuel IH]; intros r content pos; cbn [finditer_from].
  - split; constructor.
  - destruct (Nat.ltb_spec (length content) pos) as [Hlt|Hle];
      [split; constructor|].
    destruct (search r content pos) as [m|] eqn:E; [|split; constructor].
    destruct (ParserFacts.search_span _ _ _ _ Hle E) as (Hpos & Hspan).
    set (next := if m_end m =? m_start m then S (m_end m) else m_end m).
    destruct (IH r content next) as (Hfrom & Hord).
    assert (Hnext : m_end m <= next).
    { unfold next. destruct (m_end m =? m_start m); lia. }
    split.
    + constructor; [exact Hpos|].
      eapply Forall_impl; [|exact Hfrom]. cbv beta. intros a Ha. lia.
    + constructor; [|exact Hord].
      eapply Forall_impl; [|exact Hfrom]. cbv beta. intros a Ha. lia.
Qed.

Lemma ordered_pairs_map : forall (A B : Type) (f : A -> B)
    (R : A -> A -> Prop) (S : B -> B -> Prop) (l : list A),
  (forall a b, R a b -> S (f a) (f b)) ->
  ForallOrdPairs R l -> ForallOrdPairs S (map f l).
Proof.
  intros A B f R S l H Hl. induction Hl as [|a l Ha Hl IH]; cbn [map].
  - constructor.
  - constructor; [|exact IH]. apply Forall_map.
    eapply Forall_impl; [|exact Ha]. intros b. apply H.
Qed.

Lemma line_of_offset_mono : forall content a b,
  a <= b ->
  str_count (firstn a content) [nl] + 1 <= str_count (firstn b content) [nl] + 1.
Proof.
  intros content a b H. rewrite !PyFacts.str_count_char.
  pose proof (PyFacts.filter_firstn_le _ (char_eqb nl) content a b H). lia.
Qed.

Lemma matches_ordered_by_start : forall r content,
  ForallOrdPairs (fun a b => m_start a <= m_start b) (finditer r content).
Proof.
  intros r content. unfold finditer.
  destruct (finditer_from_ordered (S (length content)) r content 0) as (_ & Hord).
  remember (finditer_from (S (length content)) r content 0) as ms eqn:Hms.
  assert (Hspan : Forall (fun m => m_start m <= m_end m) ms).
  { subst ms. apply Forall_forall. intros m Hin.
    clear Hord. revert Hin. generalize 0. generalize (S (length content)).
    induction n as [|fuel IH]; intros pos Hin; [contradiction|].
    cbn [finditer_from] in Hin.
    destruct (Nat.ltb_spec (length content) pos) as [Hlt|Hle]; [contradiction|].
    destruct (search r content pos) as [m0|] eqn:E; [|contradiction].
    destruct Hin as [<- | Hin]; [|eapply IH; exact Hin].
    destruct (ParserFacts.search_span _ _ _ _ Hle E) as (_ & Hs). lia. }
  clear Hms. induction Hord as [|a l Ha Hl IH]; [constructor|].
  inversion Hspan as [|? ? Hsa Hsl]; subst.
  constructor; [|apply IH; exact Hsl].
  eapply Forall_impl; [|exact Ha]. cbv beta. intros b Hb. lia.
Qed.

(** X8.  The functions and the macros are listed in the order of the text:
    the start lines of the functions, and the line numbers of the macros,
    never go down along the lists. *)
Theorem records_in_source_order : forall unicode_isalnum content,
  ForallOrdPairs (fun a b => start_line a <= start_line b)
                 (_extract_functions unicode_isalnum content) /\
  ForallOrdPairs (fun a b => line_number a <= line_number b)
                 (_extract_macros unicode_isalnum content).
Proof.
  intros unicode_isalnum content. unfold _extract_functions, _extract_macros.
  split.
  - eapply ordered_pairs_map; [|apply matches_ordered_by_start].
    intros a b H. cbn [function_record start_line].
    apply line_of_offset_mono. exact H.
  - eapply ordered_pairs_map; [|apply matches_ordered_by_start].
    intros a b H. cbn [macro_record line_number].
    apply line_of_offset_mono. exact H.
Qed.

End FunctionFacts.

(** ** The parser: what the patterns match *)

Module PatternFacts.
Import Py Re ReSpec Parser.
Local Open Scope re_scope.

(** What the matcher finds is a match of the pattern: a pattern without
    groups consumes a text that it matches and leaves the groups alone. *)
Lemma rmatch_sound : forall len r,
  groupless r = true ->
  forall s caps k x,
    rmatch len r s caps k = Some x ->
    exists w s1, s = w ++ s1 /\ Matches r w s1 /\ k s1 caps = Some x.
Proof.
  intros len r. induction r as [|p|r1 IH1 r2 IH2|r1 IH1 r2 IH2|r1 IH1|n r1 IH1|];
    intros Hg s caps k x H; cbn [rmatch] in H; cbn [groupless] in Hg.
  - exists [], s. split; [reflexivity|]. split; [constructor | exact H].
  - destruct s as [|c t]; [discriminate|].
    destruct (p c) eqn:Ep; [|discriminate]. exists [c], t.
    split; [reflexivity|]. split; [constructor; exact Ep | exact H].
  - apply andb_true_iff in Hg. destruct Hg as [Hg1 Hg2].
    destruct (IH1 Hg1 _ _ _ _ H) as (w1 & s1 & -> & Hm1 & H1).
    destruct (IH2 Hg2 _ _ _ _ H1) as (w2 & s2 & -> & Hm2 & H2).
    exists (w1 ++ w2), s2. rewrite <- app_assoc.
    split; [reflexivity|]. split; [constructor; assumption | exact H2].
  - apply andb_true_iff in Hg. destruct Hg as [Hg1 Hg2].
    destruct (rmatch len r1 s caps k) eqn:E.
    + injection H as ->. destruct (IH1 Hg1 _ _ _ _ E) as (w & s1 & -> & Hm & Hk).
      exists w, s1. split; [reflexivity|]. split; [apply M_Or_l; exact Hm | exact Hk].
    + destruct (IH2 Hg2 _ _ _ _ H) as (w & s1 & -> & Hm & Hk).
      exists w, s1. split; [reflexivity|]. split; [apply M_Or_r; exact Hm | exact Hk].
  - remember (length s) as fuel eqn:Hfuel in H. clear Hfuel.
    revert s caps H.
    induction fuel as [|fuel IHfuel]; intros s caps H.
    + exists [], s. split; [reflexivity|]. split; [constructor | exact H].
    + match type of H with
      | match ?call with _ => _ end = _ => destruct call eqn:E
      end.
      * injection H as ->.
        destruct (IH1 Hg _ _ _ _ E) as (w1 & s1 & -> & Hm1 & H1).
        cbv beta in H1.
        destruct (length s1 <? length (w1 ++ s1)); [|discriminate].
        destruct (IHfuel _ _ H1) as (w2 & s2 & -> & Hm2 & H2).
        exists (w1 ++ w2), s2. rewrite <- app_assoc.
        split; [reflexivity|]. split; [|exact H2].
        apply M_Star_more; assumption.
      * exists [], s. split; [reflexivity|]. split; [constructor | exact H].
  - discriminate Hg.
  - destruct s as [|c t].
    + exists [], []. split; [reflexivity|]. split; [constructor | exact H].
    + destruct (char_eqb c nl) eqn:Ec; [|discriminate].
      unfold char_eqb in Ec. apply N.eqb_eq in Ec. subst c.
      exists [], (nl :: t). split; [reflexivity|]. split; [constructor | exact H].
Qed.

Lemma rmatch_cat_groupless : forall len a b s caps k x,
  groupless a = true ->
  rmatch len (a @@ b) s caps k = Some x ->
  exists w s1, s = w ++ s1 /\ Matches a w s1 /\ rmatch len b s1 caps k = Some x.
Proof.
  intros len a b s caps k x Hg H. cbn [rmatch] in H.
  apply (rmatch_sound len a Hg) in H. exact H.
Qed.

Lemma rmatch_cat_group : forall len n a b s caps k x,
  groupless a = true ->
  rmatch len (Group n a @@ b) s caps k = Some x ->
  exists w s1, s = w ++ s1 /\ Matches a w s1 /\
               rmatch len b s1 ((n, (offset len s, offset len s1)) :: caps) k
               = Some x.
Proof.
  intros len n a b s caps k x Hg H. cbn [rmatch] in H.
  apply (rmatch_sound len a Hg) in H. exact H.
Qed.

Lemma matches_class : forall p w rest,
  Matches (Class p) w rest -> exists c, w = [c] /\ p c = true.
Proof.
  intros p w rest H. inversion H; subst. eauto.
Qed.

Lemma matches_class_star : forall p w rest,
  Matches (Star (Class p)) w rest -> forallb p w = true.
Proof.
  intros p w rest H. remember (Star (Class p)) as r eqn:Hr.
  induction H; try discriminate Hr; [reflexivity|].
  injection Hr as ->. apply matches_class in H. destruct H as (c & -> & Hc).
  cbn [app forallb]. rewrite Hc. apply IHMatches2. reflexivity.
Qed.

Lemma matches_class_plus : forall p w rest,
  Matches (Plus (Class p)) w rest -> w <> [] /\ forallb p w = true.
Proof.
  intros p w rest H. unfold Plus in H. inversion H; subst.
  match goal with
  | H1 : Matches (Class p) _ _, H2 : Matches (Star (Class p)) _ _ |- _ =>
      apply matches_class in H1; destruct H1 as (c & -> & Hc);
      apply matches_class_star in H2
  end.
  split; [discriminate|]. cbn [app forallb]. rewrite Hc. assumption.
Qed.

(** Every match of [finditer] is a match at the start of a suffix of the
    text. *)
Lemma search_here_origin : forall len r s m,
  search_here len r s = Some m ->
  exists before s', s = before ++ s' /\ match_here len r s' = Some m.
Proof.
  intros len r s. induction s as [|c s IH]; intros m H; cbn [search_here] in H.
  - destruct (match_here len r []) eqn:E; [|discriminate].
    injection H as ->. exists [], []. auto.
  - destruct (match_here len r (c :: s)) eqn:E.
    + injection H as ->. exists [], (c :: s). auto.
    + destruct (IH _ H) as (before & s' & -> & Hm).
      exists (c :: before), s'. auto.
Qed.

Lemma finditer_origin : forall r content m,
  In m (finditer r content) ->
  exists before s, content = before ++ s /\
                   match_here (length content) r s = Some m.
Proof.
  intros r content m. unfold finditer.
  generalize 0. generalize (S (length content)).
  induction n as [|fuel IH]; intros pos Hin; [contradiction|].
  cbn [finditer_from] in Hin.
  destruct (length content <? pos); [contradiction|].
  destruct (search r content pos) as [m0|] eqn:E; [|contradiction].
  destruct Hin as [<- | Hin]; [|eapply IH; exact Hin].
  unfold search in E. apply search_here_origin in E.
  destruct E as (before & s & Hs & Hm).
  exists (firstn pos content ++ before), s. split; [|exact Hm].
  rewrite <- app_assoc, <- Hs. symmetry. apply firstn_skipn.
Qed.

(** The text between two offsets that are counted from the end. *)
Lemma slice_of_offsets : forall (before w rest : str),
  slice (before ++ w ++ rest)
        (length (before ++ w ++ rest) - length (w ++ rest))
        (length (before ++ w ++ rest) - length rest) = w.
Proof.
  intros before w rest. unfold slice. rewrite !length_app.
  replace (length before + (length w + length rest) - (length w + length rest))
    with (length before) by lia.
  replace (length before + (length w + length rest) - length rest - length before)
    with (length w) by lia.
  rewrite skipn_app, Nat.sub_diag, skipn_all. cbn [skipn app].
  rewrite firstn_app, Nat.sub_diag, firstn_all. cbn [firstn]. apply app_nil_r.
Qed.

(** The parts of a match of [func_pattern]: the return type, the white
    space, the name, and the rest up to the opening brace. *)
Lemma func_match_parts : forall unicode_isalnum content before s m,
  content = before ++ s ->
  match_here (length content) (func_pattern unicode_isalnum) s = Some m ->
  exists type_text gap name_text tail rest,
    s = type_text ++ gap ++ name_text ++ tail ++ rest /\
    Matches (Plus (wd unicode_isalnum)) name_text (tail ++ rest) /\
    group content m 1 = type_text /\
    group content m 2 = name_text.
Proof.
  intros unicode_isalnum content before s m Hcontent H.
  unfold match_here in H.
  destruct (rmatch (length content) (func_pattern unicode_isalnum) s []
              (fun s1 caps1 => Some (s1, caps1))) as [[s1 caps1]|] eqn:E;
    [|discriminate H].
  injection H as <-. unfold func_pattern in E.
  apply rmatch_cat_group in E; [|vm_compute; reflexivity].
  destruct E as (w1 & sa & -> & Hm1 & E).
  apply rmatch_cat_groupless in E; [|reflexivity].
  destruct E as (wg & sb & -> & Hmg & E).
  apply rmatch_cat_group in E; [|reflexivity].
  destruct E as (w2 & sc & -> & Hm2 & E).
  apply rmatch_sound in E; [|reflexivity].
  destruct E as (wt & sd & -> & Hmt & E). injection E as <- <-.
  exists w1, wg, w2, wt, sd.
  split; [reflexivity|]. split; [exact Hm2|].
  unfold group. cbn [m_groups lookup_group Nat.eqb]. unfold offset.
  subst content. split.
  - replace (wg ++ w2 ++ wt ++ sd) with (wg ++ w2 ++ wt ++ sd) by reflexivity.
    apply (slice_of_offsets before w1 (wg ++ w2 ++ wt ++ sd)).
  - replace (before ++ w1 ++ wg ++ w2 ++ wt ++ sd)
      with ((before ++ w1 ++ wg) ++ w2 ++ wt ++ sd)
      by (rewrite <- !app_assoc; reflexivity).
    apply slice_of_offsets.
Qed.

(** The parts of a match of [macro_pattern]: the keyword, white space, the
    name, the optional parameter list, white space, the value. *)
Lemma macro_match_parts : forall unicode_isalnum content before s m,
  content = before ++ s ->
  match_here (length content) (macro_pattern unicode_isalnum) s = Some m ->
  exists keyword gap1 name_text params gap2 value rest,
    s = keyword ++ gap1 ++ name_text ++ params ++ gap2 ++ value ++ rest /\
    Matches (Plus (wd unicode_isalnum)) name_text
            (params ++ gap2 ++ value ++ rest) /\
    Matches (Plus ws) gap2 (value ++ rest) /\
    Matches (Star dot) value rest /\
    m = mk_match (length content - length s) (length content - length rest)
          [(2, (length content - length (value ++ rest),
                length content - length rest));
           (1, (length content - length (name_text ++ params ++ gap2 ++ value ++ rest),
                length content - length (params ++ gap2 ++ value ++ rest)))].
Proof.
  intros unicode_isalnum content before s m Hcontent H.
  unfold match_here in H.
  destruct (rmatch (length content) (macro_pattern unicode_isalnum) s []
              (fun s1 caps1 => Some (s1, caps1))) as [[s1 caps1]|] eqn:E;
    [|discriminate H].
  injection H as <-. unfold macro_pattern in E.
  apply rmatch_cat_groupless in E; [|vm_compute; reflexivity].
  destruct E as (w0 & sa & -> & Hm0 & E).
  apply rmatch_cat_groupless in E; [|reflexivity].
  destruct E as (w1 & sb & -> & Hm1 & E).
  apply rmatch_cat_group in E; [|reflexivity].
  destruct E as (w2 & sc & -> & Hm2 & E).
  apply rmatch_cat_groupless in E; [|reflexivity].
  destruct E as (w3 & sd & -> & Hm3 & E).
  apply rmatch_cat_groupless in E; [|reflexivity].
  destruct E as (w4 & se & -> & Hm4 & E).
  apply rmatch_cat_group in E; [|reflexivity].
  destruct E as (w5 & sf & -> & Hm5 & E).
  apply rmatch_sound in E; [|reflexivity].
  destruct E as (w6 & sg & -> & Hm6 & E). injection E as <- <-.
  inversion Hm6; subst; cbn [app] in *;
    exists w0, w1, w2, w3, w4, w5;
    [exists [] | eexists (nl :: _)];
    (split; [reflexivity|]); (split; [exact Hm2|]); (split; [exact Hm4|]);
    (split; [exact Hm5|]); reflexivity.
Qed.

Lemma forallb_lstrip : forall (p : char -> bool) s,
  forallb p s = true -> forallb p (lstrip s) = true.
Proof.
  intros p s. induction s as [|c s IH]; intros H; [reflexivity|].
  cbn [lstrip]. destruct (isspace c); [|exact H].
  apply IH. simpl in H. apply andb_true_iff in H. apply H.
Qed.

Lemma forallb_rev : forall (p : char -> bool) s,
  forallb p s = true -> forallb p (rev s) = true.
Proof.
  intros p s H. rewrite forallb_forall in *. intros x Hx.
  apply H, in_rev. exact Hx.
Qed.

Lemma forallb_strip : forall (p : char -> bool) s,
  forallb p s = true -> forallb p (strip s) = true.
Proof.
  intros p s H. unfold strip, rstrip.
  apply forallb_rev, forallb_lstrip, forallb_rev, forallb_lstrip. exact H.
Qed.

Lemma no_char_not_in : forall c s,
  forallb (fun d => negb (char_eqb d c)) s = true -> str_in [c] s = false.
Proof.
  intros c s. induction s as [|d s IH]; intros H; [reflexivity|].
  simpl in H. apply andb_true_iff in H. destruct H as [Hd H].
  rewrite PyFacts.str_in_unfold. cbn [startswith].
  rewrite (IH H), orb_false_r, andb_true_r.
  unfold char_eqb in *. rewrite N.eqb_sym. apply negb_true_iff. exact Hd.
Qed.

(** X9.  The name of every function and of every macro that the parser
    lists is a non-empty run of word characters, and the value of a macro
    has no newline. *)
Theorem names_are_identifiers : forall unicode_isalnum content,
  Forall (fun record =>
            name record <> [] /\
            forallb (is_word unicode_isalnum) (name record) = true)
         (_extract_functions unicode_isalnum content) /\
  Forall (fun record =>
            macro_name record <> [] /\
            forallb (is_word unicode_isalnum) (macro_name record) = true /\
            str_in [nl] (macro_value record) = false)
         (_extract_macros unicode_isalnum content).
Proof.
  intros unicode_isalnum content. unfold _extract_functions, _extract_macros.
  split; apply Forall_map, Forall_forall; intros m Hin;
    apply finditer_origin in Hin; destruct Hin as (before & s & Hcontent & Hm).
  - destruct (func_match_parts _ _ _ _ _ Hcontent Hm)
      as (w1 & wg & w2 & wt & rest & _ & Hname & _ & Hgroup).
    cbn [function_record name]. rewrite Hgroup.
    apply matches_class_plus in Hname. exact Hname.
  - destruct (macro_match_parts _ _ _ _ _ Hcontent Hm)
      as (w0 & w1 & w2 & w3 & w4 & w5 & rest & Hs & Hname & _ & Hvalue & ->).
    cbn [macro_record macro_name macro_value].
    unfold group. cbn [m_groups lookup_group Nat.eqb].
    subst content s.
    replace (slice _ _ (length (before ++ w0 ++ w1 ++ w2 ++ w3 ++ w4 ++ w5 ++ rest)
                        - length (w3 ++ w4 ++ w5 ++ rest))) with w2.
    2:{ symmetry.
        replace (before ++ w0 ++ w1 ++ w2 ++ w3 ++ w4 ++ w5 ++ rest)
          with ((before ++ w0 ++ w1) ++ w2 ++ w3 ++ w4 ++ w5 ++ rest)
          by (rewrite <- !app_assoc; reflexivity).
        apply slice_of_offsets. }
    replace (slice _ _ (length (before ++ w0 ++ w1 ++ w2 ++ w3 ++ w4 ++ w5 ++ rest)
                        - length rest)) with w5.
    2:{ symmetry.
        replace (before ++ w0 ++ w1 ++ w2 ++ w3 ++ w4 ++ w5 ++ rest)
          with ((before ++ w0 ++ w1 ++ w2 ++ w3 ++ w4) ++ w5 ++ rest)
          by (rewrite <- !app_assoc; reflexivity).
        apply slice_of_offsets. }
    apply matches_class_plus in Hname. destruct Hname as (Hne & Hword).
    split; [exact Hne|]. split; [exact Hword|].
    apply no_char_not_in, forallb_strip.
    apply matches_class_star in Hvalue. exact Hvalue.
Qed.

(** A definition with nothing after its parameter list is not listed at
    all: the pattern asks for white space after the parameter list. *)
Example macro_without_value_not_listed :
  _extract_macros (fun _ => false) (u "#define F(x)") = [] /\
  _extract_macros (fun _ => false) (u "#define MAX(a,b)((a)>(b)?(a):(b))") = [].
Proof.
  vm_compute. split; reflexivity.
Qed.

(** X10.  For every match of the macro pattern, that is for every macro
    that [_extract_macros] lists: when a parenthesis stands right after the
    name, the entry of the macro has [is_function_like] true. *)
Theorem paren_after_name_is_function_like : forall unicode_isalnum content m,
  In m (finditer (macro_pattern unicode_isalnum) content) ->
  paren_follows_name content m = true ->
  is_function_like (macro_record content m) = true.
Proof.
  intros unicode_isalnum content m Hin Hparen.
  apply finditer_origin in Hin. destruct Hin as (before & s & Hcontent & Hm).
  destruct (macro_match_parts _ _ _ _ _ Hcontent Hm)
    as (w0 & w1 & w2 & w3 & w4 & w5 & rest & Hs & _ & Hgap & _ & ->).
  cbn [macro_record is_function_like]. unfold group0. cbn [m_start m_end].
  unfold paren_follows_name in Hparen.
  cbn [m_groups lookup_group Nat.eqb] in Hparen.
  subst content s.
  replace (slice _ _ _) with (w0 ++ w1 ++ w2 ++ w3 ++ w4 ++ w5).
  2:{ symmetry.
      replace (before ++ w0 ++ w1 ++ w2 ++ w3 ++ w4 ++ w5 ++ rest)
        with (before ++ (w0 ++ w1 ++ w2 ++ w3 ++ w4 ++ w5) ++ rest)
        by (rewrite <- !app_assoc; reflexivity).
      replace (length (w0 ++ w1 ++ w2 ++ w3 ++ w4 ++ w5 ++ rest))
        with (length ((w0 ++ w1 ++ w2 ++ w3 ++ w4 ++ w5) ++ rest))
        by (rewrite <- !app_assoc; reflexivity).
      apply slice_of_offsets. }
  apply matches_class_plus in Hgap. destruct Hgap as (Hne & _).
  replace (before ++ w0 ++ w1 ++ w2 ++ w3 ++ w4 ++ w5 ++ rest)
    with ((before ++ w0 ++ w1 ++ w2) ++ w3 ++ w4 ++ w5 ++ rest) in Hparen
    by (rewrite <- !app_assoc; reflexivity).
  rewrite length_app in Hparen.
  replace (length (before ++ w0 ++ w1 ++ w2) + length (w3 ++ w4 ++ w5 ++ rest)
           - length (w3 ++ w4 ++ w5 ++ rest))
    with (length (before ++ w0 ++ w1 ++ w2) + 0) in Hparen by lia.
  rewrite nth_error_app2, Nat.add_comm in Hparen by lia.
  replace (0 + length (before ++ w0 ++ w1 ++ w2) - length (before ++ w0 ++ w1 ++ w2))
    with 0 in Hparen by lia.
  assert (Hsplit : exists c t, w3 ++ w4 = c :: t).
  { destruct w3 as [|c t]; [|exists c, (t ++ w4); reflexivity].
    destruct w4 as [|c t]; [contradiction | exists c, t; reflexivity]. }
  destruct Hsplit as (c & t & Hct).
  replace (w3 ++ w4 ++ w5 ++ rest) with ((w3 ++ w4) ++ w5 ++ rest) in Hparen
    by (rewrite <- !app_assoc; reflexivity).
  rewrite Hct in Hparen. cbn [app nth_error] in Hparen.
  unfold char_eqb in Hparen. apply N.eqb_eq in Hparen. subst c.
  apply StringFacts.str_in_iff. exists (w0 ++ w1 ++ w2), (t ++ w5).
  replace (w0 ++ w1 ++ w2 ++ w3 ++ w4 ++ w5)
    with ((w0 ++ w1 ++ w2) ++ (w3 ++ w4) ++ w5)
    by (rewrite <- !app_assoc; reflexivity).
  rewrite Hct, <- !app_assoc. reflexivity.
Qed.

Lemma paren_after_name_example :
  In (mk_match 0 16 [(2, (15, 16)); (1, (8, 11))])
     (finditer (macro_pattern (fun _ => false)) (u "#define BAR(x) x")) /\
  is_function_like
    (macro_record (u "#define BAR(x) x")
                  (mk_match 0 16 [(2, (15, 16)); (1, (8, 11))])) = true.
Proof.
  assert (H : In (mk_match 0 16 [(2, (15, 16)); (1, (8, 11))])
                 (finditer (macro_pattern (fun _ => false)) (u "#define BAR(x) x"))).
  { vm_compute. left. reflexivity. }
  split; [exact H|].
  apply (paren_after_name_is_function_like (fun _ => false) _ _ H).
  vm_compute. reflexivity.
Defined.

Lemma param_match_group : forall decl m,
  search param_pattern decl 0 = Some m ->
  forallb (fun c => negb (char_eqb c (ch ")"))) (group decl m 1) = true.
Proof.
  intros decl m H. unfold search in H. cbn [skipn] in H.
  apply search_here_origin in H. destruct H as (before & s & Hdecl & H).
  unfold match_here in H.
  destruct (rmatch (length decl) param_pattern s []
              (fun s1 caps1 => Some (s1, caps1))) as [[s1 caps1]|] eqn:E;
    [|discriminate H].
  injection H as <-. unfold param_pattern in E.
  apply rmatch_cat_groupless in E; [|reflexivity].
  destruct E as (w0 & sa & -> & Hm0 & E).
  apply rmatch_cat_group in E; [|reflexivity].
  destruct E as (w1 & sb & -> & Hm1 & E).
  apply rmatch_sound in E; [|reflexivity].
  destruct E as (w2 & sc & -> & Hm2 & E). injection E as <- <-.
  unfold group. cbn [m_groups lookup_group Nat.eqb]. unfold offset.
  subst decl.
  replace (slice _ _ _) with w1.
  - apply matches_class_star in Hm1. exact Hm1.
  - symmetry.
    replace (before ++ w0 ++ w1 ++ w2 ++ sc)
      with ((before ++ w0) ++ w1 ++ w2 ++ sc)
      by (rewrite <- !app_assoc; reflexivity).
    apply slice_of_offsets.
Qed.

Lemma extracted_parameters_clean : forall func_declaration,
  Forall (fun parameter =>
            strip parameter = parameter /\
            str_in [ch ","] parameter = false /\
            str_in [ch ")"] parameter = false)
         (_extract_parameters func_declaration).
Proof.
  intros decl. unfold _extract_parameters.
  destruct (search param_pattern decl 0) as [m|] eqn:E; [|constructor].
  apply param_match_group in E.
  apply (forallb_strip _ _) in E.
  destruct (strip (group decl m 1)) as [|c params] eqn:Ep; [constructor|].
  destruct (list_eq_dec N.eq_dec (c :: params) (u "void")); [constructor|].
  apply Forall_map.
  eapply Forall_impl; [|apply (StringFacts.split_on_pieces _ (ch ",") _ E)].
  cbv beta. intros piece (Hparen & Hcomma).
  split; [apply StringFacts.strip_idempotent|].
  split; apply no_char_not_in, forallb_strip; assumption.
Qed.

(** X11.  Every parameter that [_extract_parameters] returns, and so every
    parameter of every function that the parser lists, is stripped and has
    neither a comma nor a closing parenthesis. *)
Theorem parameters_are_clean :
  (forall func_declaration,
     Forall (fun parameter =>
               strip parameter = parameter /\
               str_in [ch ","] parameter = false /\
               str_in [ch ")"] parameter = false)
            (_extract_parameters func_declaration)) /\
  (forall unicode_isalnum content,
     Forall (fun record =>
               Forall (fun parameter =>
                         strip parameter = parameter /\
                         str_in [ch ","] parameter = false /\
                         str_in [ch ")"] parameter = false)
                      (parameters record))
            (_extract_functions unicode_isalnum content)).
Proof.
  split; [exact extracted_parameters_clean|].
  intros unicode_isalnum content. unfold _extract_functions.
  apply Forall_map, Forall_forall. intros m _.
  cbn [function_record parameters]. apply extracted_parameters_clean.
Qed.

(** Parameter lists: an empty one, [void], and one with an empty item. *)
Example extract_parameters_examples :
  _extract_parameters (u "int f( ) {") = [] /\
  _extract_parameters (u "int f(void) {") = [] /\
  _extract_parameters (u "int f(int a, char *b) {") = [u "int a"; u "char *b"] /\
  _extract_parameters (u "int f(int a,) {") = [u "int a"; []].
Proof.
  vm_compute. repeat split.
Qed.

End PatternFacts.

(** ** The three detectors side by side

    The rule engine, the parser and the static analyzer each look for
    dangerous functions, leaks, unchecked allocations and allocations in
    loops. *)

Module DetectorFacts.
Import Py Analyzer.

(** Each of the two checks names the first function of its catalogue that
    is called in the text. *)
Lemma buffer_overflow_first : forall code description,
  option_map RuleEngine.detected_pattern
    (RuleEngine._check_buffer_overflow code description) =
  find (fun func => str_in (func ++ [ch "("]) code) RuleEngine.dangerous_functions.
Proof.
  intros code description. unfold RuleEngine._check_buffer_overflow.
  generalize RuleEngine.dangerous_functions.
  induction l as [|func l IH]; cbn [for_first find]; [reflexivity|].
  destruct (str_in (func ++ [ch "("]) code); [reflexivity | exact IH].
Qed.

Lemma dangerous_functions_first : forall code description,
  option_map RuleEngine.detected_pattern
    (RuleEngine._check_dangerous_functions code description) =
  find (fun func => str_in (func ++ [ch "("]) code)
       (map fst RuleEngine.dangerous_funcs).
Proof.
  intros code description. unfold RuleEngine._check_dangerous_functions.
  generalize RuleEngine.dangerous_funcs.
  induction l as [|[dangerous safe] l IH]; cbn [for_first find map fst];
    [reflexivity|].
  destruct (str_in (dangerous ++ [ch "("]) code); [reflexivity | exact IH].
Qed.

(** X12.  The checks of the rule engine for buffer overflows and for
    dangerous functions fire on the same texts and name the same
    function: the first of the catalogue that is called in the text. *)
Theorem dangerous_checks_agree : forall code description1 description2,
  option_map RuleEngine.detected_pattern
    (RuleEngine._check_buffer_overflow code description1) =
  option_map RuleEngine.detected_pattern
    (RuleEngine._check_dangerous_functions code description2) /\
  option_map RuleEngine.detected_pattern
    (RuleEngine._check_buffer_overflow code description1) =
  find (fun func => str_in (func ++ [ch "("]) code) RuleEngine.dangerous_functions.
Proof.
  intros code d1 d2.
  split; [|apply buffer_overflow_first].
  rewrite buffer_overflow_first, dangerous_functions_first. reflexivity.
Qed.

(** The three parts of the list of [_detect_c_issues]. *)
Lemma detect_parts : forall content,
  Parser._detect_c_issues content =
  flat_map (fun '(func, suggestion) =>
              if str_in func content then [Parser.dangerous_issue func suggestion]
              else [])
           Parser.detect_dangerous_funcs ++
  (if str_count content (u "free") <?
      str_count content (u "malloc") + str_count content (u "calloc")
   then [Parser.leak_issue
           (str_count content (u "malloc") + str_count content (u "calloc"))
           (str_count content (u "free"))]
   else []) ++
  (if str_in (u "malloc") content &&
      (str_count content (u "if") <? str_count content (u "malloc"))
   then [Parser.null_check_hint] else []).
Proof.
  intros content. unfold Parser._detect_c_issues.
  destruct (str_count content (u "free") <?
            str_count content (u "malloc") + str_count content (u "calloc"));
    destruct (str_in (u "malloc") content &&
              (str_count content (u "if") <? str_count content (u "malloc")));
    rewrite ?app_nil_r, <- ?app_assoc; reflexivity.
Qed.

Lemma dangerous_issue_listed : forall content func suggestion,
  In (func, suggestion) Parser.detect_dangerous_funcs ->
  str_in func content = true ->
  In (Parser.dangerous_issue func suggestion) (Parser._detect_c_issues content).
Proof.
  intros content func suggestion Hin Hfunc. rewrite detect_parts.
  apply in_or_app. left. apply in_flat_map. exists (func, suggestion).
  split; [exact Hin|]. cbv beta iota. rewrite Hfunc. left. reflexivity.
Qed.

(** X13.  When the check of the rule engine for buffer overflows fires,
    the parser lists a security issue on the same function. *)
Theorem parser_lists_engine_finding : forall code description v,
  RuleEngine._check_buffer_overflow code description = Some v ->
  exists issue,
    In issue (Parser._detect_c_issues code) /\
    Parser.di_type issue = u "security" /\
    Parser.di_function issue = Some (RuleEngine.detected_pattern v).
Proof.
  intros code description v H.
  unfold RuleEngine._check_buffer_overflow in H.
  apply PyFacts.for_first_some in H.
  destruct H as (before & func & after & Hlist & Hbody & _).
  destruct (str_in (func ++ [ch "("]) code) eqn:Ecall; [|discriminate Hbody].
  injection Hbody as <-. cbn [RuleEngine.detected_pattern].
  apply StringFacts.str_in_prefix in Ecall.
  assert (Hin : In func RuleEngine.dangerous_functions).
  { rewrite Hlist. apply in_or_app. right. left. reflexivity. }
  assert (Hsug : exists suggestion,
            In (func, suggestion) Parser.detect_dangerous_funcs).
  { unfold RuleEngine.dangerous_functions in Hin. cbn [In] in Hin.
    unfold Parser.detect_dangerous_funcs.
    destruct Hin as [<- | [<- | [<- | [<- | []]]]]; eexists; cbn [In];
      [left | right; left | right; right; left | right; right; right; left];
      reflexivity. }
  destruct Hsug as (suggestion & Hsug).
  exists (Parser.dangerous_issue func suggestion).
  split; [apply dangerous_issue_listed; assumption|].
  split; reflexivity.
Qed.

Lemma parser_lists_engine_finding_example :
  exists v issue,
    RuleEngine._check_buffer_overflow (u "gets(line);") (u "rule") = Some v /\
    In issue (Parser._detect_c_issues (u "gets(line);")) /\
    Parser.di_function issue = Some (u "gets").
Proof.
  destruct (RuleEngine._check_buffer_overflow (u "gets(line);") (u "rule"))
    as [v|] eqn:E; [|vm_compute in E; discriminate E].
  destruct (parser_lists_engine_finding _ _ _ E) as (issue & Hin & _ & Hfunc).
  exists v, issue. split; [reflexivity|]. split; [exact Hin|].
  rewrite Hfunc. vm_compute in E. injection E as <-. reflexivity.
Defined.

(** X14.  The parser lists a leak exactly when the leak check of the rule
    engine fires, and with the same description and suggestion. *)
Theorem leak_reports_agree : forall content description,
  match RuleEngine._check_memory_leak content description with
  | Some v =>
      exists issue,
        In issue (Parser._detect_c_issues content) /\
        Parser.di_type issue = u "memory_leak" /\
        Parser.di_description issue = RuleEngine.message v /\
        Parser.di_suggestion issue = RuleEngine.suggestion v
  | None =>
      forall issue,
        In issue (Parser._detect_c_issues content) ->
        Parser.di_type issue <> u "memory_leak"
  end.
Proof.
  intros content description. rewrite detect_parts.
  unfold RuleEngine._check_memory_leak.
  destruct (str_count content (u "free") <?
            str_count content (u "malloc") + str_count content (u "calloc")).
  - exists (Parser.leak_issue
              (str_count content (u "malloc") + str_count content (u "calloc"))
              (str_count content (u "free"))).
    split; [apply in_or_app; right; apply in_or_app; left; left; reflexivity|].
    unfold Parser.leak_issue.
    cbn [Parser.di_type Parser.di_description Parser.di_suggestion
         RuleEngine.message RuleEngine.suggestion].
    split; [reflexivity|]. split; reflexivity.
  - intros issue Hin. rewrite app_nil_l in Hin. apply in_app_or in Hin.
    destruct Hin as [Hin | Hin].
    + apply in_flat_map in Hin. destruct Hin as ((func & suggestion) & _ & Hin).
      destruct (str_in func content); [|contradiction].
      destruct Hin as [<- | []]. vm_compute. discriminate.
    + destruct (str_in (u "malloc") content &&
                (str_count content (u "if") <? str_count content (u "malloc")));
        [|contradiction].
      destruct Hin as [<- | []]. vm_compute. discriminate.
Qed.

(** The findings of the security pass at one line, and when there are none. *)
Lemma security_line_none : forall i line,
  security_line_issues i line = [] <->
  existsb (fun func => str_in (func ++ [ch "("]) line)
          (map fst security_catalogue) = false.
Proof.
  intros i line. unfold security_line_issues.
  generalize security_catalogue.
  induction l as [|[func info] l IH]; cbn [flat_map map fst existsb];
    [split; reflexivity|].
  destruct (str_in (func ++ [ch "("]) line); cbn [orb app].
  - split; discriminate.
  - exact IH.
Qed.

Lemma security_pass_none : forall lines k,
  flat_map (fun '(i, line) => security_line_issues i line) (enumerate_from k lines)
    = [] <->
  existsb (fun line =>
             existsb (fun func => str_in (func ++ [ch "("]) line)
                     (map fst security_catalogue))
          lines = false.
Proof.
  induction lines as [|line lines IH]; intros k;
    cbn [enumerate_from flat_map existsb]; [split; reflexivity|].
  rewrite orb_false_iff, <- IH, <- security_line_none. split.
  - intros H. apply app_eq_nil in H. exact H.
  - intros (H1 & H2). rewrite H1, H2. reflexivity.
Qed.

Lemma existsb_swap : forall (A B : Type) (p : A -> B -> bool) xs ys,
  existsb (fun x => existsb (p x) ys) xs =
  existsb (fun y => existsb (fun x => p x y) xs) ys.
Proof.
  intros A B p xs ys. induction xs as [|x xs IH]; cbn [existsb].
  - induction ys as [|y ys IHy]; [reflexivity | cbn [existsb]; exact IHy].
  - rewrite IH. clear IH.
    induction ys as [|y ys IHy]; [reflexivity|].
    cbn [existsb]. rewrite <- IHy.
    destruct (p x y), (existsb (p x) ys), (existsb (fun x0 => p x0 y) xs);
      reflexivity.
Qed.

Lemma call_has_no_newline : forall func,
  In func (map fst security_catalogue) ->
  func ++ [ch "("] <> [] /\
  forallb (fun c => negb (char_eqb c nl)) (func ++ [ch "("]) = true.
Proof.
  intros func H. unfold security_catalogue in H. cbn [map fst In] in H.
  destruct H as [<- | [<- | [<- | [<- | []]]]];
    (split; [discriminate | vm_compute; reflexivity]).
Qed.

(** X15.  The security pass of the analyzer has no finding exactly when
    the check of the rule engine for buffer overflows does not fire. *)
Theorem security_pass_agrees_with_engine : forall code description file_path,
  _check_security_patterns code file_path = [] <->
  RuleEngine._check_buffer_overflow code description = None.
Proof.
  intros code description file_path.
  unfold _check_security_patterns, enumerate. rewrite security_pass_none.
  rewrite (existsb_swap _ _ (fun line func => str_in (func ++ [ch "("]) line)).
  assert (Hlines : existsb
            (fun func => existsb (fun line => str_in (func ++ [ch "("]) line)
                                 (split_on nl code))
            (map fst security_catalogue) =
          existsb (fun func => str_in (func ++ [ch "("]) code)
                  (map fst security_catalogue)).
  { pose proof call_has_no_newline as Hcall. revert Hcall.
    generalize (map fst security_catalogue).
    induction l as [|func l IH]; intros Hcall; [reflexivity|].
    cbn [existsb]. rewrite IH by (intros f Hf; apply Hcall; right; exact Hf).
    destruct (Hcall func (or_introl eq_refl)) as (Hne & Hnl).
    rewrite (StringFacts.str_in_lines _ code Hne Hnl). reflexivity. }
  rewrite Hlines.
  pose proof (buffer_overflow_first code description) as Hfirst.
  change (map fst security_catalogue) with RuleEngine.dangerous_functions.
  destruct (RuleEngine._check_buffer_overflow code description) as [v|];
    cbn [option_map] in Hfirst; symmetry in Hfirst.
  - apply find_some in Hfirst. destruct Hfirst as (Hin & Hcall).
    split; [|discriminate]. intros Hnone.
    assert (Hex : existsb (fun func => str_in (func ++ [ch "("]) code)
                          RuleEngine.dangerous_functions = true).
    { apply existsb_exists. eauto. }
    congruence.
  - split; [reflexivity|]. intros _.
    destruct (existsb (fun func => str_in (func ++ [ch "("]) code)
                      RuleEngine.dangerous_functions) eqn:E; [|reflexivity].
    apply existsb_exists in E. destruct E as (func & Hin & Hcall).
    pose proof (find_none _ _ Hfirst func Hin) as Hno. cbv beta in Hno.
    congruence.
Qed.

(** A loop that returns at the first hit, beside a loop that collects every
    hit. *)
Lemma first_of_collected : forall (A V W : Type) (R : V -> W -> Prop)
    (first : A -> option V) (every : A -> list W) (xs : list A),
  (forall x, match first x with
             | Some v => exists w, every x = [w] /\ R v w
             | None => every x = []
             end) ->
  match for_first first xs with
  | Some v => exists w rest, flat_map every xs = w :: rest /\ R v w
  | None => flat_map every xs = []
  end.
Proof.
  intros A V W R first every xs H.
  induction xs as [|x xs IH]; cbn [for_first flat_map]; [reflexivity|].
  specialize (H x). destruct (first x) as [v|].
  - destruct H as (w & -> & Hr). exists w, (flat_map every xs). auto.
  - rewrite H. exact IH.
Qed.

(** X16.  The null-pointer check of the rule engine returns the first of
    the findings on unchecked allocations of the memory pass of the
    analyzer, with its line, snippet, message and suggestion, and returns
    nothing exactly when that pass has no such finding. *)
Theorem null_pointer_is_first_finding : forall code description,
  match RuleEngine._check_null_pointer code description with
  | Some v =>
      exists issue rest,
        null_check_issues (split_on nl code) = issue :: rest /\
        line issue = RuleEngine.line_number v /\
        code_snippet issue = Some (RuleEngine.detected_pattern v) /\
        message issue = RuleEngine.message v /\
        suggestion issue = RuleEngine.suggestion v
  | None => null_check_issues (split_on nl code) = []
  end.
Proof.
  intros code description.
  unfold RuleEngine._check_null_pointer, null_check_issues.
  apply (first_of_collected _ _ _
           (fun v issue =>
              line issue = RuleEngine.line_number v /\
              code_snippet issue = Some (RuleEngine.detected_pattern v) /\
              message issue = RuleEngine.message v /\
              suggestion issue = RuleEngine.suggestion v)).
  intros [i text]. unfold RuleEngine.unchecked_allocation, has_alloc_call,
    null_check_found, null_check_window.
  destruct ((str_in (u "malloc(") text || str_in (u "calloc(") text) &&
            str_in [ch "="] text); cbn [andb]; [|reflexivity].
  destruct (existsb (fun l => str_in (u "NULL") l || str_in (u "null") l)
              (firstn (Nat.min (i + 5) (length (split_on nl code)) - (i + 1))
                      (skipn (i + 1) (split_on nl code)))); cbn [negb];
    [reflexivity|].
  exists (null_check_issue i text). split; [reflexivity|].
  unfold null_check_issue.
  cbn [line code_snippet message suggestion RuleEngine.line_number
       RuleEngine.detected_pattern RuleEngine.message RuleEngine.suggestion].
  repeat split; reflexivity.
Qed.

(** The loop keywords and the closing brace are found in a line exactly
    when they are found in the stripped line. *)
Lemma loop_keyword_stripped : forall text,
  existsb (fun keyword => str_in keyword (strip text)) loop_keywords =
  existsb (fun keyword => str_in keyword text) [u "for("; u "while("; u "do{"].
Proof.
  intros text. unfold loop_keywords. cbn [existsb].
  rewrite !StringFacts.str_in_strip
    by first [discriminate | vm_compute; reflexivity].
  reflexivity.
Qed.

Lemma closing_brace_stripped : forall text,
  str_in [ch "}"] (strip text) = str_in [ch "}"] text.
Proof.
  intros text. apply StringFacts.str_in_strip;
    [discriminate | vm_compute; reflexivity].
Qed.

(** Where the flag of the rule engine is set, the flag of the analyzer is
    set as well. *)
Lemma loop_flags : forall text in_loop state,
  (in_loop = true -> fst state = true) ->
  RuleEngine.update_in_loop in_loop text = true ->
  fst (update_loop_state (strip text) state) = true.
Proof.
  intros text in_loop [flag depth] Himp H.
  unfold RuleEngine.update_in_loop in H. unfold update_loop_state.
  rewrite loop_keyword_stripped, closing_brace_stripped.
  destruct (existsb (fun keyword => str_in keyword text)
                    [u "for("; u "while("; u "do{"]); [reflexivity|].
  destruct (str_in [ch "}"] text); [discriminate H|].
  cbn [andb fst]. apply Himp. exact H.
Qed.

Lemma performance_scan_covered : forall lines k in_loop state description v,
  (in_loop = true -> fst state = true) ->
  RuleEngine.performance_scan (enumerate_from k lines) in_loop description
    = Some v ->
  exists issue,
    In issue (performance_pass (enumerate_from k lines) state) /\
    line issue = RuleEngine.line_number v /\
    code_snippet issue = Some (RuleEngine.detected_pattern v).
Proof.
  induction lines as [|text lines IH]; intros k in_loop state description v Himp H;
    cbn [enumerate_from RuleEngine.performance_scan performance_pass] in *;
    [discriminate H|].
  pose proof (loop_flags text in_loop state Himp) as Hflag.
  fold (has_alloc_call text) in H.
  destruct (RuleEngine.update_in_loop in_loop text) eqn:Eloop; cbn [andb] in H.
  - rewrite (Hflag eq_refl). cbn [andb].
    destruct (has_alloc_call text).
    + injection H as <-. exists (performance_issue k text).
      split; [left; reflexivity|]. split; reflexivity.
    + destruct (IH (S k) true _ description v (fun _ => Hflag eq_refl) H)
        as (issue & Hin & Hrest).
      exists issue. split; [exact Hin | exact Hrest].
  - destruct (IH (S k) false (update_loop_state (strip text) state) description v)
      as (issue & Hin & Hrest); [discriminate | exact H |].
    exists issue. split; [apply in_or_app; right; exact Hin | exact Hrest].
Qed.

(** X17.  When the performance check of the rule engine fires at a line,
    the performance pass of the analyzer has a finding at that line, with
    the same snippet. *)
Theorem performance_pass_covers_engine : forall code description file_path v,
  RuleEngine._check_performance code description = Some v ->
  exists issue,
    In issue (_check_performance_patterns code file_path) /\
    line issue = RuleEngine.line_number v /\
    code_snippet issue = Some (RuleEngine.detected_pattern v).
Proof.
  intros code description file_path v H.
  unfold RuleEngine._check_performance in H. unfold _check_performance_patterns.
  eapply performance_scan_covered; [|exact H]. discriminate.
Qed.

Lemma performance_pass_covers_engine_example :
  exists v issue,
    RuleEngine._check_performance
      (u "for(;;) {" ++ [nl] ++ u "p = malloc(4);" ++ [nl] ++ u "}") (u "rule")
      = Some v /\
    In issue
       (_check_performance_patterns
          (u "for(;;) {" ++ [nl] ++ u "p = malloc(4);" ++ [nl] ++ u "}")
          (u "loop.c")) /\
    line issue = Some 2.
Proof.
  set (code := u "for(;;) {" ++ [nl] ++ u "p = malloc(4);" ++ [nl] ++ u "}").
  destruct (RuleEngine._check_performance code (u "rule")) as [v|] eqn:E;
    [|vm_compute in E; discriminate E].
  destruct (performance_pass_covers_engine code (u "rule") (u "loop.c") v E)
    as (issue & Hin & Hline & _).
  exists v, issue. split; [reflexivity|]. split; [exact Hin|].
  rewrite Hline. vm_compute in E. injection E as <-. reflexivity.
Defined.

(** An allocation after an inner loop: the analyzer still counts the outer
    loop, the rule engine has left it at the first closing brace. *)
Example allocation_after_inner_loop :
  let code :=
    u "for(;;) {" ++ [nl] ++ u "while(x) {" ++ [nl] ++ u "}" ++ [nl] ++
    u "p = malloc(4);" ++ [nl] ++ u "}" in
  RuleEngine._check_performance code (u "rule") = None /\
  map line (_check_performance_patterns code (u "loop.c")) = [Some 4].
Proof.
  vm_compute. split; reflexivity.
Qed.

Lemma existsb_false_in : forall (A : Type) (p : A -> bool) l x,
  existsb p l = false -> In x l -> p x = false.
Proof.
  intros A p l x H Hin. destruct (p x) eqn:E; [|reflexivity].
  assert (Hex : existsb p l = true) by (apply existsb_exists; eauto).
  congruence.
Qed.

Lemma no_keyword_in_lines : forall code,
  existsb (fun keyword => str_in keyword code) [u "for("; u "while("; u "do{"]
    = false ->
  Forall (fun text =>
            existsb (fun keyword => str_in keyword text)
                    [u "for("; u "while("; u "do{"] = false)
         (split_on nl code).
Proof.
  intros code H. cbn [existsb] in H |- *.
  rewrite !(StringFacts.str_in_lines _ code) in H
    by first [discriminate | vm_compute; reflexivity].
  apply Forall_forall. intros text Hin.
  apply orb_false_iff in H. destruct H as [Hfor H].
  apply orb_false_iff in H. destruct H as [Hwhile H].
  apply orb_false_iff in H. destruct H as [Hdo _].
  rewrite (existsb_false_in _ _ _ _ Hfor Hin),
    (existsb_false_in _ _ _ _ Hwhile Hin), (existsb_false_in _ _ _ _ Hdo Hin).
  reflexivity.
Qed.

(** X18.  A text without any of the loop keywords [for(], [while(] and
    [do{] has no finding of the performance pass of the analyzer and none
    of the performance check of the rule engine. *)
Theorem no_loop_no_performance_finding : forall code description file_path,
  existsb (fun keyword => str_in keyword code) [u "for("; u "while("; u "do{"]
    = false ->
  _check_performance_patterns code file_path = [] /\
  RuleEngine._check_performance code description = None.
Proof.
  intros code description file_path H.
  apply no_keyword_in_lines in H.
  unfold _check_performance_patterns, RuleEngine._check_performance, enumerate.
  generalize 0. generalize 0%Z.
  induction H as [|text lines Htext Hlines IH]; intros depth k;
    cbn [enumerate_from performance_pass RuleEngine.performance_scan];
    [split; reflexivity|].
  unfold update_loop_state, RuleEngine.update_in_loop.
  rewrite loop_keyword_stripped, Htext, andb_false_r.
  cbn [fst andb app].
  destruct (str_in [ch "}"] text); cbn [andb]; apply IH.
Qed.

Lemma no_loop_no_performance_finding_example :
  _check_performance_patterns (u "p = malloc(4);") (u "a.c") = [] /\
  RuleEngine._check_performance (u "p = malloc(4);") (u "rule") = None.
Proof.
  apply no_loop_no_performance_finding. vm_compute. reflexivity.
Defined.

Lemma in_enumerate_from : forall (A : Type) (xs : list A) k i x,
  In (i, x) (enumerate_from k xs) ->
  k <= i /\ nth_error xs (i - k) = Some x.
Proof.
  induction xs as [|y xs IH]; intros k i x H; [contradiction|].
  cbn [enumerate_from] in H. destruct H as [H | H].
  - injection H as <- <-. rewrite Nat.sub_diag. split; [lia | reflexivity].
  - apply IH in H. destruct H as (Hle & Hnth). split; [lia|].
    replace (i - k) with (S (i - S k)) by lia. exact Hnth.
Qed.

Lemma security_line_shape : forall i text issue,
  In issue (security_line_issues i text) ->
  tool issue = u "custom" /\ category issue = u "security" /\
  (severity issue = u "high" \/ severity issue = u "critical") /\
  line issue = Some (i + 1) /\ code_snippet issue = Some (strip text) /\
  exists func, In func RuleEngine.dangerous_functions /\
               str_in (func ++ [ch "("]) text = true.
Proof.
  intros i text issue H. unfold security_line_issues in H.
  apply in_flat_map in H. destruct H as ((func & info) & Hcat & H).
  destruct (str_in (func ++ [ch "("]) text) eqn:Ecall; [|contradiction].
  destruct H as [<- | []].
  unfold security_catalogue in Hcat. cbn [In] in Hcat.
  unfold RuleEngine.dangerous_functions.
  destruct Hcat as [Hc | [Hc | [Hc | [Hc | []]]]]; injection Hc as <- <-;
    cbn [security_issue tool category severity line code_snippet].
  - repeat (split; [reflexivity|]). split; [left; reflexivity|].
    repeat (split; [reflexivity|]). eexists. split; [left; reflexivity | exact Ecall].
  - repeat (split; [reflexivity|]). split; [left; reflexivity|].
    repeat (split; [reflexivity|]). eexists.
    split; [right; left; reflexivity | exact Ecall].
  - repeat (split; [reflexivity|]). split; [left; reflexivity|].
    repeat (split; [reflexivity|]). eexists.
    split; [right; right; left; reflexivity | exact Ecall].
  - repeat (split; [reflexivity|]). split; [right; reflexivity|].
    repeat (split; [reflexivity|]). eexists.
    split; [right; right; right; left; reflexivity | exact Ecall].
Qed.

Lemma security_line_numbers : forall i text,
  map line (security_line_issues i text) =
  repeat (Some (i + 1)) (length (security_line_issues i text)).
Proof.
  intros i text.
  assert (H : forall issue, In issue (security_line_issues i text) ->
                            line issue = Some (i + 1)).
  { intros issue Hin. apply security_line_shape in Hin. apply Hin. }
  induction (security_line_issues i text) as [|issue l IH]; [reflexivity|].
  cbn [map length repeat]. rewrite (H issue (or_introl eq_refl)), IH; [reflexivity|].
  intros x Hx. apply H. right. exact Hx.
Qed.

Lemma security_pass_lines : forall lines k,
  exists numbers,
    map line (flat_map (fun '(i, text) => security_line_issues i text)
                       (enumerate_from k lines)) = map Some numbers /\
    Forall (fun n => k + 1 <= n) numbers /\
    ForallOrdPairs le numbers.
Proof.
  induction lines as [|text lines IH]; intros k; cbn [enumerate_from flat_map].
  - exists []. split; [reflexivity|]. split; constructor.
  - destruct (IH (S k)) as (numbers & Hmap & Hlow & Hord).
    exists (repeat (k + 1) (length (security_line_issues k text)) ++ numbers).
    rewrite !map_app, Hmap, security_line_numbers.
    split; [f_equal; induction (length (security_line_issues k text));
            cbn [repeat map]; congruence|].
    generalize (length (security_line_issues k text)).
    induction n as [|n (IHlow & IHord)]; cbn [repeat app].
    + split; [|exact Hord]. eapply Forall_impl; [|exact Hlow].
      cbv beta. intros; lia.
    + split; [constructor; [lia | exact IHlow]|].
      constructor; [|exact IHord].
      eapply Forall_impl; [|exact IHlow]. cbv beta. intros; lia.
Qed.

(** X19.  Every finding of the security pass of the analyzer is a custom
    finding of the category security with the severity high or critical;
    it stands for a line of the text that has a call of a function of the
    catalogue, gives the number of that line and the stripped line; and
    the findings come in the order of the lines. *)
Theorem security_findings_shape : forall content file_path,
  Forall (fun issue =>
            tool issue = u "custom" /\ category issue = u "security" /\
            (severity issue = u "high" \/ severity issue = u "critical") /\
            exists i text func,
              nth_error (split_on nl content) i = Some text /\
              line issue = Some (i + 1) /\
              code_snippet issue = Some (strip text) /\
              In func RuleEngine.dangerous_functions /\
              str_in (func ++ [ch "("]) text = true)
         (_check_security_patterns content file_path) /\
  exists numbers,
    map line (_check_security_patterns content file_path) = map Some numbers /\
    ForallOrdPairs le numbers.
Proof.
  intros content file_path. unfold _check_security_patterns, enumerate. split.
  - apply Forall_forall. intros issue Hin.
    apply in_flat_map in Hin. destruct Hin as ((i & text) & Hline & Hin).
    apply in_enumerate_from in Hline. destruct Hline as (_ & Hnth).
    rewrite Nat.sub_0_r in Hnth.
    apply security_line_shape in Hin.
    destruct Hin as (Ht & Hc & Hs & Hl & Hsn & func & Hfunc & Hcall).
    split; [exact Ht|]. split; [exact Hc|]. split; [exact Hs|].
    exists i, text, func. auto.
  - destruct (security_pass_lines (split_on nl content) 0)
      as (numbers & Hmap & _ & Hord).
    exists numbers. auto.
Qed.

(** X20.  The parser reports a function body as possibly without a return
    value exactly when the error-handling check of the rule engine fires
    on that body: the text has neither [return] nor [void]. *)
Theorem missing_return_reports_agree : forall func_body description,
  In (u "戻り値が設定されていない可能性") (Parser._analyze_function_issues func_body) <->
  RuleEngine._check_error_handling func_body description <> None.
Proof.
  intros func_body description.
  unfold Parser._analyze_function_issues, RuleEngine._check_error_handling.
  destruct (negb (str_in (u "return") func_body) &&
            negb (str_in (u "void") func_body)).
  - split; [discriminate|]. intros _.
    apply in_or_app. right. apply in_or_app. right. left. reflexivity.
  - split; [|intros H; contradiction H; reflexivity].
    intros H. exfalso. rewrite app_nil_r in H. apply in_app_or in H.
    destruct H as [H | H].
    + destruct (50 <? str_count func_body [nl]); [|contradiction].
      destruct H as [H | []]. vm_compute in H. discriminate H.
    + destruct (10 <? Parser.cyclomatic_complexity
                        (Parser._calculate_function_complexity func_body));
        [|contradiction].
      destruct H as [H | []]. vm_compute in H. discriminate H.
Qed.

End DetectorFacts.

(** ** The analyzer: the summary of the findings *)

Module SummaryFacts.
Import Py Analyzer.

Lemma counts_total_cons : forall k v (d : Counts),
  counts_total ((k, v) :: d) = v + counts_total d.
Proof.
  reflexivity.
Qed.

Lemma counts_incr_keys : forall d key,
  map fst (counts_incr d key) = map fst d.
Proof.
  induction d as [|[k v] d IH]; intros key; cbn [counts_incr map fst];
    [reflexivity|].
  destruct (list_eq_dec N.eq_dec k key); cbn [map fst]; [reflexivity|].
  rewrite IH. reflexivity.
Qed.

Lemma counts_incr_total : forall d key,
  counts_total (counts_incr d key) =
  counts_total d + match counts_get d key with Some _ => 1 | None => 0 end.
Proof.
  induction d as [|[k v] d IH]; intros key; cbn [counts_incr counts_get];
    [reflexivity|].
  destruct (list_eq_dec N.eq_dec k key); rewrite !counts_total_cons.
  - lia.
  - rewrite IH. lia.
Qed.

Lemma counts_get_added : forall d key v,
  counts_get (d ++ [(key, v)]) key <> None.
Proof.
  induction d as [|[k w] d IH]; intros key v; cbn [app counts_get].
  - destruct (list_eq_dec N.eq_dec key key); [discriminate | contradiction].
  - destruct (list_eq_dec N.eq_dec k key); [discriminate | apply IH].
Qed.

Lemma count_severity_total : forall d sev,
  map fst (count_severity d sev) = map fst d /\
  counts_total (count_severity d sev) =
  counts_total d + match counts_get d sev with Some _ => 1 | None => 0 end.
Proof.
  intros d sev. unfold count_severity.
  pose proof (counts_incr_total d sev) as Htotal.
  destruct (counts_get d sev).
  - split; [apply counts_incr_keys | exact Htotal].
  - split; [reflexivity | lia].
Qed.

Lemma count_category_total : forall d cat,
  counts_total (count_category d cat) = counts_total d + 1.
Proof.
  intros d cat. unfold count_category.
  destruct (counts_get d cat) eqn:E.
  - rewrite counts_incr_total, E. reflexivity.
  - rewrite counts_incr_total.
    pose proof (counts_get_added d cat 0) as Hadded.
    destruct (counts_get (d ++ [(cat, 0)]) cat); [|contradiction].
    unfold counts_total. rewrite map_app, list_sum_app. cbn. lia.
Qed.

Lemma cppcheck_step_facts : forall acc entry,
  let next := summary_cppcheck_step acc entry in
  total_issues next = total_issues acc + (if cppcheck_counts entry then 1 else 0) /\
  map fst (by_severity next) = map fst (by_severity acc) /\
  counts_total (by_severity acc) <= counts_total (by_severity next) /\
  counts_total (by_severity next) <=
    counts_total (by_severity acc) + (if cppcheck_counts entry then 1 else 0) /\
  by_category next = by_category acc /\
  tools_used next = tools_used acc.
Proof.
  intros acc entry. cbv zeta. unfold summary_cppcheck_step.
  destruct (cppcheck_counts entry);
    cbn [total_issues by_severity by_category tools_used].
  - destruct (count_severity_total (by_severity acc) (cppcheck_severity entry))
      as (Hkeys & Htotal).
    rewrite Hkeys, Htotal.
    destruct (counts_get (by_severity acc) (cppcheck_severity entry));
      repeat split; lia.
  - repeat split; lia.
Qed.

Lemma custom_step_facts : forall acc entry,
  let next := summary_custom_step acc entry in
  total_issues next = total_issues acc + 1 /\
  map fst (by_severity next) = map fst (by_severity acc) /\
  counts_total (by_severity acc) <= counts_total (by_severity next) /\
  counts_total (by_severity next) <= counts_total (by_severity acc) + 1 /\
  counts_total (by_category next) = counts_total (by_category acc) + 1 /\
  tools_used next = tools_used acc.
Proof.
  intros acc entry. cbv zeta. unfold summary_custom_step.
  cbn [total_issues by_severity by_category tools_used].
  destruct (count_severity_total (by_severity acc) (custom_severity entry))
    as (Hkeys & Htotal).
  rewrite Hkeys, Htotal, count_category_total.
  destruct (counts_get (by_severity acc) (custom_severity entry));
    repeat split; lia.
Qed.

Lemma fold_cppcheck : forall entries acc,
  let result := fold_left summary_cppcheck_step entries acc in
  total_issues result = total_issues acc + length (filter cppcheck_counts entries) /\
  map fst (by_severity result) = map fst (by_severity acc) /\
  counts_total (by_severity result) + total_issues acc <=
    counts_total (by_severity acc) + total_issues result /\
  by_category result = by_category acc /\
  tools_used result = tools_used acc.
Proof.
  induction entries as [|entry entries IH]; intros acc; cbn [fold_left filter].
  - cbv zeta. cbn [length]. repeat split; lia.
  - specialize (IH (summary_cppcheck_step acc entry)). cbv zeta in IH |- *.
    destruct IH as (Ht & Hk & Hs & Hc & Hu).
    destruct (cppcheck_step_facts acc entry) as (Ft & Fk & Flow & Fs & Fc & Fu).
    rewrite Ht, Hk, Hc, Hu, Fk, Fc, Fu. rewrite Ft in Hs |- *.
    destruct (cppcheck_counts entry); cbn [length]; repeat split; lia.
Qed.

Lemma fold_custom : forall entries acc,
  let result := fold_left summary_custom_step entries acc in
  total_issues result = total_issues acc + length entries /\
  map fst (by_severity result) = map fst (by_severity acc) /\
  counts_total (by_severity result) + total_issues acc <=
    counts_total (by_severity acc) + total_issues result /\
  counts_total (by_category result) = counts_total (by_category acc) + length entries /\
  tools_used result = tools_used acc.
Proof.
  induction entries as [|entry entries IH]; intros acc; cbn [fold_left].
  - cbv zeta. cbn [length]. repeat split; lia.
  - specialize (IH (summary_custom_step acc entry)). cbv zeta in IH |- *.
    destruct IH as (Ht & Hk & Hs & Hc & Hu).
    destruct (custom_step_facts acc entry) as (Ft & Fk & Flow & Fs & Fc & Fu).
    rewrite Ht, Hk, Hc, Hu, Fk, Fc, Fu. rewrite Ft in Hs |- *.
    cbn [length]. repeat split; lia.
Qed.

(** X21.  The summary counts every entry of the two lists but the error
    entries of cppcheck; the counts by category add up to the number of
    custom entries, the counts by severity to at most the total; the
    severities counted are the four of the start, and a tool is named
    exactly when its list is not empty. *)
Theorem summary_counts : forall cppcheck_results custom_analysis,
  let result := _generate_summary cppcheck_results custom_analysis in
  total_issues result =
    length (filter cppcheck_counts cppcheck_results) + length custom_analysis /\
  counts_total (by_category result) = length custom_analysis /\
  counts_total (by_severity result) <= total_issues result /\
  map fst (by_severity result) = [u "critical"; u "high"; u "medium"; u "low"] /\
  tools_used result =
    (match cppcheck_results with [] => [] | _ => [u "cppcheck"] end) ++
    (match custom_analysis with [] => [] | _ => [u "custom"] end).
Proof.
  intros cppcheck_results custom_analysis. cbv zeta. unfold _generate_summary.
  set (after_cppcheck :=
         match cppcheck_results with
         | [] => summary_start
         | _ => fold_left summary_cppcheck_step cppcheck_results
                          (add_tool summary_start (u "cppcheck"))
         end).
  assert (H1 : total_issues after_cppcheck =
                 length (filter cppcheck_counts cppcheck_results) /\
               map fst (by_severity after_cppcheck) =
                 [u "critical"; u "high"; u "medium"; u "low"] /\
               counts_total (by_severity after_cppcheck)
                 <= total_issues after_cppcheck /\
               by_category after_cppcheck = [] /\
               tools_used after_cppcheck =
                 match cppcheck_results with [] => [] | _ => [u "cppcheck"] end).
  { unfold after_cppcheck. destruct cppcheck_results as [|entry entries].
    - cbn. repeat split; lia.
    - destruct (fold_cppcheck (entry :: entries)
                  (add_tool summary_start (u "cppcheck")))
        as (Ht & Hk & Hs & Hc & Hu).
      rewrite Ht, Hk, Hc, Hu.
      cbn [add_tool summary_start total_issues by_severity by_category tools_used
           app] in *.
      split; [reflexivity|]. split; [reflexivity|].
      split; [|split; reflexivity].
      change (counts_total [(u "critical", 0); (u "high", 0); (u "medium", 0);
                            (u "low", 0)]) with 0 in Hs.
      lia. }
  destruct H1 as (Ht1 & Hk1 & Hs1 & Hc1 & Hu1).
  destruct custom_analysis as [|entry entries].
  - cbn [length]. rewrite Ht1, Hk1, Hc1, Hu1, app_nil_r, Nat.add_0_r.
    repeat split; try reflexivity. lia.
  - destruct (fold_custom (entry :: entries) (add_tool after_cppcheck (u "custom")))
      as (Ht & Hk & Hs & Hc & Hu).
    rewrite Ht, Hk, Hc, Hu.
    cbn [add_tool total_issues by_severity by_category tools_used] in *.
    rewrite Ht1, Hk1, Hc1, Hu1.
    split; [reflexivity|]. split; [reflexivity|].
    split; [lia|]. split; reflexivity.
Qed.

End SummaryFacts.

(** ** The rule engine: applicable rules, violations and the score *)

Module EngineFacts.
Import Py Fnmatch RuleEngine.

Lemma matches_some_pattern_eq : forall file_path patterns,
  Config.matches_some_pattern file_path patterns =
  _file_matches_patterns file_path patterns.
Proof.
  intros file_path patterns.
  unfold Config.matches_some_pattern, _file_matches_patterns.
  induction patterns as [|pattern patterns IH]; cbn [for_first]; [reflexivity|].
  destruct (fnmatch file_path pattern); [reflexivity | exact IH].
Qed.

Lemma collect_is_filter : forall (A : Type) (p : A -> bool) (l : list A),
  flat_map (fun x => if p x then [x] else []) l = filter p l.
Proof.
  intros A p l. induction l as [|x l IH]; cbn [flat_map filter]; [reflexivity|].
  destruct (p x); cbn [app]; rewrite IH; reflexivity.
Qed.

(** X22.  [get_rules_for_file] of the configuration returns the rules of
    the dictionary of [_get_applicable_rules], category after category:
    the rules of the standards that apply to the file, in their order. *)
Theorem rules_for_file_are_applicable_rules : forall standards file_path,
  Config.get_rules_for_file standards file_path =
    concat (map snd (_get_applicable_rules standards file_path)) /\
  Config.get_rules_for_file standards file_path =
    filter (rule_applies file_path) (concat (map snd standards)).
Proof.
  intros standards file_path.
  assert (H : Config.get_rules_for_file standards file_path =
              filter (rule_applies file_path) (concat (map snd standards))).
  { unfold Config.get_rules_for_file.
    induction standards as [|[category rules] standards IH];
      cbn [flat_map map snd concat]; [reflexivity|].
    rewrite filter_app, IH. f_equal.
    rewrite <- collect_is_filter. apply flat_map_ext. intros rule.
    unfold rule_applies. rewrite matches_some_pattern_eq. reflexivity. }
  split; [|exact H].
  rewrite H. symmetry. apply RuleEngineFacts.applicable_rules_concat.
Qed.

Lemma filter_filter_same : forall (A : Type) (p : A -> bool) (l : list A),
  filter p (filter p l) = filter p l.
Proof.
  intros A p l. induction l as [|x l IH]; [reflexivity|].
  cbn [filter]. destruct (p x) eqn:E; [|exact IH].
  cbn [filter]. rewrite E, IH. reflexivity.
Qed.

(** X23.  No category of the applicable rules is empty, each of its rules
    applies to the file, and the category is one of the standards; to
    take the applicable rules of the applicable rules changes nothing. *)
Theorem applicable_rules_invariants : forall standards file_path,
  Forall (fun item =>
            snd item <> [] /\
            Forall (fun rule => rule_applies file_path rule = true) (snd item) /\
            exists all_rules, In (fst item, all_rules) standards)
         (_get_applicable_rules standards file_path) /\
  _get_applicable_rules (_get_applicable_rules standards file_path) file_path =
  _get_applicable_rules standards file_path.
Proof.
  intros standards file_path.
  induction standards as [|[category rules] standards (IHall & IHidem)];
    cbn [_get_applicable_rules]; [split; [constructor | reflexivity]|].
  assert (Hrest : Forall (fun item =>
            snd item <> [] /\
            Forall (fun rule => rule_applies file_path rule = true) (snd item) /\
            exists all_rules,
              In (fst item, all_rules) ((category, rules) :: standards))
         (_get_applicable_rules standards file_path)).
  { eapply Forall_impl; [|exact IHall]. cbv beta.
    intros item (Hne & Happ & all_rules & Hin).
    split; [exact Hne|]. split; [exact Happ|]. exists all_rules. right. exact Hin. }
  destruct (filter (rule_applies file_path) rules) as [|rule kept] eqn:E.
  - split; [exact Hrest | exact IHidem].
  - split.
    + constructor; [|exact Hrest]. cbn [fst snd].
      split; [discriminate|]. split.
      * rewrite <- E. apply Forall_forall. intros r Hr.
        apply filter_In in Hr. apply Hr.
      * exists rules. left. reflexivity.
    + cbn [_get_applicable_rules]. rewrite <- E, filter_filter_same, E, IHidem.
      reflexivity.
Qed.

Lemma applicable_rules_app : forall standards1 standards2 file_path,
  _get_applicable_rules (standards1 ++ standards2) file_path =
  _get_applicable_rules standards1 file_path ++
  _get_applicable_rules standards2 file_path.
Proof.
  intros standards1 standards2 file_path.
  induction standards1 as [|[category rules] standards1 IH];
    cbn [app _get_applicable_rules]; [reflexivity|].
  destruct (filter (rule_applies file_path) rules); rewrite IH; reflexivity.
Qed.

(** X24.  Without a category asked for, the evaluation of a file against
    two sets of standards one after the other lists the applied rules and
    the violations of the first set and then those of the second. *)
Theorem evaluation_of_joined_standards :
  forall lower standards1 standards2 file_path code_content,
    let joined :=
      _evaluate_file lower (standards1 ++ standards2) file_path code_content None in
    let first := _evaluate_file lower standards1 file_path code_content None in
    let second := _evaluate_file lower standards2 file_path code_content None in
    applied_rules joined = applied_rules first ++ applied_rules second /\
    violations joined = violations first ++ violations second /\
    total_rules (summary joined) =
      total_rules (summary first) + total_rules (summary second) /\
    violations_found (summary joined) =
      violations_found (summary first) + violations_found (summary second).
Proof.
  intros lower standards1 standards2 file_path code_content. cbv zeta.
  destruct (RuleEngineFacts.evaluate_file_closed_form lower code_content file_path
              (standards1 ++ standards2) None) as (Ha & Hv & Ht & Hf).
  destruct (RuleEngineFacts.evaluate_file_closed_form lower code_content file_path
              standards1 None) as (Ha1 & Hv1 & Ht1 & Hf1).
  destruct (RuleEngineFacts.evaluate_file_closed_form lower code_content file_path
              standards2 None) as (Ha2 & Hv2 & Ht2 & Hf2).
  cbv zeta in *. rewrite Ha, Hv, Ht, Hf, Ha1, Hv1, Ht1, Hf1, Ha2, Hv2, Ht2, Hf2.
  unfold rules_to_evaluate.
  rewrite applicable_rules_app, !flat_map_app, !length_app. auto.
Qed.

Lemma performance_scan_fields : forall lines in_loop description v,
  performance_scan lines in_loop description = Some v ->
  rule_description v = description /\ category v = None /\
  violation_type v = u "performance" /\ severity v = u "medium".
Proof.
  induction lines as [|[i text] lines IH]; intros in_loop description v H;
    cbn [performance_scan] in H; [discriminate H|].
  destruct (update_in_loop in_loop text &&
            (str_in (u "malloc(") text || str_in (u "calloc(") text)).
  - injection H as <-. repeat split.
  - eapply IH. exact H.
Qed.

Lemma for_first_hit : forall (A B : Type) (body : A -> option B) xs v,
  for_first body xs = Some v -> exists x, In x xs /\ body x = Some v.
Proof.
  intros A B body xs v H. apply PyFacts.for_first_some in H.
  destruct H as (before & x & after & -> & Hx & _).
  exists x. split; [apply in_or_app; right; left; reflexivity | exact Hx].
Qed.

Lemma evaluate_rule_fields : forall lower rule code_content file_path v,
  _evaluate_rule lower rule code_content file_path = Some v ->
  rule_description v = description rule /\ category v = None /\
  In (violation_type v, severity v) (violation_table rule).
Proof.
  intros lower rule code_content file_path v H.
  unfold _evaluate_rule in H. unfold violation_table.
  repeat match type of H with
         | (if ?b then _ else _) = _ => destruct b
         end.
  - unfold _check_buffer_overflow in H. apply for_first_hit in H.
    destruct H as (func & _ & H).
    destruct (str_in (func ++ [ch "("]) code_content); [|discriminate H].
    injection H as <-. split; [reflexivity|]. split; [reflexivity|].
    left. reflexivity.
  - unfold _check_memory_leak in H.
    destruct (str_count code_content (u "free") <?
              str_count code_content (u "malloc") + str_count code_content (u "calloc"));
      [|discriminate H].
    injection H as <-. split; [reflexivity|]. split; [reflexivity|].
    right. left. reflexivity.
  - unfold _check_null_pointer in H. apply for_first_hit in H.
    destruct H as ((i & text) & _ & H).
    destruct (unchecked_allocation (split_on nl code_content) i text);
      [|discriminate H].
    injection H as <-. split; [reflexivity|]. split; [reflexivity|].
    do 2 right. left. reflexivity.
  - unfold _check_dangerous_functions in H. apply for_first_hit in H.
    destruct H as ((dangerous & safe) & _ & H).
    destruct (str_in (dangerous ++ [ch "("]) code_content); [|discriminate H].
    injection H as <-. split; [reflexivity|]. split; [reflexivity|].
    do 3 right. left. reflexivity.
  - unfold _check_error_handling in H.
    destruct (negb (str_in (u "return") code_content) &&
              negb (str_in (u "void") code_content)); [|discriminate H].
    injection H as <-. split; [reflexivity|]. split; [reflexivity|].
    do 4 right. left. reflexivity.
  - unfold _check_performance in H. apply performance_scan_fields in H.
    destruct H as (Hd & Hc & Ht & Hs). split; [exact Hd|]. split; [exact Hc|].
    do 5 right. left. rewrite Ht, Hs. reflexivity.
  - unfold _check_comments in H.
    destruct ((20 <? length (split_on nl code_content)) &&
              (str_count code_content (u "//") + str_count code_content (u "/*") =? 0));
      [|discriminate H].
    injection H as <-. split; [reflexivity|]. split; [reflexivity|].
    do 6 right. left. reflexivity.
  - unfold _check_generic_rule in H. apply for_first_hit in H.
    destruct H as (keyword & _ & H).
    destruct ((3 <? length keyword) &&
              str_in (lower keyword) (lower code_content)); [|discriminate H].
    injection H as <-. split; [reflexivity|]. split; [reflexivity|].
    do 7 right. left. reflexivity.
Qed.

(** X25.  A violation that [_evaluate_rule] returns carries the description
    of the rule and no category yet; its type and severity are those of
    one of the seven checks, whatever the priority of the rule, or the
    type [generic] with the priority of the rule as its severity. *)
Theorem violation_fields : forall lower rule code_content file_path v,
  _evaluate_rule lower rule code_content file_path = Some v ->
  rule_description v = description rule /\
  category v = None /\
  In (violation_type v, severity v) (violation_table rule).
Proof.
  exact evaluate_rule_fields.
Qed.

Lemma violation_fields_example :
  exists v,
    _evaluate_rule ascii_lower (mk_rule (u "check strings") (u "low") None None)
      (u "strings are checked") (u "a.c") = Some v /\
    rule_description v = u "check strings" /\
    In (violation_type v, severity v)
       (violation_table (mk_rule (u "check strings") (u "low") None None)).
Proof.
  set (rule := mk_rule (u "check strings") (u "low") None None).
  destruct (_evaluate_rule ascii_lower rule (u "strings are checked") (u "a.c"))
    as [v|] eqn:E; [|vm_compute in E; discriminate E].
  destruct (violation_fields _ _ _ _ _ E) as (Hd & _ & Hin).
  exists v. split; [reflexivity|]. split; [exact Hd | exact Hin].
Defined.

(** X26.  Every violation of the result of [_evaluate_file] belongs to one
    of the applied rules of the result: it has the category and the
    description of that entry. *)
Theorem violations_belong_to_applied_rules :
  forall lower standards file_path code_content rules_category,
    let result :=
      _evaluate_file lower standards file_path code_content rules_category in
    Forall (fun v =>
              exists entry,
                In entry (applied_rules result) /\
                category v = Some (ar_category entry) /\
                rule_description v = ar_description entry)
           (violations result).
Proof.
  intros lower standards file_path code_content rules_category. cbv zeta.
  destruct (RuleEngineFacts.evaluate_file_closed_form lower code_content file_path
              standards rules_category) as (Ha & Hv & _).
  cbv zeta in Ha, Hv. rewrite Ha, Hv.
  apply Forall_forall. intros v Hin.
  apply in_flat_map in Hin. destruct Hin as (item & Hitem & Hin).
  unfold item_violations in Hin. apply in_flat_map in Hin.
  destruct Hin as (rule & Hrule & Hin). unfold rule_violations in Hin.
  destruct (_evaluate_rule lower rule code_content file_path) as [v0|] eqn:E;
    [|contradiction].
  destruct Hin as [<- | []].
  apply evaluate_rule_fields in E. destruct E as (Hd & _ & _).
  exists (applied_entry (fst item) rule). split.
  - apply in_flat_map. exists item. split; [exact Hitem|].
    unfold item_entries. apply in_map. exact Hrule.
  - split; [reflexivity | exact Hd].
Qed.

(** X27.  When at most [2^53] rules were applied, the compliance score is
    100 exactly when the result has no violation, and, when a rule was
    applied, it is 0 exactly when every applied rule has a violation. *)
Theorem score_extremes :
  forall lower standards file_path code_content rules_category,
    let result :=
      _evaluate_file lower standards file_path code_content rules_category in
    (Z.of_nat (length (applied_rules result)) <= 2 ^ 53)%Z ->
    ((compliance_score (summary result) == 100)%Q <-> violations result = []) /\
    (applied_rules result <> [] ->
     ((compliance_score (summary result) == 0)%Q <->
      length (violations result) = length (applied_rules result))).
Proof.
  intros lower standards file_path code_content rules_category. cbv zeta.
  destruct (RuleEngineFacts.evaluate_file_closed_form lower code_content file_path
              standards rules_category) as (Ha & Hv & Ht & Hf).
  cbv zeta in Ha, Hv, Ht, Hf.
  pose proof (RuleEngineFacts.violations_le_entries lower code_content file_path
                (rules_to_evaluate standards file_path rules_category)) as Hle.
  set (result := _evaluate_file lower standards file_path code_content
                   rules_category) in *.
  assert (Hscore : compliance_score (summary result) =
          if 0 <? total_rules (summary result)
          then Float.float_mul
                 (Float.int_truediv
                    (Z.of_nat (total_rules (summary result)) -
                     Z.of_nat (violations_found (summary result)))
                    (Z.of_nat (total_rules (summary result))))
                 100
          else 100%Q) by reflexivity.
  rewrite Hscore, Ht, Hf, <- Ha, <- Hv. rewrite <- Ha, <- Hv in Hle.
  set (a := length (applied_rules result)) in *.
  set (v := length (violations result)) in *.
  intros Hsmall.
  destruct a as [|n] eqn:Ea; cbn [Nat.ltb Nat.leb].
  - split.
    + split; [intros _; apply length_zero_iff_nil; fold v; lia | reflexivity].
    + intros Hne. exfalso. apply Hne, length_zero_iff_nil. exact Ea.
  - assert (Hrange : (0 <= Z.of_nat v <= Z.of_nat (S n))%Z) by lia.
    assert (Hpos : (0 < Z.of_nat (S n))%Z) by lia.
    split.
    + rewrite (FloatFacts.percentage_full _ _ Hrange Hpos Hsmall).
      rewrite <- length_zero_iff_nil. fold v. lia.
    + intros _.
      rewrite (FloatFacts.percentage_zero _ _ Hrange Hpos Hsmall). lia.
Qed.

Lemma score_extremes_example :
  violations
    (_evaluate_file ascii_lower three_rules (u "main.c") (u "int x;") None) = [] /\
  (compliance_score
     (summary (_evaluate_file ascii_lower three_rules (u "main.c") (u "int x;")
                 None)) == 100)%Q.
Proof.
  assert (Hclean : violations
            (_evaluate_file ascii_lower three_rules (u "main.c") (u "int x;")
               None) = []) by (vm_compute; reflexivity).
  split; [exact Hclean|].
  destruct (score_extremes ascii_lower three_rules (u "main.c") (u "int x;") None)
    as (Hfull & _); [vm_compute; discriminate|].
  apply Hfull. exact Hclean.
Defined.

(** X28.  When a category is asked for that has no applicable rule for the
    file, the result has no applied rule and no violation, and its score
    is 100. *)
Theorem category_without_rules :
  forall lower standards file_path code_content rules_category,
    rules_category <> [] ->
    dict_get (_get_applicable_rules standards file_path) rules_category = [] ->
    let result :=
      _evaluate_file lower standards file_path code_content (Some rules_category) in
    applied_rules result = [] /\
    violations result = [] /\
    total_rules (summary result) = 0 /\
    compliance_score (summary result) = 100%Q.
Proof.
  intros lower standards file_path code_content rules_category Hne Hget.
  cbv zeta. unfold _evaluate_file, rules_to_evaluate.
  destruct rules_category as [|c rest]; [contradiction|].
  rewrite Hget. cbn. repeat split.
Qed.

Lemma category_without_rules_example :
  let result :=
    _evaluate_file ascii_lower [(u "security", [c_source_rule])] (u "main.c")
      (u "gets(s);") (Some (u "style")) in
  applied_rules result = [] /\ compliance_score (summary result) = 100%Q.
Proof.
  destruct (category_without_rules ascii_lower [(u "security", [c_source_rule])]
              (u "main.c") (u "gets(s);") (u "style"))
    as (Ha & _ & _ & Hs); [discriminate | vm_compute; reflexivity |].
  split; [exact Ha | exact Hs].
Defined.

Lemma split_ws_scan_word : forall s cur,
  forallb (fun c => negb (isspace c)) s = true ->
  split_ws_scan s cur =
  match rev cur ++ s with
  | [] => []
  | word => [word]
  end.
Proof.
  induction s as [|c s IH]; intros cur H.
  - cbn [split_ws_scan]. rewrite app_nil_r.
    destruct cur as [|d cur]; [reflexivity|].
    destruct (rev (d :: cur)) eqn:E; [|reflexivity].
    apply (f_equal (@length char)) in E. rewrite length_rev in E. discriminate E.
  - simpl in H. apply andb_true_iff in H. destruct H as [Hc H].
    apply negb_true_iff in Hc. cbn [split_ws_scan]. rewrite Hc.
    rewrite IH by exact H. cbn [rev]. rewrite <- app_assoc. reflexivity.
Qed.

(** X29.  For a description that is one word, without white space, the
    generic check fires exactly when the word has more than three
    characters and occurs in the text, both taken in lower case; the
    violation then names the whole description as the pattern. *)
Theorem generic_check_of_one_word : forall lower rule code description,
  description <> [] ->
  forallb (fun c => negb (isspace c)) description = true ->
  (_check_generic_rule lower rule code description <> None <->
   3 < length description /\ str_in (lower description) (lower code) = true) /\
  (forall v, _check_generic_rule lower rule code description = Some v ->
             detected_pattern v = description /\ severity v = priority rule).
Proof.
  intros lower rule code description Hne Hword.
  unfold _check_generic_rule, split_ws.
  rewrite split_ws_scan_word by exact Hword. cbn [rev app].
  destruct description as [|c rest]; [contradiction|].
  cbn [for_first].
  destruct (Nat.ltb_spec 3 (length (c :: rest))) as [Hlen|Hlen]; cbn [andb].
  - destruct (str_in (lower (c :: rest)) (lower code)).
    + split; [split; [auto | discriminate]|].
      intros v Hv. injection Hv as <-. split; reflexivity.
    + split; [split; [intros H; contradiction H; reflexivity
                     | intros (_ & H); discriminate H]|].
      intros v Hv. discriminate Hv.
  - split; [split; [intros H; contradiction H; reflexivity | intros (H & _); lia]|].
    intros v Hv. discriminate Hv.
Qed.

Lemma generic_check_of_one_word_example :
  _check_generic_rule ascii_lower
    (mk_rule (u "マジックナンバーの回避") (u "low") None None)
    (u "int x = 42;") (u "マジックナンバーの回避") = None.
Proof.
  destruct (generic_check_of_one_word ascii_lower
              (mk_rule (u "マジックナンバーの回避") (u "low") None None)
              (u "int x = 42;") (u "マジックナンバーの回避"))
    as (Hiff & _); [vm_compute; discriminate | vm_compute; reflexivity |].
  destruct (_check_generic_rule ascii_lower
              (mk_rule (u "マジックナンバーの回避") (u "low") None None)
              (u "int x = 42;") (u "マジックナンバーの回避")) as [v|] eqn:E;
    [|reflexivity].
  exfalso. destruct (proj1 Hiff) as (_ & Hin); [discriminate|].
  vm_compute in Hin. discriminate Hin.
Defined.

End EngineFacts.
